(** * Schematic graph extraction and net-path overlay engine

    A shallow embedding of [kicad_sch_net_overlay.py] (the block-diagram
    channel-map macro) and the properties its specification states.

    Conventions of the embedding:
    - a Python [dict] is an association list in insertion order, updated in
      place ([dict_set]); the order matters for the traversal of segments;
    - coordinates that went through [round_and_scale_coordinates] are decimal
      values, modelled as exact rationals ([Q]); Python's [round] is
      round-half-to-even;
    - trigonometry ([math.sin], [math.atan2], [math.asin], [math.pow]) is
      modelled over the real numbers ([R]);
    - a Python exception is a value of [py_error], threaded by [result]. *)

From Stdlib Require Import List String Ascii Bool Arith ZArith QArith Qround Lia.
From Stdlib Require Import Permutation Sorted DecimalString.
From Stdlib Require Import Reals Lra Qreals.
From Stdlib Require Import DecimalNat.
From Stdlib Require Lqa.
Import ListNotations.

Set Implicit Arguments.
Local Open Scope nat_scope.

(* ================================================================== *)
(** * Part I: definitions                                              *)
(* ================================================================== *)

(** ** Python dictionaries *)

Section Dict.
Variables K V : Type.
Variable eqb : K -> K -> bool.

Definition dict := list (K * V).

Fixpoint dict_get (d : dict) (k : K) : option V :=
  match d with
  | [] => None
  | (k', v) :: rest => if eqb k' k then Some v else dict_get rest k
  end.

(** [d[k] = v]: an existing key keeps its position, a new one is added
    at the end. *)
Fixpoint dict_set (d : dict) (k : K) (v : V) : dict :=
  match d with
  | [] => [(k, v)]
  | (k', v') :: rest =>
      if eqb k' k then (k', v) :: rest else (k', v') :: dict_set rest k v
  end.

(** [k in d] *)
Definition dict_mem (d : dict) (k : K) : bool :=
  match dict_get d k with Some _ => true | None => false end.

Definition dict_keys (d : dict) : list K := map fst d.
End Dict.

Arguments dict_get {K V} eqb d k.
Arguments dict_set {K V} eqb d k v.
Arguments dict_mem {K V} eqb d k.
Arguments dict_keys {K V} d.

Definition sdict (V : Type) : Type := dict string V.
Definition sget {V} (d : sdict V) (k : string) : option V := dict_get String.eqb d k.
Definition sset {V} (d : sdict V) (k : string) (v : V) : sdict V := dict_set String.eqb d k v.
Definition smem {V} (d : sdict V) (k : string) : bool := dict_mem String.eqb d k.

(** [x in l] for a list or a set of strings. *)
Definition str_in (s : string) (l : list string) : bool :=
  existsb (String.eqb s) l.

(** ** Exceptions *)

Inductive py_error : Type :=
| ValueError (msg : string)
| FileNotFoundError (msg : string)
| ZeroDivisionError
| KeyError (key : string)
| LoopBudget.

Inductive result (A : Type) : Type :=
| Ok (a : A)
| Err (e : py_error).
Arguments Ok {A} a.
Arguments Err {A} e.

Definition bind {A B} (r : result A) (f : A -> result B) : result B :=
  match r with Ok a => f a | Err e => Err e end.

Notation "x <- c ;; k" := (bind c (fun x => k))
  (at level 61, c at next level, right associativity).

(** ** Numbers *)

(** Python's [round(v)]: to the nearest integer, ties to the even one. *)
Definition py_round (v : Q) : Z :=
  let f := Qfloor v in
  match (v - inject_Z f ?= 1 # 2)%Q with
  | Lt => f
  | Gt => (f + 1)%Z
  | Eq => if Z.even f then f else (f + 1)%Z
  end.

(** Python's [round(v, ndigits)]. *)
Definition py_round_digits (v : Q) (ndigits : nat) : Q :=
  let p := inject_Z (10 ^ Z.of_nat ndigits) in
  (inject_Z (py_round (v * p)) / p)%Q.

Definition OUTPUT_PRECISION : nat := 5.

(** [f"{n}"] for a non-negative integer. *)
Definition str_of_nat (n : nat) : string :=
  NilEmpty.string_of_uint (Nat.to_uint n).

(** ** Graph builder *)

Record pin_loc := { x_loc : Q; y_loc : Q }.
Record wire_loc := { a_x : Q; a_y : Q; b_x : Q; b_y : Q }.
Record node := { node_x : Q; node_y : Q }.
Record segment := { node_at_end_a : string; node_at_end_b : string }.
Record graph := { nodes : sdict node; segments : sdict segment }.

Definition TOLERANCE : Q := 1 # 100.

Definition round_coord (value : Q) : Q :=
  (inject_Z (py_round (value / TOLERANCE)) * TOLERANCE)%Q.

Definition location_key (x y : Q) : Q * Q := (round_coord x, round_coord y).

(** Equality of two location keys, as the hash table compares two tuples
    of floats. *)
Definition key_eqb (k1 k2 : Q * Q) : bool :=
  Qeq_bool (fst k1) (fst k2) && Qeq_bool (snd k1) (snd k2).

(** The local state of [build_graph]. *)
Record builder := {
  b_nodes : sdict node;
  b_segments : sdict segment;
  location_to_node : dict (Q * Q) string;
  junction_counter : nat
}.

Definition builder_init : builder :=
  {| b_nodes := []; b_segments := []; location_to_node := []; junction_counter := 0 |}.

Definition pin_node_uuid (refdes pin_name : string) : string :=
  (refdes ++ "." ++ pin_name)%string.

Definition junction_uuid (n : nat) : string :=
  ("wirejunction-" ++ str_of_nat n)%string.

Definition stored_node (x y : Q) : node :=
  {| node_x := py_round_digits x OUTPUT_PRECISION;
     node_y := py_round_digits y OUTPUT_PRECISION |}.

(** Step 1, the body of the inner loop: one pin becomes one node. *)
Definition add_pin (refdes : string) (st : builder) (p : string * pin_loc) : builder :=
  let node_uuid := pin_node_uuid refdes (fst p) in
  let x := x_loc (snd p) in
  let y := y_loc (snd p) in
  {| b_nodes := sset (b_nodes st) node_uuid (stored_node x y);
     b_segments := b_segments st;
     location_to_node := dict_set key_eqb (location_to_node st) (location_key x y) node_uuid;
     junction_counter := junction_counter st |}.

Definition add_pins (st : builder) (entry : string * sdict pin_loc) : builder :=
  fold_left (add_pin (fst entry)) (snd entry) st.

(** Step 2, "get or create node" for one wire end: when the key is absent a
    junction is created and registered, and the node read back from
    [location_to_node] is the one found or just registered. *)
Definition node_for_end (st : builder) (x y : Q) : builder * string :=
  let key := location_key x y in
  match dict_get key_eqb (location_to_node st) key with
  | Some n => (st, n)
  | None =>
      let j := junction_uuid (junction_counter st) in
      ({| b_nodes := sset (b_nodes st) j (stored_node x y);
          b_segments := b_segments st;
          location_to_node := dict_set key_eqb (location_to_node st) key j;
          junction_counter := S (junction_counter st) |}, j)
  end.

Definition add_wire (st : builder) (w : string * wire_loc) : builder :=
  let wire_coords := snd w in
  let (st1, a_node) := node_for_end st (a_x wire_coords) (a_y wire_coords) in
  let (st2, b_node) := node_for_end st1 (b_x wire_coords) (b_y wire_coords) in
  {| b_nodes := b_nodes st2;
     b_segments := sset (b_segments st2) (fst w)
                     {| node_at_end_a := a_node; node_at_end_b := b_node |};
     location_to_node := location_to_node st2;
     junction_counter := junction_counter st2 |}.

Definition build_state (pin_locations_scaled : sdict (sdict pin_loc))
                       (wire_locations_scaled : sdict wire_loc) : builder :=
  fold_left add_wire wire_locations_scaled
    (fold_left add_pins pin_locations_scaled builder_init).

Definition build_graph (pin_locations_scaled : sdict (sdict pin_loc))
                       (wire_locations_scaled : sdict wire_loc) : graph :=
  let st := build_state pin_locations_scaled wire_locations_scaled in
  {| nodes := b_nodes st; segments := b_segments st |}.

(** ** Path resolver *)

Inductive direction := a_to_b | b_to_a.

Definition seg_path := list (string * direction).

(** Truth value of a string in [if next_node:]. *)
Definition py_truthy (s : string) : bool := negb (String.eqb s EmptyString).

(** The body of the loop over [graph["segments"].items()]. *)
Definition visit_segment (current_node : string) (current_path : seg_path)
    (acc : list string * list (string * seg_path)) (item : string * segment)
  : list string * list (string * seg_path) :=
  let (visited, queue) := acc in
  let segment_uuid := fst item in
  let node_a := node_at_end_a (snd item) in
  let node_b := node_at_end_b (snd item) in
  let next :=
    if String.eqb node_a current_node && negb (str_in node_b visited)
    then Some (node_b, a_to_b)
    else if String.eqb node_b current_node && negb (str_in node_a visited)
    then Some (node_a, b_to_a)
    else None in
  match next with
  | Some (next_node, dir) =>
      if py_truthy next_node
      then (next_node :: visited,
            queue ++ [(next_node, current_path ++ [(segment_uuid, dir)])])
      else acc
  | None => acc
  end.

Inductive bfs_result :=
| Found (p : seg_path)
| NoPath
| OutOfFuel.

(** The [while queue and not found_path] loop; [fuel] bounds the number of
    iterations. *)
Fixpoint bfs_loop (fuel : nat) (segs : sdict segment) (to_node_id : string)
    (visited : list string) (queue : list (string * seg_path)) : bfs_result :=
  match fuel with
  | O => OutOfFuel
  | S fuel' =>
      match queue with
      | [] => NoPath
      | (current_node, current_path) :: queue' =>
          if String.eqb current_node to_node_id then Found current_path
          else
            let (visited', queue'') :=
              fold_left (visit_segment current_node current_path) segs (visited, queue') in
            bfs_loop fuel' segs to_node_id visited' queue''
      end
  end.

(** Every iteration pops one entry, and an entry is pushed at most once per
    node: the start node and the two ends of every segment. *)
Definition bfs_fuel (segs : sdict segment) : nat := 2 * List.length segs + 2.

Definition find_path (g : graph) (from_node_id to_node_id : string) : bfs_result :=
  bfs_loop (bfs_fuel (segments g)) (segments g) to_node_id
    [from_node_id] [(from_node_id, [])].

(** ** Requested connections and the path resolution loop *)

(** One entry of [instances].  The three [graph_path_*] keys are absent
    ([None]) until the resolver stores them. *)
Record instance := {
  instance_name : string;
  parent_instance : option string;
  this_net_from_device_refdes : string;
  this_net_from_device_connector_name : string;
  this_net_to_device_refdes : string;
  this_net_to_device_connector_name : string;
  graph_path_segments : option (list string);
  graph_path_directions : option (list direction);
  total_segments : option nat
}.

Definition from_node_id_of (i : instance) : string :=
  (this_net_from_device_refdes i ++ "." ++ this_net_from_device_connector_name i)%string.

Definition to_node_id_of (i : instance) : string :=
  (this_net_to_device_refdes i ++ "." ++ this_net_to_device_connector_name i)%string.

Definition msg_from_not_found (i : instance) : string :=
  ("From node '" ++ from_node_id_of i ++ "' not found in graph for "
     ++ instance_name i)%string.

Definition msg_to_not_found (i : instance) : string :=
  ("To node '" ++ to_node_id_of i ++ "' not found in graph for "
     ++ instance_name i)%string.

Definition msg_no_path (i : instance) : string :=
  ("No path found for " ++ instance_name i ++ ": "
     ++ from_node_id_of i ++ " → " ++ to_node_id_of i)%string.

Definition store_path (i : instance) (p : seg_path) : instance :=
  {| instance_name := instance_name i;
     parent_instance := parent_instance i;
     this_net_from_device_refdes := this_net_from_device_refdes i;
     this_net_from_device_connector_name := this_net_from_device_connector_name i;
     this_net_to_device_refdes := this_net_to_device_refdes i;
     this_net_to_device_connector_name := this_net_to_device_connector_name i;
     graph_path_segments := Some (map fst p);
     graph_path_directions := Some (map snd p);
     total_segments := Some (List.length (map fst p)) |}.

(** The body of [for instance in instances]. *)
Definition resolve_instance (g : graph) (i : instance) : result instance :=
  if negb (smem (nodes g) (from_node_id_of i)) then Err (ValueError (msg_from_not_found i))
  else if negb (smem (nodes g) (to_node_id_of i)) then Err (ValueError (msg_to_not_found i))
  else match find_path g (from_node_id_of i) (to_node_id_of i) with
       | Found p => Ok (store_path i p)
       | NoPath => Err (ValueError (msg_no_path i))
       | OutOfFuel => Err LoopBudget
       end.

(** The loop itself: an exception leaves the loop (and the script); the
    result is the list of instances with their paths and
    [path_found_count]. *)
Fixpoint resolve_paths (g : graph) (instances : list instance) (path_found_count : nat)
  : result (list instance * nat) :=
  match instances with
  | [] => Ok ([], path_found_count)
  | i :: rest =>
      i' <- resolve_instance g i ;;
      r <- resolve_paths g rest (S path_found_count) ;;
      Ok (i' :: fst r, snd r)
  end.

(** Walks of the graph, to state what the resolver finds. *)
Definition hop (segs : sdict segment) (n : string) (e : string * direction) (m : string) : Prop :=
  exists s, In (fst e, s) segs /\
    match snd e with
    | a_to_b => node_at_end_a s = n /\ node_at_end_b s = m
    | b_to_a => node_at_end_b s = n /\ node_at_end_a s = m
    end.

Fixpoint walk (segs : sdict segment) (n : string) (p : seg_path) (m : string) : Prop :=
  match p with
  | [] => n = m
  | e :: p' => exists k, hop segs n e k /\ walk segs k p' m
  end.

(** No segment end is the empty string (such an end would be skipped by
    [if next_node:]). *)
Definition ids_nonempty (segs : sdict segment) : Prop :=
  forall u s, In (u, s) segs -> node_at_end_a s <> EmptyString /\ node_at_end_b s <> EmptyString.

(** ** Vocabulary for the graph builder's properties *)

Inductive wire_end := end_a | end_b.

Definition end_key (e : wire_end) (w : wire_loc) : Q * Q :=
  match e with
  | end_a => location_key (a_x w) (a_y w)
  | end_b => location_key (b_x w) (b_y w)
  end.

Definition pin_key (c : pin_loc) : Q * Q := location_key (x_loc c) (y_loc c).

(** The rounded location of a node of the graph, from its stored
    coordinates. *)
Definition node_key (nd : node) : Q * Q := location_key (node_x nd) (node_y nd).

(** The node a wire end was attached to. *)
Definition node_of_end (g : graph) (wire_uuid : string) (e : wire_end) : option string :=
  match sget (segments g) wire_uuid with
  | Some sg => Some match e with
                    | end_a => node_at_end_a sg
                    | end_b => node_at_end_b sg
                    end
  | None => None
  end.

(** No two pins with different node ids round to the same location. *)
Definition pins_apart (pins : sdict (sdict pin_loc)) : Prop :=
  forall r1 ps1 p1 c1 r2 ps2 p2 c2,
    In (r1, ps1) pins -> In (p1, c1) ps1 ->
    In (r2, ps2) pins -> In (p2, c2) ps2 ->
    key_eqb (pin_key c1) (pin_key c2) = true ->
    pin_node_uuid r1 p1 = pin_node_uuid r2 p2.

(** A coordinate that [round(_, OUTPUT_PRECISION)] leaves unchanged, as
    [round_and_scale_coordinates] delivers them. *)
Definition at_precision (v : Q) : Prop :=
  (py_round_digits v OUTPUT_PRECISION == v)%Q.

Definition inputs_at_precision (pins : sdict (sdict pin_loc)) (wires : sdict wire_loc) : Prop :=
  (forall r ps p c, In (r, ps) pins -> In (p, c) ps ->
     at_precision (x_loc c) /\ at_precision (y_loc c)) /\
  (forall u w, In (u, w) wires ->
     at_precision (a_x w) /\ at_precision (a_y w) /\
     at_precision (b_x w) /\ at_precision (b_y w)).

(** ** The [math] module over the real numbers *)

Section MathModule.
Local Open Scope R_scope.

Definition math_radians (d : R) : R := d * (PI / 180).
Definition math_degrees (r : R) : R := r * (180 / PI).

(** [math.atan2(y, x)], the angle of the vector [(x, y)]. *)
Definition math_atan2 (y x : R) : R :=
  if Rlt_dec 0 x then atan (y / x)
  else if Rlt_dec x 0 then
    (if Rle_dec 0 y then atan (y / x) + PI else atan (y / x) - PI)
  else if Rlt_dec 0 y then PI / 2
  else if Rlt_dec y 0 then - (PI / 2)
  else 0.

(** [math.pow(x, y)] for a base [x >= 0] and an exponent [y > 0]; the
    base here is a count of components. *)
Definition math_pow (x y : R) : R :=
  if Req_dec_T x 0 then 0 else Rpower x y.

(** [a / b] on floats raises [ZeroDivisionError] for a zero divisor. *)
Definition py_div (a b : R) : result R :=
  if Req_dec_T b 0 then Err ZeroDivisionError else Ok (a / b).

(** [math.asin(x)] raises [ValueError] outside [-1, 1]. *)
Definition math_asin (x : R) : result R :=
  if Rlt_dec x (-1) then Err (ValueError "math domain error")
  else if Rlt_dec 1 x then Err (ValueError "math domain error")
  else Ok (asin x).
End MathModule.

(** ** Coordinate compiler *)

Section Compiler.
Local Open Scope R_scope.

(** A pin of a library symbol, and later of a placed instance, in the
    document's units. *)
Record raw_pin := { raw_x_loc : R; raw_y_loc : R }.

Record lib_instance := {
  inst_x : R;
  inst_y : R;
  inst_rotate : R;
  inst_lib_id : string
}.

Record raw_wire := { raw_a_x : R; raw_a_y : R; raw_b_x : R; raw_b_y : R }.

Definition rotate_point (x y angle_degrees : R) : R * R :=
  let angle_rad := math_radians angle_degrees in
  let cos_a := cos angle_rad in
  let sin_a := sin angle_rad in
  let new_x := x * cos_a - y * sin_a in
  let new_y := x * sin_a + y * cos_a in
  (new_x, new_y).

(** The body of the loop over the pins of the library symbol. *)
Definition compile_pin (instance_x instance_y instance_rotate : R)
    (pins : sdict raw_pin) (p : string * raw_pin) : sdict raw_pin :=
  let pin_x_rel := raw_x_loc (snd p) in
  let pin_y_rel := raw_y_loc (snd p) in
  let (rotated_x, rotated_y) := rotate_point pin_x_rel pin_y_rel instance_rotate in
  let absolute_x := instance_x + rotated_x in
  let absolute_y := instance_y - rotated_y in
  sset pins (fst p) {| raw_x_loc := absolute_x; raw_y_loc := absolute_y |}.

(** The body of the loop over the instances; an instance whose symbol
    has no pin data is skipped with a warning. *)
Definition compile_instance (pin_locations_of_lib_symbols : sdict (sdict raw_pin))
    (pin_locations : sdict (sdict raw_pin)) (entry : string * lib_instance)
  : sdict (sdict raw_pin) :=
  let refdes := fst entry in
  let instance_info := snd entry in
  match sget pin_locations_of_lib_symbols (inst_lib_id instance_info) with
  | None => pin_locations
  | Some lib_pins =>
      sset pin_locations refdes
        (fold_left (compile_pin (inst_x instance_info) (inst_y instance_info)
                                (inst_rotate instance_info)) lib_pins [])
  end.

Definition compile_pin_locations (pin_locations_of_lib_symbols : sdict (sdict raw_pin))
    (locations_of_lib_instances : sdict lib_instance) : sdict (sdict raw_pin) :=
  fold_left (compile_instance pin_locations_of_lib_symbols) locations_of_lib_instances [].

(** The specification's wording of the same location: rotate the offset
    by the rotation, translate by the origin, the vertical axis flipped at
    the translation. *)
Definition spec_absolute_pin (inst : lib_instance) (pin : raw_pin) : raw_pin :=
  let theta := inst_rotate inst * (PI / 180) in
  {| raw_x_loc := inst_x inst + (raw_x_loc pin * cos theta - raw_y_loc pin * sin theta);
     raw_y_loc := inst_y inst - (raw_x_loc pin * sin theta + raw_y_loc pin * cos theta) |}.

(** The other order, which the code must not follow: the vertical axis
    flipped before the rotation. *)
Definition flipped_before_rotation (inst : lib_instance) (pin : raw_pin) : raw_pin :=
  let (rx, ry) := rotate_point (raw_x_loc pin) (- raw_y_loc pin) (inst_rotate inst) in
  {| raw_x_loc := inst_x inst + rx; raw_y_loc := inst_y inst + ry |}.
End Compiler.

(** ** Bundle geometry engine *)

Fixpoint fold_result {A B : Type} (f : A -> B -> result A) (l : list B) (a : A) : result A :=
  match l with
  | [] => Ok a
  | b :: l' => a' <- f a b ;; fold_result f l' a'
  end.

(** [instance.get("parent_instance") or instance.get("instance_name")] *)
Definition parent_name (i : instance) : string :=
  match parent_instance i with
  | Some p => if py_truthy p then p else instance_name i
  | None => instance_name i
  end.

(** [instance.get("graph_path_segments", [])] *)
Definition path_segments_of (i : instance) : list string :=
  match graph_path_segments i with Some l => l | None => [] end.

Definition path_directions_of (i : instance) : list direction :=
  match graph_path_directions i with Some l => l | None => [] end.

(** Some segment of the path of [i] is one of [node_segments]. *)
Definition passes_through (node_segments : list string) (i : instance) : bool :=
  existsb (fun seg_uuid => str_in seg_uuid node_segments) (path_segments_of i).

(** The body of the loop that counts the components of a node; the state
    is [(components_in_node, components_seen)]. *)
Definition count_component (node_segments : list string)
    (acc : nat * list string) (i : instance) : nat * list string :=
  let (components_in_node, components_seen) := acc in
  let parent := parent_name i in
  if str_in parent components_seen then acc
  else if passes_through node_segments i
       then (S components_in_node, components_seen ++ [parent])
       else acc.

Definition components_in_node (instances : list instance) (node_segments : list string) : nat :=
  fst (fold_left (count_component node_segments) instances (0, [])).

(** [list.sort()] on strings. *)
Fixpoint sort_insert (s : string) (l : list string) : list string :=
  match l with
  | [] => [s]
  | h :: t => if String.leb s h then s :: h :: t else h :: sort_insert s t
  end.

Definition py_sort (l : list string) : list string := fold_right sort_insert [] l.

Definition instances_using_segment (instances : list instance) (seg_uuid : string)
  : list string :=
  map instance_name
    (filter (fun i => str_in seg_uuid (path_segments_of i)) instances).

(** The names in the order in which they are placed: sorted, and reversed
    when [flip_sort.get(seg_uuid)] holds. *)
Definition placement_order (instances : list instance) (flip_sort : sdict bool)
    (seg_uuid : string) : list string :=
  let sorted := py_sort (instances_using_segment instances seg_uuid) in
  match sget flip_sort seg_uuid with
  | Some true => rev sorted
  | _ => sorted
  end.

Section Bundles.
Local Open Scope R_scope.

Record point := { pt_x : R; pt_y : R }.

Definition segment_spacing_inches : R := 0.05.

(** The lists and the dictionary filled by the loop over the segments,
    for one node. *)
Record node_scan := {
  node_segment_angles : list R;
  node_segments : list string;
  flip_sort : sdict bool
}.

Definition node_scan_init : node_scan :=
  {| node_segment_angles := []; node_segments := []; flip_sort := [] |}.

(** The angle from a node toward another one. *)
Definition outward_angle (node_coords other_coords : node) : R :=
  let dx := (Q2R (node_x other_coords) - Q2R (node_x node_coords)) * 25.4 in
  let dy := (Q2R (node_y other_coords) - Q2R (node_y node_coords)) * 25.4 in
  math_degrees (math_atan2 dy dx).

Definition scan_segment (g : graph) (node_id : string) (node_coords : node)
    (acc : node_scan) (item : string * segment) : result node_scan :=
  let segment_uuid := fst item in
  let node_a := node_at_end_a (snd item) in
  let node_b := node_at_end_b (snd item) in
  if String.eqb node_a node_id then
    match sget (nodes g) node_b with
    | None => Err (KeyError node_b)
    | Some node_b_coords =>
        Ok {| node_segment_angles :=
                node_segment_angles acc ++ [outward_angle node_coords node_b_coords];
              node_segments := node_segments acc ++ [segment_uuid];
              flip_sort := sset (flip_sort acc) segment_uuid false |}
    end
  else if String.eqb node_b node_id then
    match sget (nodes g) node_a with
    | None => Err (KeyError node_a)
    | Some node_a_coords =>
        Ok {| node_segment_angles :=
                node_segment_angles acc ++ [outward_angle node_coords node_a_coords];
              node_segments := node_segments acc ++ [segment_uuid];
              flip_sort := sset (flip_sort acc) segment_uuid true |}
    end
  else Ok acc.

Definition node_radius_inches (components : nat) : R :=
  math_pow (INR components) 0.7 * segment_spacing_inches.

Definition center_offset_from_count_inches (idx num_seg_components : nat) : R :=
  (INR idx - INR num_seg_components / 2 - 0.5) * segment_spacing_inches.

(** The [try] block and its [except (ValueError, ZeroDivisionError)]. *)
Definition delta_angle_from_count (center_offset_from_count_mm node_radius_mm : R)
  : result R :=
  match (q <- py_div center_offset_from_count_mm node_radius_mm ;;
         a <- math_asin q ;;
         Ok (math_degrees a)) with
  | Ok delta => Ok delta
  | Err (ValueError _) => Ok 0
  | Err ZeroDivisionError => Ok 0
  | Err e => Err e
  end.

(** The point stored for the instance at position [idx] (from 1) of the
    [num_seg_components] placed on one segment. *)
Definition bundle_point (x_node_mm y_node_mm node_radius_mm seg_angle : R)
    (num_seg_components idx : nat) : result point :=
  let center_offset_from_count_mm :=
    center_offset_from_count_inches idx num_seg_components * 25.4 in
  delta <- delta_angle_from_count center_offset_from_count_mm node_radius_mm ;;
  let final_angle := seg_angle + delta in
  let x_circleintersect := x_node_mm + node_radius_mm * cos (math_radians final_angle) in
  let y_circleintersect := y_node_mm + node_radius_mm * sin (math_radians final_angle) in
  Ok {| pt_x := x_circleintersect; pt_y := - y_circleintersect |}.

Definition points_store := sdict (sdict (sdict point)).

(** [points.setdefault(node_id, {}).setdefault(seg_uuid, {})[inst_name] = p] *)
Definition store_point (points : points_store) (node_id seg_uuid inst_name : string)
    (p : point) : points_store :=
  let by_segment := match sget points node_id with Some d => d | None => [] end in
  let by_instance := match sget by_segment seg_uuid with Some d => d | None => [] end in
  sset points node_id (sset by_segment seg_uuid (sset by_instance inst_name p)).

Definition lookup_point (points : points_store) (node_id seg_uuid inst_name : string)
  : option point :=
  match sget points node_id with
  | None => None
  | Some by_segment =>
      match sget by_segment seg_uuid with
      | None => None
      | Some by_instance => sget by_instance inst_name
      end
  end.

(** The loop over [enumerate(instances_using_segment, start=1)]; the
    state is [(points_to_pass_through, point_count)]. *)
Fixpoint place_instances (node_id seg_uuid : string)
    (x_node_mm y_node_mm node_radius_mm seg_angle : R) (num_seg_components : nat)
    (idx : nat) (names : list string) (st : points_store * nat)
  : result (points_store * nat) :=
  match names with
  | [] => Ok st
  | inst_name :: rest =>
      p <- bundle_point x_node_mm y_node_mm node_radius_mm seg_angle
             num_seg_components idx ;;
      place_instances node_id seg_uuid x_node_mm y_node_mm node_radius_mm seg_angle
        num_seg_components (S idx) rest
        (store_point (fst st) node_id seg_uuid inst_name p, S (snd st))
  end.

(** The body of the loop over [zip(node_segment_angles, node_segments)]. *)
Definition bundle_segment (instances : list instance) (node_id : string)
    (x_node_mm y_node_mm node_radius_mm : R) (flips : sdict bool)
    (st : points_store * nat) (item : R * string) : result (points_store * nat) :=
  let seg_angle := fst item in
  let seg_uuid := snd item in
  match instances_using_segment instances seg_uuid with
  | [] => Ok st
  | _ :: _ =>
      let ordered := placement_order instances flips seg_uuid in
      place_instances node_id seg_uuid x_node_mm y_node_mm node_radius_mm seg_angle
        (List.length ordered) 1 ordered st
  end.

(** The body of the loop over [graph["nodes"].items()]. *)
Definition bundle_node (g : graph) (instances : list instance)
    (st : points_store * nat) (item : string * node) : result (points_store * nat) :=
  let node_id := fst item in
  let node_coords := snd item in
  let x_node_mm := Q2R (node_x node_coords) * 25.4 in
  let y_node_mm := Q2R (node_y node_coords) * 25.4 in
  scan <- fold_result (scan_segment g node_id node_coords) (segments g) node_scan_init ;;
  let components := components_in_node instances (node_segments scan) in
  if Nat.eqb components 0 then Ok st
  else
    let node_radius_mm := node_radius_inches components * 25.4 in
    fold_result
      (bundle_segment instances node_id x_node_mm y_node_mm node_radius_mm (flip_sort scan))
      (combine (node_segment_angles scan) (node_segments scan)) st.

(** The bundle points of a run: [points_to_pass_through] and
    [point_count], both starting empty. *)
Definition bundle_points (g : graph) (instances : list instance)
  : result (points_store * nat) :=
  fold_result (bundle_node g instances) (nodes g) ([], 0%nat).

(** ** Path chain assembler *)

Record chain_point := { cp_x : R; cp_y : R; cp_tangent : R }.

Definition tangent_ab (node_a_coords node_b_coords : node) : R :=
  let dx := (Q2R (node_x node_b_coords) - Q2R (node_x node_a_coords)) * 25.4 in
  let dy := (Q2R (node_y node_b_coords) - Q2R (node_y node_a_coords)) * 25.4 in
  - math_degrees (math_atan2 dy dx).

Definition tangent_ba (tangent_ab : R) : R :=
  let t := tangent_ab + 180 in
  if Rlt_dec 360 t then t - 360 else t.

(** The point of the chain at one end of a segment; a missing bundle
    point is printed and skipped. *)
Definition chain_at (points : points_store) (node_id seg_uuid inst_name : string)
    (tangent : R) : list chain_point :=
  match lookup_point points node_id seg_uuid inst_name with
  | Some p => [{| cp_x := pt_x p; cp_y := pt_y p; cp_tangent := tangent |}]
  | None => []
  end.

(** The body of the loop over [zip(path_segments, path_directions)]:
    the points it appends to [point_chain]. *)
Definition chain_segment (g : graph) (points : points_store) (inst_name : string)
    (step : string * direction) : result (list chain_point) :=
  let seg_uuid := fst step in
  match sget (segments g) seg_uuid with
  | None => Err (KeyError seg_uuid)
  | Some segment_info =>
      let node_a_id := node_at_end_a segment_info in
      let node_b_id := node_at_end_b segment_info in
      match sget (nodes g) node_a_id with
      | None => Err (KeyError node_a_id)
      | Some node_a_coords =>
          match sget (nodes g) node_b_id with
          | None => Err (KeyError node_b_id)
          | Some node_b_coords =>
              let t_ab := tangent_ab node_a_coords node_b_coords in
              match snd step with
              | a_to_b =>
                  Ok (chain_at points node_a_id seg_uuid inst_name t_ab ++
                      chain_at points node_b_id seg_uuid inst_name t_ab)
              | b_to_a =>
                  let t_ba := tangent_ba t_ab in
                  Ok (chain_at points node_b_id seg_uuid inst_name t_ba ++
                      chain_at points node_a_id seg_uuid inst_name t_ba)
              end
          end
      end
  end.

Fixpoint chain_steps (g : graph) (points : points_store) (inst_name : string)
    (steps : list (string * direction)) : result (list chain_point) :=
  match steps with
  | [] => Ok []
  | step :: rest =>
      here <- chain_segment g points inst_name step ;;
      after <- chain_steps g points inst_name rest ;;
      Ok (here ++ after)
  end.

Definition point_chain (g : graph) (points : points_store) (i : instance)
  : result (list chain_point) :=
  chain_steps g points (instance_name i)
    (combine (path_segments_of i) (path_directions_of i)).
End Bundles.

(** ** Label text *)

(** [str.isspace] for one character (the ASCII white space: tab, line
    feed, vertical tab, form feed, carriage return, the four separators
    and the space). *)
Definition py_isspace (c : ascii) : bool :=
  let n := nat_of_ascii c in
  ((9 <=? n) && (n <=? 13)) || ((28 <=? n) && (n <=? 32)).

Fixpoint py_lstrip (s : string) : string :=
  match s with
  | EmptyString => EmptyString
  | String c s' => if py_isspace c then py_lstrip s' else s
  end.

Definition string_rev (s : string) : string :=
  string_of_list_ascii (rev (list_ascii_of_string s)).

(** [s.strip()] *)
Definition py_strip (s : string) : string :=
  string_rev (py_lstrip (string_rev (py_lstrip s))).

(** [s.replace(old, new)] for a pattern [old] of one character. *)
Fixpoint py_replace (old : ascii) (new : string) (s : string) : string :=
  match s with
  | EmptyString => EmptyString
  | String c s' =>
      if Ascii.eqb c old then (new ++ py_replace old new s')%string
      else String c (py_replace old new s')
  end.

Definition char_amp : ascii := ascii_of_nat 38.
Definition char_lt : ascii := ascii_of_nat 60.
Definition char_gt : ascii := ascii_of_nat 62.
Definition char_quot : ascii := ascii_of_nat 34.
Definition char_apos : ascii := ascii_of_nat 39.

(** The text that [label_svg] puts between [<text ...>] and [</text>];
    [text] is [None] or a string.  First the placeholder for an absent or
    blank text, then the escaping. *)
Definition label_text_str (text : option string) : string :=
  let text_str := match text with Some t => t | None => EmptyString end in
  if negb (py_truthy (py_strip text_str)) then "?"%string else text_str.

Definition text_escaped (text : option string) : string :=
  let text_str := label_text_str text in
  py_replace char_apos "&apos;"
    (py_replace char_quot "&quot;"
       (py_replace char_gt "&gt;"
          (py_replace char_lt "&lt;"
             (py_replace char_amp "&amp;" text_str)))).



Fixpoint string_forallb (f : ascii -> bool) (s : string) : bool :=
  match s with
  | EmptyString => true
  | String c s' => f c && string_forallb f s'
  end.

(** ** Document parser and the start of the run *)

Definition lib_symbols_open : string := "(lib_symbols".

(** A line feed, a tab and a closing parenthesis. *)
Definition lib_symbols_close : string :=
  String (ascii_of_nat 10) (String (ascii_of_nat 9) ")").

(** [re.search(r"\(lib_symbols(.*?)\n\t\)", content, re.DOTALL)], group 1:
    the text between the first opening and the first closing after it. *)
Definition search_lib_symbols (content : string) : option string :=
  match index 0 lib_symbols_open content with
  | None => None
  | Some i =>
      let start := i + String.length lib_symbols_open in
      match index start lib_symbols_close content with
      | None => None
      | Some j => Some (substring start (j - start) content)
      end
  end.

Section Parser.
(** The other scanners of Python's [re] module, with the pattern of each
    call, and [float]: library functions, taken as parameters.  Each
    scanner returns the groups of its matches, in order. *)
Variable finditer_symbols : string -> list (string * string).
Variable finditer_pins : string -> list (string * string * string * string * string).
Variable finditer_instances :
  string -> list (string * string * string * string * string * string).
Variable finditer_wires : string -> list (string * string * string * string * string).
Variable py_float : string -> result R.

Definition parse_pin (pins : sdict raw_pin)
    (m : string * string * string * string * string) : result (sdict raw_pin) :=
  let '(x, y, angle, len, pin_name) := m in
  x <- py_float x ;;
  y <- py_float y ;;
  Ok (sset pins pin_name {| raw_x_loc := x; raw_y_loc := y |}).

Definition parse_symbol (acc : sdict (sdict raw_pin)) (m : string * string)
  : result (sdict (sdict raw_pin)) :=
  let (lib_id, symbol_body) := m in
  let acc := if negb (smem acc lib_id) then sset acc lib_id [] else acc in
  let known := match sget acc lib_id with Some d => d | None => [] end in
  pins <- fold_result parse_pin (finditer_pins symbol_body) known ;;
  Ok (sset acc lib_id pins).

Definition _parse_lib_symbols (content : string) : result (sdict (sdict raw_pin)) :=
  match search_lib_symbols content with
  | None => Ok []
  | Some lib_symbols_section =>
      fold_result parse_symbol (finditer_symbols lib_symbols_section) []
  end.

Definition parse_instance (acc : sdict lib_instance)
    (m : string * string * string * string * string * string)
  : result (sdict lib_instance) :=
  let '(lib_id, x, y, rotate, body, refdes) := m in
  x <- py_float x ;;
  y <- py_float y ;;
  rotate <- py_float rotate ;;
  Ok (sset acc refdes
        {| inst_x := x; inst_y := y; inst_rotate := rotate; inst_lib_id := lib_id |}).

Definition _parse_lib_instances (content : string) : result (sdict lib_instance) :=
  fold_result parse_instance (finditer_instances content) [].

Definition parse_wire (acc : sdict raw_wire)
    (m : string * string * string * string * string) : result (sdict raw_wire) :=
  let '(x1, y1, x2, y2, uuid) := m in
  x1 <- py_float x1 ;;
  y1 <- py_float y1 ;;
  x2 <- py_float x2 ;;
  y2 <- py_float y2 ;;
  Ok (sset acc uuid {| raw_a_x := x1; raw_a_y := y1; raw_b_x := x2; raw_b_y := y2 |}).

Definition _parse_wires (content : string) : result (sdict raw_wire) :=
  fold_result parse_wire (finditer_wires content) [].

(** [KiCadSchematicParser.parse] *)
Definition parse (content : string)
  : result (sdict (sdict raw_pin) * sdict lib_instance * sdict raw_wire) :=
  pin_locations_of_lib_symbols <- _parse_lib_symbols content ;;
  locations_of_lib_instances <- _parse_lib_instances content ;;
  wire_locations <- _parse_wires content ;;
  Ok (pin_locations_of_lib_symbols, locations_of_lib_instances, wire_locations).

Definition msg_schematic_not_found (schematic_path : string) : string :=
  ("Schematic not found. Check your kicad sch exists at this name and location: "
     ++ String (ascii_of_nat 10) schematic_path)%string.

(** The start of the main logic: the files of the machine are a
    dictionary from path to content; the schematic is looked for, then
    read and parsed, then the pins are compiled. *)
Definition load_schematic (files : sdict string) (schematic_path : string)
  : result (sdict (sdict raw_pin) * sdict lib_instance * sdict raw_wire
            * sdict (sdict raw_pin)) :=
  match sget files schematic_path with
  | None => Err (FileNotFoundError (msg_schematic_not_found schematic_path))
  | Some content =>
      parsed <- parse content ;;
      let '(pin_locations_of_lib_symbols, locations_of_lib_instances, wire_locations) :=
        parsed in
      Ok (parsed,
          compile_pin_locations pin_locations_of_lib_symbols locations_of_lib_instances)
  end.
End Parser.

(** ** Vocabulary for the label text *)




(** ** Vocabulary for the order of names *)

Definition str_le (a b : string) : Prop := String.leb a b = true.

(** ** Vocabulary for the breadth-first search *)

Definition seg_hop (sg : segment) (d : direction) (n m : string) : Prop :=
  match d with
  | a_to_b => node_at_end_a sg = n /\ node_at_end_b sg = m
  | b_to_a => node_at_end_b sg = n /\ node_at_end_a sg = m
  end.

Definition endpoints (segs : sdict segment) : list string :=
  flat_map (fun it => [node_at_end_a (snd it); node_at_end_b (snd it)]) segs.

Fixpoint lens_sorted (q : list (string * seg_path)) : Prop :=
  match q with
  | [] => True
  | e :: q' =>
      (forall e', In e' q' -> List.length (snd e) <= List.length (snd e')) /\ lens_sorted q'
  end.

Unset Implicit Arguments.

(** The state of the search from [s] to [t]: [P] holds the entries already
    popped, [C] those of them whose segments have all been looked at, [V] is
    [visited] and [Q] the queue; [mu] is the length of the path of the entry
    being expanded. *)
Record bfs_inv (segs : sdict segment) (s t : string) (mu : nat)
    (C P : list (string * seg_path)) (V : list string) (Q : list (string * seg_path))
  : Prop := {
  inv_walk : forall n p, In (n, p) (P ++ Q) -> walk segs s p n;
  inv_P_le : forall n p, In (n, p) P -> List.length p <= mu;
  inv_Q_rng : forall n p, In (n, p) Q -> mu <= List.length p <= mu + 1;
  inv_sorted : lens_sorted Q;
  inv_V : forall x, In x V <-> In x (map fst (P ++ Q));
  inv_nodup : NoDup (map fst (P ++ Q));
  inv_incl : incl (map fst (P ++ Q)) (s :: endpoints segs);
  inv_closed : forall u pu, In (u, pu) C ->
    forall e v, hop segs u e v -> v <> EmptyString ->
    exists pv, In (v, pv) (P ++ Q) /\ List.length pv <= List.length pu + 1;
  inv_start : In (s, []) (P ++ Q);
  inv_not_t : forall n p, In (n, p) P -> n <> t
}.

Arguments inv_walk {segs s t mu C P V Q}.
Arguments inv_P_le {segs s t mu C P V Q}.
Arguments inv_Q_rng {segs s t mu C P V Q}.
Arguments inv_sorted {segs s t mu C P V Q}.
Arguments inv_V {segs s t mu C P V Q}.
Arguments inv_nodup {segs s t mu C P V Q}.
Arguments inv_incl {segs s t mu C P V Q}.
Arguments inv_closed {segs s t mu C P V Q}.
Arguments inv_start {segs s t mu C P V Q}.
Arguments inv_not_t {segs s t mu C P V Q}.

(** ** Vocabulary for the state of the graph builder *)

(** The pins in the order in which step 1 registers them. *)
Definition flat_pins (pins : sdict (sdict pin_loc)) : list (string * (string * pin_loc)) :=
  flat_map (fun entry => map (fun p => (fst entry, p)) (snd entry)) pins.

Definition add_flat_pin (st : builder) (rp : string * (string * pin_loc)) : builder :=
  add_pin (fst rp) st (snd rp).

Definition l2n_extends (st st' : builder) : Prop :=
  forall k n, dict_get key_eqb (location_to_node st) k = Some n ->
              dict_get key_eqb (location_to_node st') k = Some n.

(** Every registered location names a node of the graph. *)
Definition l2n_in_nodes (st : builder) : Prop :=
  forall k n, dict_get key_eqb (location_to_node st) k = Some n ->
              smem (b_nodes st) n = true /\ n <> EmptyString.

(** Every node is the one registered at its own rounded location. *)
Definition nodes_registered (st : builder) : Prop :=
  forall n nd, sget (b_nodes st) n = Some nd ->
               dict_get key_eqb (location_to_node st) (node_key nd) = Some n.

Definition segs_nonempty (st : builder) : Prop := ids_nonempty (b_segments st).

Definition pins_done (done : list (string * (string * pin_loc))) (st : builder) : Prop :=
  (forall r p c, In (r, (p, c)) done ->
     dict_get key_eqb (location_to_node st) (pin_key c) = Some (pin_node_uuid r p)) /\
  (forall n nd, sget (b_nodes st) n = Some nd ->
     exists r p c, In (r, (p, c)) done /\ n = pin_node_uuid r p /\
                   nd = stored_node (x_loc c) (y_loc c)) /\
  l2n_in_nodes st /\
  b_segments st = [].

Definition flat_apart (l : list (string * (string * pin_loc))) : Prop :=
  forall r1 p1 c1 r2 p2 c2,
    In (r1, (p1, c1)) l -> In (r2, (p2, c2)) l ->
    key_eqb (pin_key c1) (pin_key c2) = true ->
    pin_node_uuid r1 p1 = pin_node_uuid r2 p2.

Definition graph_of (st : builder) : graph :=
  {| nodes := b_nodes st; segments := b_segments st |}.

(** A wire whose two ends are attached to the nodes registered at their
    rounded locations. *)
Definition wire_attached (st : builder) (u : string) (w : wire_loc) : Prop :=
  forall e, exists n,
    node_of_end (graph_of st) u e = Some n /\
    dict_get key_eqb (location_to_node st) (end_key e w) = Some n.

(** ** Vocabulary for the path resolution loop *)

(** [msg] contains [name]. *)
Definition mentions (msg name : string) : Prop :=
  exists a b, msg = (a ++ name ++ b)%string.

(** What keeps one connection from resolving. *)
Definition unresolvable (g : graph) (i : instance) : Prop :=
  smem (nodes g) (from_node_id_of i) = false \/
  smem (nodes g) (to_node_id_of i) = false \/
  ~ (exists p, walk (segments g) (from_node_id_of i) p (to_node_id_of i)).


(** ** Example schematics *)

(** Two pins drawn at the same place, and a wire that leaves from there. *)
Definition ex_pins_shared : sdict (sdict pin_loc) :=
  [("R1"%string, [("1"%string, {| x_loc := 1; y_loc := 1 |})]);
   ("R2"%string, [("1"%string, {| x_loc := 1; y_loc := 1 |})])].

Definition ex_wires_shared : sdict wire_loc :=
  [("w1"%string, {| a_x := 1; a_y := 1; b_x := 2; b_y := 1 |})].

(** Two pins joined by two wires that meet half way. *)
Definition ex_pins_apart : sdict (sdict pin_loc) :=
  [("R1"%string, [("1"%string, {| x_loc := 0; y_loc := 0 |})]);
   ("R2"%string, [("1"%string, {| x_loc := 1; y_loc := 0 |})])].

Definition ex_wires_apart : sdict wire_loc :=
  [("w1"%string, {| a_x := 0; a_y := 0; b_x := 1 # 2; b_y := 0 |});
   ("w2"%string, {| a_x := 1 # 2; a_y := 0; b_x := 1; b_y := 0 |})].

(** Two routes between [A.1] and [B.1], of four segments and of two. *)
Definition ex_two_routes : graph :=
  {| nodes := [("A.1", {| node_x := 0; node_y := 0 |});
               ("B.1", {| node_x := 4; node_y := 0 |});
               ("wirejunction-0", {| node_x := 1; node_y := 1 |});
               ("wirejunction-1", {| node_x := 2; node_y := 1 |});
               ("wirejunction-2", {| node_x := 3; node_y := 1 |});
               ("wirejunction-3", {| node_x := 2; node_y := 0 |})]%string;
     segments :=
       [("long1", {| node_at_end_a := "A.1"; node_at_end_b := "wirejunction-0" |});
        ("long2", {| node_at_end_a := "wirejunction-0"; node_at_end_b := "wirejunction-1" |});
        ("long3", {| node_at_end_a := "wirejunction-2"; node_at_end_b := "wirejunction-1" |});
        ("long4", {| node_at_end_a := "wirejunction-2"; node_at_end_b := "B.1" |});
        ("short1", {| node_at_end_a := "wirejunction-3"; node_at_end_b := "A.1" |});
        ("short2", {| node_at_end_a := "wirejunction-3"; node_at_end_b := "B.1" |})]%string |}.

(** One wire from [A.out1] to [B.in1]. *)
Definition ex_line_a : node := {| node_x := 0; node_y := 0 |}.
Definition ex_line_b : node := {| node_x := 1; node_y := 0 |}.

Definition ex_line : graph :=
  {| nodes := [("A.out1", ex_line_a); ("B.in1", ex_line_b)]%string;
     segments := [("W1", {| node_at_end_a := "A.out1"; node_at_end_b := "B.in1" |})]%string |}.

Definition ex_connection (name from_refdes from_conn to_refdes to_conn : string) : instance :=
  {| instance_name := name;
     parent_instance := None;
     this_net_from_device_refdes := from_refdes;
     this_net_from_device_connector_name := from_conn;
     this_net_to_device_refdes := to_refdes;
     this_net_to_device_connector_name := to_conn;
     graph_path_segments := None;
     graph_path_directions := None;
     total_segments := None |}.

Definition ex_good : instance := ex_connection "cable-1" "A" "out1" "B" "in1".
Definition ex_bad : instance := ex_connection "cable-0" "A" "out1" "C" "in9".

(** Three connections through the one wire of [ex_line]. *)
Definition ex_three : list instance :=
  [store_path (ex_connection "cable-b" "A" "out1" "B" "in1") [("W1"%string, a_to_b)];
   store_path (ex_connection "cable-a" "A" "out1" "B" "in1") [("W1"%string, a_to_b)];
   store_path (ex_connection "cable-c" "A" "out1" "B" "in1") [("W1"%string, a_to_b)]].




(** A symbol with one pin to its right, placed with a quarter turn. *)
Definition ex_libs : sdict (sdict raw_pin) :=
  [("Device:Mic"%string, [("out"%string, {| raw_x_loc := 1%R; raw_y_loc := 0%R |})])].

Definition ex_quarter_turn : lib_instance :=
  {| inst_x := 10%R; inst_y := 20%R; inst_rotate := 90%R; inst_lib_id := "Device:Mic" |}.

Definition ex_instances : sdict lib_instance := [("MIC1"%string, ex_quarter_turn)].

(** A project directory with one schematic, which has neither symbols
    nor wires. *)
Definition ex_files : sdict string :=
  [("kicad/S01-rev1.kicad_sch", "(kicad_sch (version 20231120) (paper A4))")]%string.

(* ================================================================== *)
(** * Part I, continued: the rest of the overlay script                *)
(* ================================================================== *)

(** ** Rounding and scaling of nested coordinates *)

(** The values that [round_and_scale_coordinates] walks through: numbers,
    other leaves (strings stand for all of them) and dictionaries. *)
Inductive py_data : Type :=
| PyNum (v : Q)
| PyStr (s : string)
| PyDict (items : list (string * py_data)).

Definition coordinate_keys : list string :=
  ["x_loc"; "y_loc"; "x"; "y"; "a_x"; "a_y"; "b_x"; "b_y"]%string.

(** The three steps applied to one coordinate. *)
Definition scale_coordinate (value scale_factor : Q) : Q :=
  let rounded_mils := (inject_Z (py_round (value * 10)) / 10)%Q in
  let inches := (rounded_mils * scale_factor)%Q in
  py_round_digits inches OUTPUT_PRECISION.

Section ProcessItems.
(** The recursive call, and the loop over [data.items()] that fills
    [processed]; [None] stands for the [TypeError] of [value * 10] or of
    [round] on a value that is not a number. *)
Variable recurse : py_data -> option py_data.
Variable scale_factor : Q.

Fixpoint process_items (items : list (string * py_data)) (processed : sdict py_data)
  : option (sdict py_data) :=
  match items with
  | [] => Some processed
  | (key, value) :: rest =>
      let r :=
        if str_in key coordinate_keys
        then match value with
             | PyNum v => Some (PyNum (scale_coordinate v scale_factor))
             | _ => None
             end
        else recurse value in
      match r with
      | Some value' => process_items rest (sset processed key value')
      | None => None
      end
  end.
End ProcessItems.

Fixpoint round_and_scale_coordinates (data : py_data) (scale_factor : Q) : option py_data :=
  match data with
  | PyDict items =>
      option_map PyDict
        (process_items (fun value => round_and_scale_coordinates value scale_factor)
           scale_factor items [])
  | _ => Some data
  end.

Definition KICAD_UNIT_SCALE : Q := 10 # 254.

Section CoordsOk.
(** Every number stored under a coordinate key satisfies [P], at every
    depth that the function reaches. *)
Variable P : Q -> Prop.
Variable rec : py_data -> Prop.

Fixpoint items_ok (items : list (string * py_data)) : Prop :=
  match items with
  | [] => True
  | (key, value) :: rest =>
      (if str_in key coordinate_keys
       then match value with PyNum v => P v | _ => False end
       else rec value) /\ items_ok rest
  end.
End CoordsOk.

Fixpoint coords_ok (P : Q -> Prop) (data : py_data) : Prop :=
  match data with
  | PyDict items => items_ok P (coords_ok P) items
  | _ => True
  end.

(** One wire of [wire_locations_scaled], as [build_graph] reads it. *)
Definition wire_of_data (data : py_data) : option wire_loc :=
  match data with
  | PyDict items =>
      match sget items "a_x", sget items "a_y", sget items "b_x", sget items "b_y" with
      | Some (PyNum ax), Some (PyNum ay), Some (PyNum bx), Some (PyNum by_) =>
          Some {| a_x := ax; a_y := ay; b_x := bx; b_y := by_ |}
      | _, _, _, _ => None
      end
  | _ => None
  end.

(** ** Vocabulary for graphs *)

(** Both ends of every segment are nodes of the graph. *)
Definition graph_closed (g : graph) : Prop :=
  forall u sg, In (u, sg) (segments g) ->
    smem (nodes g) (node_at_end_a sg) = true /\ smem (nodes g) (node_at_end_b sg) = true.

(** Both ends of every segment of the builder's state are nodes. *)
Definition segs_in_nodes (st : builder) : Prop :=
  forall u sg, In (u, sg) (b_segments st) ->
    smem (b_nodes st) (node_at_end_a sg) = true /\ smem (b_nodes st) (node_at_end_b sg) = true.

Definition nodes_grow (st st' : builder) : Prop :=
  forall n, smem (b_nodes st) n = true -> smem (b_nodes st') n = true.

Definition char_dot : ascii := ascii_of_nat 46.

(** [s] has no full stop. *)
Definition no_dot (s : string) : bool :=
  string_forallb (fun c => negb (Ascii.eqb c char_dot)) s.

(** The node ids of the builder's state: those of [pin_ids], and the
    junctions numbered below the counter. *)
Definition node_ids (pin_ids : string -> Prop) (st : builder) : Prop :=
  forall n, smem (b_nodes st) n = true <->
            pin_ids n \/ exists k, k < junction_counter st /\ n = junction_uuid k.

Definition is_pin_id (pins : sdict (sdict pin_loc)) (n : string) : Prop :=
  exists r ps p c, In (r, ps) pins /\ In (p, c) ps /\ n = pin_node_uuid r p.

(** What one connection needs to resolve. *)
Definition resolvable (g : graph) (i : instance) : Prop :=
  smem (nodes g) (from_node_id_of i) = true /\
  smem (nodes g) (to_node_id_of i) = true /\
  exists p, walk (segments g) (from_node_id_of i) p (to_node_id_of i).

(** The connection [i] with the path that the resolver stored for it. *)
Definition resolved_from (g : graph) (i i' : instance) : Prop :=
  exists p,
    i' = store_path i p /\
    walk (segments g) (from_node_id_of i) p (to_node_id_of i) /\
    (ids_nonempty (segments g) ->
     forall q, walk (segments g) (from_node_id_of i) q (to_node_id_of i) ->
               List.length p <= List.length q).

(** ** Vocabulary for the bundle points *)

(** A bundle point is stored for the connection at this end of the
    segment. *)
Definition has_point (points : points_store) (node_id seg_uuid inst_name : string) : Prop :=
  exists p, lookup_point points node_id seg_uuid inst_name = Some p.

Definition points_grow (points points' : points_store) : Prop :=
  forall n s i, has_point points n s i -> has_point points' n s i.

(** The segments of the paths of [instances] are segments of the graph. *)
Definition paths_in_graph (g : graph) (instances : list instance) : Prop :=
  forall i s, In i instances -> In s (path_segments_of i) -> smem (segments g) s = true.

(** ** Vocabulary for the parser *)

(** [float] accepts each of the texts. *)
Definition floats_ok (py_float : string -> result R) (texts : list string) : Prop :=
  Forall (fun s => exists v, py_float s = Ok v) texts.

(** The four coordinates of one match of the wire pattern. *)
Definition wire_texts (m : string * string * string * string * string) : list string :=
  let '(x1, y1, x2, y2, uuid) := m in [x1; y1; x2; y2].

Definition wire_match_uuid (m : string * string * string * string * string) : string :=
  let '(x1, y1, x2, y2, uuid) := m in uuid.

(** The reference designator of one match of the instance pattern. *)
Definition instance_match_refdes
    (m : string * string * string * string * string * string) : string :=
  let '(lib_id, x, y, rotate, body, refdes) := m in refdes.



(** ** Wire masks *)

Section WireMasks.
Local Open Scope R_scope.

Definition wire_mask_width_mm : R := 1.

(** The body of the loop over the scaled wires, up to [rotated_corners]:
    the four corners of the polygon that masks one wire. *)
Definition wire_mask_corners (wire_coords : wire_loc) : list (R * R) :=
  let a_x_mm := Q2R (a_x wire_coords) * 25.4 in
  let a_y_mm := Q2R (a_y wire_coords) * 25.4 in
  let b_x_mm := Q2R (b_x wire_coords) * 25.4 in
  let b_y_mm := Q2R (b_y wire_coords) * 25.4 in
  let dx := b_x_mm - a_x_mm in
  let dy := b_y_mm - a_y_mm in
  let length := sqrt (dx * dx + dy * dy) in
  let angle_rad := math_atan2 dy dx in
  let center_x := (a_x_mm + b_x_mm) / 2 in
  let center_y := (a_y_mm + b_y_mm) / 2 in
  let rect_length := length + wire_mask_width_mm in
  let rect_width := wire_mask_width_mm in
  let half_length := rect_length / 2 in
  let half_width := rect_width / 2 in
  let corners :=
    [(- half_length, - half_width); (half_length, - half_width);
     (half_length, half_width); (- half_length, half_width)] in
  let cos_a := cos angle_rad in
  let sin_a := sin angle_rad in
  map (fun c =>
         let rx := fst c * cos_a - snd c * sin_a in
         let ry := fst c * sin_a + snd c * cos_a in
         (center_x + rx, center_y + ry)) corners.
End WireMasks.

(** ** The angle of a label *)

Section LabelAngle.
Local Open Scope R_scope.

(** [a % b] on floats, for a positive [b]. *)
Definition py_fmod (a b : R) : R := a - b * IZR (Int_part (a / b)).

(** The angle by which [label_svg] turns a label (the text is rotated by
    its opposite): the tangent brought into [0, 360), and turned by half a
    turn when the text would be upside down. *)
Definition label_angle (angle : R) : R :=
  let angle := py_fmod angle 360 in
  let angle := if Rlt_dec angle 0 then angle + 360 else angle in
  if Rlt_dec 90 angle
  then if Rlt_dec angle 270 then py_fmod (angle + 180) 360 else angle
  else angle.
End LabelAngle.

(** ** Example documents *)

(** One wire, in the units of the document. *)
Definition ex_wire_data : py_data :=
  PyDict [("w1", PyDict [("a_x", PyNum (254 # 10)); ("a_y", PyNum (50801 # 1000));
                         ("b_x", PyNum (762 # 10)); ("b_y", PyNum (50801 # 1000))])]%string.

(** A [float] that knows two numbers, and two placed symbols with the
    same reference designator. *)
Definition ex_float (s : string) : result R :=
  if String.eqb s "0" then Ok 0%R
  else if String.eqb s "90" then Ok 90%R
  else Err (ValueError "could not convert string to float").

Definition ex_instance_matches
  : list (string * string * string * string * string * string) :=
  [("Device:Mic", "0", "0", "0", "", "MIC1");
   ("Device:Amp", "90", "0", "90", "", "MIC1")]%string.

(* ================================================================== *)
(** * Part II: properties                                              *)
(* ================================================================== *)

Unset Implicit Arguments.

(** ** Strings and lists of strings *)

Lemma str_in_iff (s : string) (l : list string) :
  str_in s l = true <-> In s l.
Proof.
  unfold str_in. rewrite existsb_exists. split.
  - intros [x [Hin Heq]]. apply String.eqb_eq in Heq. now subst.
  - intros Hin. exists s. split; [assumption | apply String.eqb_refl].
Qed.

Lemma str_in_false_iff (s : string) (l : list string) :
  str_in s l = false <-> ~ In s l.
Proof.
  rewrite <- str_in_iff. destruct (str_in s l); split; congruence.
Qed.

Lemma py_truthy_iff (s : string) : py_truthy s = true <-> s <> EmptyString.
Proof.
  unfold py_truthy. rewrite negb_true_iff. apply String.eqb_neq.
Qed.

(** ** The breadth-first search *)

Lemma walk_snoc segs n p k e m :
  walk segs n p k -> hop segs k e m -> walk segs n (p ++ [e]) m.
Proof.
  revert n. induction p as [|e0 p IH]; simpl; intros n Hw Hh.
  - subst. exists m. split; [assumption | reflexivity].
  - destruct Hw as [k0 [Hh0 Hw]]. exists k0. split; [assumption|]. now apply IH.
Qed.

Lemma endpoints_hop segs uuid sg d n m :
  In (uuid, sg) segs -> seg_hop sg d n m -> In m (endpoints segs).
Proof.
  intros Hin Hh. unfold endpoints. apply in_flat_map.
  exists (uuid, sg). split; [assumption|]. simpl.
  destruct d; destruct Hh as [_ Hh]; subst; auto.
Qed.

Lemma endpoints_length segs : List.length (endpoints segs) = 2 * List.length segs.
Proof.
  induction segs as [|it segs IH]; simpl; [reflexivity|]. rewrite IH. lia.
Qed.

Lemma lens_sorted_snoc q e :
  lens_sorted q ->
  (forall e', In e' q -> List.length (snd e') <= List.length (snd e)) ->
  lens_sorted (q ++ [e]).
Proof.
  induction q as [|e0 q IH]; simpl; intros Hs Hle.
  - split; [intros e' []| exact I].
  - destruct Hs as [Hhd Hs]. split.
    + intros e' Hin. apply in_app_or in Hin. destruct Hin as [Hin|[<-|[]]].
      * now apply Hhd.
      * apply Hle. now left.
    + apply IH; [assumption|]. intros e' Hin. apply Hle. now right.
Qed.

Section BFS.
Variable segs : sdict segment.
Variables s t : string.

Lemma bfs_inv_init : bfs_inv segs s t 0 [] [] [s] [(s, [])].
Proof.
  constructor; simpl.
  - intros n p [H|[]]. inversion H; subst. reflexivity.
  - intros n p [].
  - intros n p [H|[]]. inversion H; subst. simpl. lia.
  - split; [intros e' []|exact I].
  - intros x. reflexivity.
  - constructor; [intros []|constructor].
  - intros x [<-|[]]. now left.
  - intros u pu [].
  - now left.
  - intros n p [].
Qed.

(** Pushing a newly reached node keeps the invariant. *)
Lemma bfs_inv_push mu C P V Q u pu uuid sg d v :
  bfs_inv segs s t mu C P V Q ->
  In (u, pu) P -> List.length pu = mu ->
  In (uuid, sg) segs -> seg_hop sg d u v ->
  ~ In v V ->
  bfs_inv segs s t mu C P (v :: V) (Q ++ [(v, pu ++ [(uuid, d)])]).
Proof.
  intros I Hu Hlen Hseg Hhop Hnv.
  assert (Hperm : Permutation ((v, pu ++ [(uuid, d)]) :: (P ++ Q))
                              (P ++ Q ++ [(v, pu ++ [(uuid, d)])])).
  { rewrite app_assoc. apply Permutation_cons_append. }
  constructor.
  - intros n p Hin. rewrite app_assoc in Hin. apply in_app_or in Hin.
    destruct Hin as [Hin|[Hin|[]]].
    + now apply (inv_walk I).
    + inversion Hin; subst n p. apply walk_snoc with (k := u).
      * apply (inv_walk I). apply in_or_app. now left.
      * exists sg. split; assumption.
  - apply (inv_P_le I).
  - intros n p Hin. apply in_app_or in Hin. destruct Hin as [Hin|[Hin|[]]].
    + now apply (inv_Q_rng I n p).
    + inversion Hin; subst n p. rewrite length_app. simpl. lia.
  - apply lens_sorted_snoc; [apply (inv_sorted I)|].
    intros [n p] Hin. simpl. rewrite length_app. simpl.
    pose proof (inv_Q_rng I _ _ Hin). lia.
  - intros x. pose proof (Permutation_map fst Hperm) as Hp. simpl in Hp. split.
    + intros Hin. apply (Permutation_in _ Hp).
      destruct Hin as [<-|Hin]; [now left|right; now apply (inv_V I)].
    + intros Hin. apply (Permutation_in _ (Permutation_sym Hp)) in Hin.
      destruct Hin as [<-|Hin]; [now left|right; now apply (inv_V I)].
  - apply (Permutation_NoDup (Permutation_map fst Hperm)). simpl.
    constructor; [|apply (inv_nodup I)]. now rewrite <- (inv_V I v).
  - intros x Hin. apply (Permutation_in x (Permutation_sym (Permutation_map fst Hperm))) in Hin.
    simpl in Hin. destruct Hin as [<-|Hin].
    + right. eapply endpoints_hop; eassumption.
    + now apply (inv_incl I).
  - intros u0 pu0 Hc e w Hh Hw.
    destruct (inv_closed I _ _ Hc _ _ Hh Hw) as [pv [Hin Hle]].
    exists pv. split; [|assumption].
    apply (Permutation_in _ Hperm). now right.
  - apply (Permutation_in _ Hperm). right. apply (inv_start I).
  - apply (inv_not_t I).
Qed.

(** One segment looked at while expanding [(u, pu)]. *)
Lemma visit_segment_inv mu C P V Q u pu uuid sg V' Q' :
  bfs_inv segs s t mu C P V Q ->
  In (u, pu) P -> List.length pu = mu ->
  In (uuid, sg) segs ->
  visit_segment u pu (V, Q) (uuid, sg) = (V', Q') ->
  bfs_inv segs s t mu C P V' Q' /\ incl V V' /\
  (forall d v, seg_hop sg d u v -> v <> EmptyString -> In v V').
Proof.
  intros I Hu Hlen Hseg Hstep.
  assert (HuV : In u V).
  { apply (inv_V I). apply in_map_iff. exists (u, pu). split; [reflexivity|].
    apply in_or_app. now left. }
  unfold visit_segment in Hstep. simpl in Hstep.
  destruct (String.eqb (node_at_end_a sg) u) eqn:Ea;
    [destruct (str_in (node_at_end_b sg) V) eqn:Vb|]; simpl in Hstep.
  - (* end A is the current node, end B already visited *)
    apply String.eqb_eq in Ea. apply str_in_iff in Vb.
    destruct (String.eqb (node_at_end_b sg) u) eqn:Eb;
      [destruct (str_in (node_at_end_a sg) V) eqn:Va|]; simpl in Hstep.
    + inversion Hstep; subst V' Q'. split; [assumption|]. split; [apply incl_refl|].
      intros [|] v [H1 H2] _; subst; assumption.
    + apply str_in_false_iff in Va. rewrite Ea in Va. contradiction.
    + inversion Hstep; subst V' Q'. split; [assumption|]. split; [apply incl_refl|].
      apply String.eqb_neq in Eb.
      intros [|] v [H1 H2] _; subst; [assumption|contradiction].
  - (* end A is the current node, end B is new *)
    apply String.eqb_eq in Ea. apply str_in_false_iff in Vb.
    destruct (py_truthy (node_at_end_b sg)) eqn:Tb.
    + inversion Hstep; subst V' Q'. split; [|split].
      * eapply bfs_inv_push; try eassumption. simpl. now split.
      * apply incl_tl, incl_refl.
      * intros [|] v [H1 H2] _; subst.
        -- now left.
        -- rewrite <- H1 in HuV. contradiction.
    + inversion Hstep; subst V' Q'. split; [assumption|]. split; [apply incl_refl|].
      assert (Hb : node_at_end_b sg = EmptyString).
      { destruct (String.eqb_spec (node_at_end_b sg) EmptyString); [assumption|].
        apply py_truthy_iff in n. congruence. }
      intros [|] v [H1 H2] Hv; subst.
      -- congruence.
      -- rewrite <- H1 in HuV. contradiction.
  - (* end A is not the current node *)
    apply String.eqb_neq in Ea.
    destruct (String.eqb (node_at_end_b sg) u) eqn:Eb;
      [destruct (str_in (node_at_end_a sg) V) eqn:Va|]; simpl in Hstep.
    + apply str_in_iff in Va.
      inversion Hstep; subst V' Q'. split; [assumption|]. split; [apply incl_refl|].
      intros [|] v [H1 H2] _; subst; [contradiction|assumption].
    + apply String.eqb_eq in Eb. apply str_in_false_iff in Va.
      destruct (py_truthy (node_at_end_a sg)) eqn:Ta.
      * inversion Hstep; subst V' Q'. split; [|split].
        -- eapply bfs_inv_push; try eassumption. simpl. now split.
        -- apply incl_tl, incl_refl.
        -- intros [|] v [H1 H2] _; subst; [contradiction|now left].
      * inversion Hstep; subst V' Q'. split; [assumption|]. split; [apply incl_refl|].
        assert (Ha : node_at_end_a sg = EmptyString).
        { destruct (String.eqb_spec (node_at_end_a sg) EmptyString); [assumption|].
          apply py_truthy_iff in n. congruence. }
        intros [|] v [H1 H2] Hv; subst; [contradiction|congruence].
    + apply String.eqb_neq in Eb.
      inversion Hstep; subst V' Q'. split; [assumption|]. split; [apply incl_refl|].
      intros [|] v [H1 H2] _; subst; contradiction.
Qed.

(** The whole loop over the segments, for the entry [(u, pu)]. *)
Lemma expand_inv mu C P u pu todo :
  forall V Q V' Q',
  bfs_inv segs s t mu C P V Q ->
  In (u, pu) P -> List.length pu = mu ->
  incl todo segs ->
  fold_left (visit_segment u pu) todo (V, Q) = (V', Q') ->
  bfs_inv segs s t mu C P V' Q' /\ incl V V' /\
  (forall uuid sg, In (uuid, sg) todo ->
     forall d v, seg_hop sg d u v -> v <> EmptyString -> In v V').
Proof.
  induction todo as [|[uuid sg] todo IH]; intros V Q V' Q' I Hu Hlen Hincl Hfold;
    cbn [fold_left] in Hfold.
  - inversion Hfold; subst. split; [assumption|]. split; [apply incl_refl|].
    intros ? ? [].
  - destruct (visit_segment u pu (V, Q) (uuid, sg)) as [V1 Q1] eqn:Hstep.
    destruct (visit_segment_inv _ _ _ _ _ _ _ _ _ _ _ I Hu Hlen
                (Hincl _ (or_introl eq_refl)) Hstep) as [I1 [HV1 Hhop1]].
    destruct (IH V1 Q1 V' Q' I1 Hu Hlen
                (fun x Hx => Hincl x (or_intror Hx)) Hfold) as [I2 [HV2 Hhop2]].
    split; [assumption|]. split.
    + intros x Hx. apply HV2, HV1, Hx.
    + intros uuid0 sg0 [Heq|Hin] d v Hh Hv.
      * inversion Heq; subst. apply HV2. eapply Hhop1; eassumption.
      * eapply Hhop2; eassumption.
Qed.

(** Popping the head of the queue. *)
Lemma bfs_inv_pop {mu P V u pu Q} :
  bfs_inv segs s t mu P P V ((u, pu) :: Q) -> u <> t ->
  bfs_inv segs s t (List.length pu) P (P ++ [(u, pu)]) V Q.
Proof.
  intros I Hut.
  assert (Hmu : mu <= List.length pu <= mu + 1).
  { apply (inv_Q_rng I u pu). now left. }
  assert (Heq : (P ++ [(u, pu)]) ++ Q = P ++ (u, pu) :: Q).
  { now rewrite <- app_assoc. }
  constructor; rewrite ?Heq.
  - apply (inv_walk I).
  - intros n p Hin. apply in_app_or in Hin. destruct Hin as [Hin|[Hin|[]]].
    + pose proof (inv_P_le I _ _ Hin). lia.
    + inversion Hin; subst. lia.
  - intros n p Hin. split.
    + apply (proj1 (inv_sorted I) (n, p) Hin).
    + pose proof (inv_Q_rng I n p (or_intror Hin)). lia.
  - apply (proj2 (inv_sorted I)).
  - apply (inv_V I).
  - apply (inv_nodup I).
  - apply (inv_incl I).
  - apply (inv_closed I).
  - apply (inv_start I).
  - intros n p Hin. apply in_app_or in Hin. destruct Hin as [Hin|[Hin|[]]].
    + now apply (inv_not_t I n p).
    + inversion Hin; subst. assumption.
Qed.

(** Once all segments were looked at, the expanded entry is closed. *)
Lemma bfs_inv_close {P V u pu Q} :
  bfs_inv segs s t (List.length pu) P (P ++ [(u, pu)]) V Q ->
  (forall uuid sg, In (uuid, sg) segs ->
     forall d v, seg_hop sg d u v -> v <> EmptyString -> In v V) ->
  bfs_inv segs s t (List.length pu) (P ++ [(u, pu)]) (P ++ [(u, pu)]) V Q.
Proof.
  intros I Hclosed. constructor; try apply I.
  intros u0 pu0 Hin e v Hh Hv.
  apply in_app_or in Hin. destruct Hin as [Hin|[Hin|[]]].
  - eapply (inv_closed I); eassumption.
  - inversion Hin; subst u0 pu0.
    destruct Hh as [sg [Hseg Hsh]].
    pose proof (Hclosed _ _ Hseg _ _ Hsh Hv) as HvV.
    apply (inv_V I) in HvV. apply in_map_iff in HvV.
    destruct HvV as [[v' pv] [Hfst Hpv]]. simpl in Hfst. subst v'.
    exists pv. split; [assumption|].
    apply in_app_or in Hpv. destruct Hpv as [Hpv|Hpv].
    + pose proof (inv_P_le I _ _ Hpv). lia.
    + pose proof (inv_Q_rng I _ _ Hpv). lia.
Qed.

(** Every node at the end of a walk from an entry has been popped, or
    the queue still holds an entry that is not longer than the walk. *)
Lemma bfs_inv_reach {mu P V Q} :
  bfs_inv segs s t mu P P V Q -> ids_nonempty segs ->
  forall q y py x,
    In (y, py) (P ++ Q) -> walk segs y q x ->
    (exists px, In (x, px) P) \/
    (exists n p, In (n, p) Q /\ List.length p <= List.length py + List.length q).
Proof.
  intros I Hne. induction q as [|e q IH]; intros y py x Hin Hw; simpl in Hw.
  - subst x. apply in_app_or in Hin. destruct Hin as [Hin|Hin].
    + left. now exists py.
    + right. exists y, py. split; [assumption|lia].
  - destruct Hw as [k [Hh Hw]].
    apply in_app_or in Hin. destruct Hin as [Hin|Hin].
    + assert (Hk : k <> EmptyString).
      { destruct Hh as [sg [Hseg Hsh]]. destruct (Hne _ _ Hseg) as [Ha Hb].
        destruct (snd e); destruct Hsh as [_ Hsh]; subst k; assumption. }
      destruct (inv_closed I _ _ Hin _ _ Hh Hk) as [pk [Hpk Hle]].
      destruct (IH k pk x Hpk Hw) as [Hl|[n [p [Hnp Hlen]]]].
      * now left.
      * right. exists n, p. split; [assumption|]. simpl. lia.
    + right. exists y, py. split; [assumption|]. simpl. lia.
Qed.

Lemma bfs_inv_size {mu P V Q} :
  bfs_inv segs s t mu P P V Q -> List.length P + List.length Q <= 2 * List.length segs + 1.
Proof.
  intros I.
  pose proof (NoDup_incl_length (inv_nodup I) (inv_incl I)) as H.
  rewrite length_map, length_app in H. simpl in H.
  rewrite endpoints_length in H. lia.
Qed.

(** The search loop: it ends within its budget; a path it returns is a
    walk from [s] to [t], and a shortest one; it reports the absence of a
    path only when there is none. *)
Lemma bfs_loop_spec fuel :
  forall mu P V Q,
  bfs_inv segs s t mu P P V Q ->
  2 * List.length segs + 2 <= List.length P + fuel ->
  match bfs_loop fuel segs t V Q with
  | Found p =>
      walk segs s p t /\
      (ids_nonempty segs -> forall q, walk segs s q t -> List.length p <= List.length q)
  | NoPath => ids_nonempty segs -> forall q, ~ walk segs s q t
  | OutOfFuel => False
  end.
Proof.
  induction fuel as [|fuel IH]; intros mu P V Q I Hfuel.
  - pose proof (bfs_inv_size I). lia.
  - cbn [bfs_loop]. destruct Q as [|[u pu] Q].
    + intros Hne q Hw.
      destruct (bfs_inv_reach I Hne q s [] t (inv_start I) Hw)
        as [[px Hpx]|[n [p [[] _]]]].
      now apply (inv_not_t I _ _ Hpx).
    + destruct (String.eqb_spec u t) as [Heq|Hneq].
      * subst u. split.
        -- apply (inv_walk I). apply in_or_app. right. now left.
        -- intros Hne q Hw.
           destruct (bfs_inv_reach I Hne q s [] t (inv_start I) Hw)
             as [[px Hpx]|[n [p [Hnp Hlen]]]].
           ++ exfalso. now apply (inv_not_t I _ _ Hpx).
           ++ simpl in Hlen. destruct Hnp as [Hnp|Hnp].
              ** inversion Hnp; subst. assumption.
              ** pose proof (proj1 (inv_sorted I) (n, p) Hnp) as Hs. simpl in Hs. lia.
      * destruct (fold_left (visit_segment u pu) segs (V, Q)) as [V' Q'] eqn:Hfold.
        pose proof (bfs_inv_pop I Hneq) as I1.
        assert (Hu : In (u, pu) (P ++ [(u, pu)])).
        { apply in_or_app. right. now left. }
        destruct (expand_inv _ _ _ _ _ _ _ _ _ _ I1 Hu eq_refl (incl_refl segs) Hfold)
          as [I2 [_ Hclosed]].
        pose proof (bfs_inv_close I2 Hclosed) as I3.
        assert (Hf : 2 * List.length segs + 2 <= List.length (P ++ [(u, pu)]) + fuel).
        { rewrite length_app. simpl. lia. }
        exact (IH _ _ _ _ I3 Hf).
Qed.
End BFS.

(** ** The resolver on a graph *)

Lemma find_path_spec (g : graph) (from_node_id to_node_id : string) :
  match find_path g from_node_id to_node_id with
  | Found p =>
      walk (segments g) from_node_id p to_node_id /\
      (ids_nonempty (segments g) ->
       forall q, walk (segments g) from_node_id q to_node_id ->
                 List.length p <= List.length q)
  | NoPath =>
      ids_nonempty (segments g) ->
      forall q, ~ walk (segments g) from_node_id q to_node_id
  | OutOfFuel => False
  end.
Proof.
  unfold find_path.
  apply (bfs_loop_spec (segments g) from_node_id to_node_id
           (bfs_fuel (segments g)) 0 [] [from_node_id] [(from_node_id, [])]).
  - apply bfs_inv_init.
  - unfold bfs_fuel. simpl. lia.
Qed.

(** Two routes of 2 and of 4 segments: the resolver returns the one of 2. *)
Example find_path_two_routes :
  find_path ex_two_routes "A.1" "B.1" =
  Found [("short1"%string, b_to_a); ("short2"%string, a_to_b)].
Proof. vm_compute. reflexivity. Qed.

Example find_path_disconnected :
  find_path {| nodes := nodes ex_two_routes;
               segments := [("long1"%string,
                             {| node_at_end_a := "A.1"; node_at_end_b := "wirejunction-0" |})] |}
            "A.1" "B.1" = NoPath.
Proof. vm_compute. reflexivity. Qed.

(** C4.  On a graph whose segment ends are named, for two connected
    nodes the breadth-first resolver returns a path; this path starts at the
    requested from-node, ends at the requested to-node, and no path between
    the two has fewer segments. *)
Theorem find_path_min_hop (g : graph) (from_node_id to_node_id : string) :
  ids_nonempty (segments g) ->
  (exists q, walk (segments g) from_node_id q to_node_id) ->
  exists p,
    find_path g from_node_id to_node_id = Found p /\
    walk (segments g) from_node_id p to_node_id /\
    forall q, walk (segments g) from_node_id q to_node_id ->
              List.length p <= List.length q.
Proof.
  intros Hne [q0 Hq0].
  pose proof (find_path_spec g from_node_id to_node_id) as H.
  destruct (find_path g from_node_id to_node_id) as [p| |].
  - exists p. destruct H as [Hw Hmin]. split; [reflexivity|]. split; [assumption|].
    now apply Hmin.
  - exfalso. exact (H Hne q0 Hq0).
  - contradiction.
Qed.

Lemma ex_two_routes_ids : ids_nonempty (segments ex_two_routes).
Proof.
  intros u sg H. simpl in H.
  repeat (destruct H as [H|H]; [inversion H; subst; simpl; split; discriminate|]).
  contradiction.
Defined.

Lemma ex_two_routes_walk :
  walk (segments ex_two_routes) "A.1"
    [("long1"%string, a_to_b); ("long2"%string, a_to_b);
     ("long3"%string, b_to_a); ("long4"%string, a_to_b)] "B.1".
Proof.
  simpl.
  exists "wirejunction-0"%string. split.
  { exists {| node_at_end_a := "A.1"; node_at_end_b := "wirejunction-0" |}.
    simpl. split; [tauto|split; reflexivity]. }
  exists "wirejunction-1"%string. split.
  { exists {| node_at_end_a := "wirejunction-0"; node_at_end_b := "wirejunction-1" |}.
    simpl. split; [tauto|split; reflexivity]. }
  exists "wirejunction-2"%string. split.
  { exists {| node_at_end_a := "wirejunction-2"; node_at_end_b := "wirejunction-1" |}.
    simpl. split; [tauto|split; reflexivity]. }
  exists "B.1"%string. split.
  { exists {| node_at_end_a := "wirejunction-2"; node_at_end_b := "B.1" |}.
    simpl. split; [tauto|split; reflexivity]. }
  reflexivity.
Defined.

Lemma find_path_min_hop_witness :
  exists p,
    find_path ex_two_routes "A.1" "B.1" = Found p /\
    walk (segments ex_two_routes) "A.1" p "B.1" /\
    forall q, walk (segments ex_two_routes) "A.1" q "B.1" ->
              List.length p <= List.length q.
Proof.
  apply (find_path_min_hop ex_two_routes "A.1" "B.1").
  - exact ex_two_routes_ids.
  - eexists. exact ex_two_routes_walk.
Defined.


(** ** Dictionaries *)

Section DictFacts.
Context {K V : Type} (eqb : K -> K -> bool).
Hypothesis eqb_refl : forall k, eqb k k = true.
Hypothesis eqb_sym : forall a b, eqb a b = true -> eqb b a = true.
Hypothesis eqb_trans : forall a b c, eqb a b = true -> eqb b c = true -> eqb a c = true.

Lemma dict_get_congr (d : dict K V) k k' :
  eqb k k' = true -> dict_get eqb d k = dict_get eqb d k'.
Proof.
  intros E. induction d as [|[k0 v0] d IH]; simpl; [reflexivity|].
  destruct (eqb k0 k) eqn:E0, (eqb k0 k') eqn:E1; try reflexivity; try assumption.
  - rewrite (eqb_trans _ _ _ E0 E) in E1. discriminate.
  - rewrite (eqb_trans _ _ _ E1 (eqb_sym _ _ E)) in E0. discriminate.
Qed.

Lemma dict_get_set_eq (d : dict K V) k k' v :
  eqb k k' = true -> dict_get eqb (dict_set eqb d k v) k' = Some v.
Proof.
  intros E. induction d as [|[k0 v0] d IH]; simpl.
  - now rewrite E.
  - destruct (eqb k0 k) eqn:E0; simpl.
    + now rewrite (eqb_trans _ _ _ E0 E).
    + destruct (eqb k0 k') eqn:E1; [|assumption].
      rewrite (eqb_trans _ _ _ E1 (eqb_sym _ _ E)) in E0. discriminate.
Qed.

Lemma dict_get_set_neq (d : dict K V) k k' v :
  eqb k k' = false -> dict_get eqb (dict_set eqb d k v) k' = dict_get eqb d k'.
Proof.
  intros E. induction d as [|[k0 v0] d IH]; simpl.
  - now rewrite E.
  - destruct (eqb k0 k) eqn:E0; simpl.
    + destruct (eqb k0 k') eqn:E1; [|reflexivity].
      rewrite (eqb_trans _ _ _ (eqb_sym _ _ E0) E1) in E. discriminate.
    + destruct (eqb k0 k'); [reflexivity|assumption].
Qed.

Lemma dict_get_set (d : dict K V) k k' v :
  dict_get eqb (dict_set eqb d k v) k' =
  if eqb k k' then Some v else dict_get eqb d k'.
Proof.
  destruct (eqb k k') eqn:E.
  - now apply dict_get_set_eq.
  - now apply dict_get_set_neq.
Qed.

Lemma dict_set_In (d : dict K V) k v k' v' :
  In (k', v') (dict_set eqb d k v) -> In (k', v') d \/ v' = v.
Proof.
  induction d as [|[k0 v0] d IH]; simpl.
  - intros [H|[]]. inversion H. now right.
  - destruct (eqb k0 k); simpl.
    + intros [H|H]; [inversion H; now right|left; now right].
    + intros [H|H]; [left; now left|].
      destruct (IH H) as [H'|H']; [left; now right|now right].
Qed.

End DictFacts.

Lemma key_eqb_refl k : key_eqb k k = true.
Proof.
  unfold key_eqb. apply andb_true_intro. split; apply Qeq_bool_iff; reflexivity.
Qed.

Lemma key_eqb_sym a b : key_eqb a b = true -> key_eqb b a = true.
Proof.
  unfold key_eqb. intros H. apply andb_prop in H. destruct H as [H1 H2].
  apply Qeq_bool_iff in H1, H2.
  apply andb_true_intro. split; apply Qeq_bool_iff; now symmetry.
Qed.

Lemma key_eqb_trans a b c : key_eqb a b = true -> key_eqb b c = true -> key_eqb a c = true.
Proof.
  unfold key_eqb. intros H H'. apply andb_prop in H, H'.
  destruct H as [H1 H2], H' as [H3 H4].
  apply Qeq_bool_iff in H1, H2, H3, H4.
  apply andb_true_intro. split; apply Qeq_bool_iff; etransitivity; eassumption.
Qed.

Lemma str_eqb_sym a b : String.eqb a b = true -> String.eqb b a = true.
Proof. intros H. apply String.eqb_eq in H. subst. apply String.eqb_refl. Qed.

Lemma str_eqb_trans a b c :
  String.eqb a b = true -> String.eqb b c = true -> String.eqb a c = true.
Proof. intros H H'. apply String.eqb_eq in H, H'. subst. apply String.eqb_refl. Qed.

Lemma kget_congr (d : dict (Q * Q) string) k k' :
  key_eqb k k' = true -> dict_get key_eqb d k = dict_get key_eqb d k'.
Proof. apply dict_get_congr; [apply key_eqb_sym|apply key_eqb_trans]. Qed.

Lemma kget_set (d : dict (Q * Q) string) k k' v :
  dict_get key_eqb (dict_set key_eqb d k v) k' =
  if key_eqb k k' then Some v else dict_get key_eqb d k'.
Proof. apply dict_get_set; [apply key_eqb_sym|apply key_eqb_trans]. Qed.

Lemma sget_sset {V} (d : sdict V) k k' v :
  sget (sset d k v) k' = if String.eqb k k' then Some v else sget d k'.
Proof. apply dict_get_set; [apply str_eqb_sym|apply str_eqb_trans]. Qed.

Lemma smem_sset {V} (d : sdict V) k k' v :
  smem d k' = true -> smem (sset d k v) k' = true.
Proof.
  unfold smem, dict_mem. fold (sget d k'). fold (sget (sset d k v) k').
  rewrite sget_sset. destruct (String.eqb k k'); [reflexivity|trivial].
Qed.

Lemma smem_sset_same {V} (d : sdict V) k v : smem (sset d k v) k = true.
Proof.
  unfold smem, dict_mem. fold (sget (sset d k v) k).
  rewrite sget_sset, String.eqb_refl. reflexivity.
Qed.

(** ** Rounding respects the value of a rational *)

Example py_round_ties :
  py_round (5 # 2) = 2%Z /\ py_round (7 # 2) = 4%Z /\
  py_round (-5 # 2) = (-2)%Z /\ py_round (26 # 10) = 3%Z.
Proof. repeat split; vm_compute; reflexivity. Qed.

Example round_coord_tolerance :
  (round_coord (1234567 # 1000000) == 123 # 100)%Q /\
  key_eqb (location_key (1234567 # 1000000) 0) (location_key (1230001 # 1000000) 0) = true /\
  key_eqb (location_key (1234567 # 1000000) 0) (location_key (1236000 # 1000000) 0) = false.
Proof. repeat split; vm_compute; reflexivity. Qed.

Lemma py_round_comp (q q' : Q) : (q == q')%Q -> py_round q = py_round q'.
Proof.
  intros E. unfold py_round.
  rewrite (Qfloor_comp _ _ E).
  assert (Ec : ((q - inject_Z (Qfloor q') ?= 1 # 2) = (q' - inject_Z (Qfloor q') ?= 1 # 2))%Q).
  { apply Qcompare_comp; [now rewrite E|reflexivity]. }
  now rewrite Ec.
Qed.

Lemma round_coord_comp (q q' : Q) : (q == q')%Q -> round_coord q = round_coord q'.
Proof.
  intros E. unfold round_coord.
  rewrite (py_round_comp (q / TOLERANCE) (q' / TOLERANCE)); [reflexivity|].
  now rewrite E.
Qed.

Lemma stored_node_key x y :
  at_precision x -> at_precision y ->
  node_key (stored_node x y) = location_key x y.
Proof.
  intros Hx Hy. unfold node_key, stored_node, location_key. simpl.
  now rewrite (round_coord_comp _ _ Hx), (round_coord_comp _ _ Hy).
Qed.

(** ** The graph builder *)

Lemma fold_add_pins pins st :
  fold_left add_pins pins st = fold_left add_flat_pin (flat_pins pins) st.
Proof.
  revert st. induction pins as [|[r ps] pins IH]; intros st; simpl; [reflexivity|].
  rewrite fold_left_app, <- IH. f_equal.
  unfold add_pins. simpl. clear IH. revert st.
  induction ps as [|p ps IHp]; intros st; simpl; [reflexivity|]. apply IHp.
Qed.

Lemma in_flat_pins pins r p c :
  In (r, (p, c)) (flat_pins pins) <-> exists ps, In (r, ps) pins /\ In (p, c) ps.
Proof.
  unfold flat_pins. rewrite in_flat_map. split.
  - intros [[r0 ps] [Hin Hm]]. simpl in Hm. apply in_map_iff in Hm.
    destruct Hm as [[p0 c0] [Heq Hp]]. inversion Heq; subst. now exists ps.
  - intros [ps [Hin Hp]]. exists (r, ps). split; [assumption|]. simpl.
    apply in_map_iff. now exists (p, c).
Qed.

Lemma pins_apart_flat pins : pins_apart pins -> flat_apart (flat_pins pins).
Proof.
  intros H r1 p1 c1 r2 p2 c2 H1 H2 E.
  apply in_flat_pins in H1, H2. destruct H1 as [ps1 [A1 B1]], H2 as [ps2 [A2 B2]].
  eapply H; eassumption.
Qed.

Lemma pin_node_uuid_nonempty r p : pin_node_uuid r p <> EmptyString.
Proof.
  unfold pin_node_uuid. destruct r; simpl; discriminate.
Qed.

Lemma junction_uuid_nonempty n : junction_uuid n <> EmptyString.
Proof. unfold junction_uuid. simpl. discriminate. Qed.

Lemma pins_done_init : pins_done [] builder_init.
Proof.
  repeat split; simpl; try discriminate; try contradiction.
Qed.

Lemma pins_done_step done st r p c :
  pins_done done st ->
  flat_apart (done ++ [(r, (p, c))]) ->
  pins_done (done ++ [(r, (p, c))]) (add_flat_pin st (r, (p, c))).
Proof.
  intros [Ha [Hb [Hc Hd]]] Hap. unfold add_flat_pin, add_pin. simpl.
  split; [|split; [|split]]; simpl.
  - intros r' p' c' Hin. rewrite kget_set.
    destruct (key_eqb (location_key (x_loc c) (y_loc c)) (pin_key c')) eqn:E.
    + f_equal. apply (Hap r p c r' p' c'); [apply in_or_app; right; now left|assumption|exact E].
    + apply in_app_or in Hin. destruct Hin as [Hin|[Hin|[]]].
      * now apply Ha.
      * inversion Hin; subst. unfold pin_key in E. rewrite key_eqb_refl in E. discriminate.
  - intros n nd. rewrite sget_sset.
    destruct (String.eqb_spec (pin_node_uuid r p) n) as [<-|Hn].
    + intros H. inversion H; subst. exists r, p, c.
      split; [apply in_or_app; right; now left|split; reflexivity].
    + intros H. destruct (Hb _ _ H) as [r' [p' [c' [Hin [E1 E2]]]]].
      exists r', p', c'. split; [apply in_or_app; now left|split; assumption].
  - intros k n H. simpl in H. rewrite kget_set in H. simpl.
    destruct (key_eqb (location_key (x_loc c) (y_loc c)) k).
    + inversion H; subst. split; [apply smem_sset_same|apply pin_node_uuid_nonempty].
    + destruct (Hc k n H). split; [now apply smem_sset|assumption].
  - assumption.
Qed.

Lemma pins_done_fold todo :
  forall done st,
    pins_done done st -> flat_apart (done ++ todo) ->
    pins_done (done ++ todo) (fold_left add_flat_pin todo st).
Proof.
  induction todo as [|[r [p c]] todo IH]; intros done st Hd Hap; simpl.
  - now rewrite app_nil_r.
  - replace (done ++ (r, (p, c)) :: todo) with ((done ++ [(r, (p, c))]) ++ todo)
      in * by now rewrite <- app_assoc.
    apply IH; [|assumption].
    apply pins_done_step; [assumption|].
    intros r1 p1 c1 r2 p2 c2 H1 H2. apply Hap; apply in_or_app; now left.
Qed.

(** Without any assumption on the pins, step 1 still leaves every
    registered location pointing to a node. *)
Lemma pins_l2n_in_nodes todo :
  forall st, l2n_in_nodes st -> b_segments st = [] ->
    l2n_in_nodes (fold_left add_flat_pin todo st) /\
    b_segments (fold_left add_flat_pin todo st) = [].
Proof.
  induction todo as [|[r [p c]] todo IH]; intros st Hc Hs; simpl; [now split|].
  apply IH; [|assumption].
  intros k n H. unfold add_flat_pin, add_pin in *. simpl in *.
  rewrite kget_set in H.
  destruct (key_eqb (location_key (x_loc c) (y_loc c)) k).
  - inversion H; subst. split; [apply smem_sset_same|apply pin_node_uuid_nonempty].
  - destruct (Hc k n H). split; [now apply smem_sset|assumption].
Qed.

Lemma l2n_extends_refl st : l2n_extends st st.
Proof. intros k n H. exact H. Qed.

Lemma l2n_extends_trans st1 st2 st3 :
  l2n_extends st1 st2 -> l2n_extends st2 st3 -> l2n_extends st1 st3.
Proof. intros H1 H2 k n H. apply H2, H1, H. Qed.

Lemma node_for_end_spec st x y st' n :
  node_for_end st x y = (st', n) ->
  dict_get key_eqb (location_to_node st') (location_key x y) = Some n /\
  l2n_extends st st' /\
  b_segments st' = b_segments st /\
  (l2n_in_nodes st -> l2n_in_nodes st') /\
  (at_precision x -> at_precision y -> nodes_registered st -> nodes_registered st').
Proof.
  unfold node_for_end.
  destruct (dict_get key_eqb (location_to_node st) (location_key x y)) as [m|] eqn:G;
    intros H; inversion H; subst; clear H.
  - split; [assumption|split; [apply l2n_extends_refl|split; [reflexivity|split; auto]]].
  - simpl. split; [|split; [|split; [|split]]].
    + rewrite kget_set, key_eqb_refl. reflexivity.
    + intros k n H. simpl. rewrite kget_set.
      destruct (key_eqb (location_key x y) k) eqn:E; [|assumption].
      rewrite (kget_congr _ _ _ E) in G. congruence.
    + reflexivity.
    + intros Hin k n H. simpl in *. rewrite kget_set in H.
      destruct (key_eqb (location_key x y) k).
      * inversion H; subst. split; [apply smem_sset_same|apply junction_uuid_nonempty].
      * destruct (Hin k n H). split; [now apply smem_sset|assumption].
    + intros Hx Hy Hreg n nd H. simpl in *. rewrite sget_sset in H. rewrite kget_set.
      destruct (String.eqb_spec (junction_uuid (junction_counter st)) n) as [<-|Hn].
      * inversion H; subst. rewrite (stored_node_key _ _ Hx Hy), key_eqb_refl. reflexivity.
      * pose proof (Hreg _ _ H) as Hr.
        destruct (key_eqb (location_key x y) (node_key nd)) eqn:E; [|assumption].
        rewrite (kget_congr _ _ _ E) in G. congruence.
Qed.

Lemma add_wire_spec st u w :
  let st' := add_wire st (u, w) in
  wire_attached st' u w /\
  (forall u', u' <> u -> sget (b_segments st') u' = sget (b_segments st) u') /\
  l2n_extends st st' /\
  (l2n_in_nodes st -> l2n_in_nodes st') /\
  (l2n_in_nodes st -> segs_nonempty st -> segs_nonempty st') /\
  (at_precision (a_x w) -> at_precision (a_y w) ->
   at_precision (b_x w) -> at_precision (b_y w) ->
   nodes_registered st -> nodes_registered st').
Proof.
  unfold add_wire. simpl.
  destruct (node_for_end st (a_x w) (a_y w)) as [st1 na] eqn:Ea.
  destruct (node_for_end st1 (b_x w) (b_y w)) as [st2 nb] eqn:Eb.
  destruct (node_for_end_spec _ _ _ _ _ Ea) as [Ga [Xa [Sa [Ia Ra]]]].
  destruct (node_for_end_spec _ _ _ _ _ Eb) as [Gb [Xb [Sb [Ib Rb]]]].
  simpl. split; [|split; [|split; [|split; [|split]]]].
  - intros e. unfold node_of_end, graph_of. simpl.
    rewrite sget_sset, String.eqb_refl. destruct e; simpl.
    + exists na. split; [reflexivity|]. now apply Xb.
    + exists nb. split; [reflexivity|assumption].
  - intros u' Hu. rewrite sget_sset.
    destruct (String.eqb_spec u u'); [congruence|]. now rewrite Sb, Sa.
  - intros k n H. simpl. now apply Xb, Xa.
  - intros Hin k n H. simpl in *. exact (Ib (Ia Hin) k n H).
  - intros Hin Hne u' s' H. unfold segs_nonempty, ids_nonempty in *. simpl in H.
    apply dict_set_In in H. destruct H as [H|H].
    + rewrite Sb, Sa in H. now apply (Hne u' s').
    + subst s'. simpl. split.
      * exact (proj2 (Ib (Ia Hin) _ _ (Xb _ _ Ga))).
      * exact (proj2 (Ib (Ia Hin) _ _ Gb)).
  - intros P1 P2 P3 P4 Hreg n nd H. simpl in *.
    exact (Rb P3 P4 (Ra P1 P2 Hreg) n nd H).
Qed.

Lemma add_wires_spec wires :
  forall st, NoDup (dict_keys wires) ->
    let st' := fold_left add_wire wires st in
    (forall u w, In (u, w) wires -> wire_attached st' u w) /\
    (forall u', ~ In u' (dict_keys wires) ->
       sget (b_segments st') u' = sget (b_segments st) u') /\
    l2n_extends st st'.
Proof.
  induction wires as [|[u w] wires IH]; intros st Hnd; simpl.
  - split; [intros ? ? []|]. split; [reflexivity|apply l2n_extends_refl].
  - simpl in Hnd. inversion Hnd as [|? ? Hnotin Hnd']; subst.
    destruct (add_wire_spec st u w) as [Hatt [Hother [Hext _]]].
    destruct (IH (add_wire st (u, w)) Hnd') as [IH1 [IH2 IH3]].
    split; [|split].
    + intros u0 w0 [Heq|Hin]; [|now apply IH1].
      inversion Heq; subst u0 w0. intros e.
      destruct (Hatt e) as [n [Hn Hk]]. exists n. split.
      * unfold node_of_end, graph_of in *. simpl in *. now rewrite (IH2 u Hnotin).
      * now apply IH3.
    + intros u' Hu'. rewrite IH2; [apply Hother|]; intro; apply Hu'; [left; congruence|now right].
    + eapply l2n_extends_trans; eassumption.
Qed.

Lemma add_wires_inv wires :
  forall st,
    l2n_in_nodes st -> segs_nonempty st ->
    l2n_in_nodes (fold_left add_wire wires st) /\
    segs_nonempty (fold_left add_wire wires st).
Proof.
  induction wires as [|[u w] wires IH]; intros st Hin Hne; simpl; [now split|].
  destruct (add_wire_spec st u w) as [_ [_ [_ [Hi [Hs _]]]]].
  apply IH; auto.
Qed.

Lemma add_wires_registered wires :
  forall st,
    (forall u w, In (u, w) wires ->
       at_precision (a_x w) /\ at_precision (a_y w) /\
       at_precision (b_x w) /\ at_precision (b_y w)) ->
    nodes_registered st ->
    nodes_registered (fold_left add_wire wires st).
Proof.
  induction wires as [|[u w] wires IH]; intros st Hp Hreg; simpl; [assumption|].
  destruct (add_wire_spec st u w) as [_ [_ [_ [_ [_ Hr]]]]].
  destruct (Hp u w (or_introl eq_refl)) as [P1 [P2 [P3 P4]]].
  apply IH; [intros u0 w0 H0; apply (Hp u0 w0); now right|]. now apply Hr.
Qed.

Lemma pins_state_ok pins :
  let st0 := fold_left add_pins pins builder_init in
  l2n_in_nodes st0 /\ segs_nonempty st0.
Proof.
  simpl. rewrite fold_add_pins.
  destruct (pins_l2n_in_nodes (flat_pins pins) builder_init) as [H1 H2].
  - intros k n H. discriminate H.
  - reflexivity.
  - split; [assumption|]. unfold segs_nonempty, ids_nonempty. rewrite H2. intros ? ? [].
Qed.

Lemma pins_state_apart pins :
  pins_apart pins ->
  pins_done (flat_pins pins) (fold_left add_pins pins builder_init).
Proof.
  intros Hap. rewrite fold_add_pins.
  apply (pins_done_fold (flat_pins pins) [] builder_init pins_done_init).
  simpl. now apply pins_apart_flat.
Qed.

Lemma pins_state_registered pins :
  pins_apart pins ->
  (forall r ps p c, In (r, ps) pins -> In (p, c) ps ->
     at_precision (x_loc c) /\ at_precision (y_loc c)) ->
  nodes_registered (fold_left add_pins pins builder_init).
Proof.
  intros Hap Hp n nd H.
  destruct (pins_state_apart pins Hap) as [Ha [Hb _]].
  destruct (Hb _ _ H) as [r [p [c [Hin [En End]]]]]. subst n nd.
  pose proof Hin as Hin'. apply in_flat_pins in Hin'. destruct Hin' as [ps [H1 H2]].
  destruct (Hp _ _ _ _ H1 H2) as [Px Py].
  rewrite (stored_node_key _ _ Px Py). now apply Ha.
Qed.

(** The ends of the segments of a built graph are never the empty
    string. *)
Lemma build_graph_ids_nonempty pins wires :
  ids_nonempty (segments (build_graph pins wires)).
Proof.
  unfold build_graph, build_state. simpl.
  destruct (pins_state_ok pins) as [H1 H2].
  apply (add_wires_inv wires _ H1 H2).
Qed.

Example build_graph_apart_value :
  build_graph ex_pins_apart ex_wires_apart =
  {| nodes := [("R1.1"%string, {| node_x := 0 # 100000; node_y := 0 # 100000 |});
               ("R2.1"%string, {| node_x := 100000 # 100000; node_y := 0 # 100000 |});
               ("wirejunction-0"%string, {| node_x := 50000 # 100000; node_y := 0 # 100000 |})];
     segments := [("w1"%string, {| node_at_end_a := "R1.1"; node_at_end_b := "wirejunction-0" |});
                  ("w2"%string, {| node_at_end_a := "wirejunction-0"; node_at_end_b := "R2.1" |})] |}.
Proof. vm_compute. reflexivity. Qed.

(** C2, as stated, fails: two pins drawn at the same place are two
    distinct nodes at the same rounded location, and a wire that ends
    there is attached to only one of them. *)
Lemma build_graph_coincident_pins_distinct :
  let g := build_graph ex_pins_shared ex_wires_shared in
  ~ (forall n1 nd1 n2 nd2,
       sget (nodes g) n1 = Some nd1 -> sget (nodes g) n2 = Some nd2 ->
       key_eqb (node_key nd1) (node_key nd2) = true -> n1 = n2) /\
  key_eqb (pin_key {| x_loc := 1; y_loc := 1 |})
          (end_key end_a {| a_x := 1; a_y := 1; b_x := 2; b_y := 1 |}) = true /\
  node_of_end g "w1" end_a <> Some (pin_node_uuid "R1" "1").
Proof.
  split; [|split].
  - intros H.
    specialize (H "R1.1"%string {| node_x := 100000 # 100000; node_y := 100000 # 100000 |}
                  "R2.1"%string {| node_x := 100000 # 100000; node_y := 100000 # 100000 |}).
    assert (E : "R1.1"%string = "R2.1"%string) by (apply H; vm_compute; reflexivity).
    discriminate E.
  - vm_compute. reflexivity.
  - vm_compute. discriminate.
Qed.

(** C2 (amended).  Two wire ends that are equal after rounding are attached
    to the same node, and every wire end to exactly one node of the graph.
    When no two different pins round to the same location, a wire end that
    rounds to the location of a pin is attached to that pin, and, the
    coordinates being at the output precision, no two distinct nodes occupy
    the same rounded location. *)
Theorem build_graph_shared_nodes pins wires :
  NoDup (dict_keys wires) ->
  let g := build_graph pins wires in
  (forall u1 w1 e1 u2 w2 e2,
     In (u1, w1) wires -> In (u2, w2) wires ->
     key_eqb (end_key e1 w1) (end_key e2 w2) = true ->
     exists n, node_of_end g u1 e1 = Some n /\ node_of_end g u2 e2 = Some n /\
               smem (nodes g) n = true) /\
  (pins_apart pins ->
     (forall r ps p c u w e,
        In (r, ps) pins -> In (p, c) ps -> In (u, w) wires ->
        key_eqb (pin_key c) (end_key e w) = true ->
        node_of_end g u e = Some (pin_node_uuid r p)) /\
     (inputs_at_precision pins wires ->
      forall n1 nd1 n2 nd2,
        sget (nodes g) n1 = Some nd1 -> sget (nodes g) n2 = Some nd2 ->
        key_eqb (node_key nd1) (node_key nd2) = true -> n1 = n2)).
Proof.
  intros Hnd g.
  set (st0 := fold_left add_pins pins builder_init).
  assert (Hg : g = graph_of (fold_left add_wire wires st0)) by reflexivity.
  destruct (add_wires_spec wires st0 Hnd) as [Hatt [_ Hext]].
  destruct (pins_state_ok pins) as [Hin0 Hne0]. fold st0 in Hin0, Hne0.
  destruct (add_wires_inv wires st0 Hin0 Hne0) as [Hinf _].
  split.
  - intros u1 w1 e1 u2 w2 e2 H1 H2 E.
    destruct (Hatt _ _ H1 e1) as [n1 [A1 B1]].
    destruct (Hatt _ _ H2 e2) as [n2 [A2 B2]].
    rewrite (kget_congr _ _ _ E) in B1. rewrite B1 in B2. inversion B2; subst n2.
    exists n1. rewrite Hg. split; [assumption|]. split; [assumption|].
    apply (Hinf _ _ B1).
  - intros Hap. split.
    + intros r ps p c u w e H1 H2 H3 E.
      destruct (pins_state_apart pins Hap) as [Ha _]. fold st0 in Ha.
      assert (Hfl : In (r, (p, c)) (flat_pins pins)) by (apply in_flat_pins; now exists ps).
      pose proof (Hext _ _ (Ha _ _ _ Hfl)) as Hk.
      destruct (Hatt _ _ H3 e) as [n [A B]].
      rewrite (kget_congr _ _ _ E) in Hk. rewrite Hk in B. inversion B; subst n.
      now rewrite Hg.
    + intros [Hp1 Hp2] n1 nd1 n2 nd2 G1 G2 E.
      pose proof (pins_state_registered pins Hap Hp1) as Hreg0. fold st0 in Hreg0.
      pose proof (add_wires_registered wires st0 Hp2 Hreg0) as Hreg.
      rewrite Hg in G1, G2. simpl in G1, G2.
      pose proof (Hreg _ _ G1) as R1. pose proof (Hreg _ _ G2) as R2.
      rewrite (kget_congr _ _ _ E) in R1. congruence.
Qed.

Lemma ex_wires_apart_nodup : NoDup (dict_keys ex_wires_apart).
Proof.
  simpl. constructor.
  - intros [H|[]]. discriminate H.
  - constructor; [intros []|constructor].
Defined.

Lemma ex_pins_apart_ok : pins_apart ex_pins_apart.
Proof.
  intros r1 ps1 p1 c1 r2 ps2 p2 c2 H1 H2 H3 H4 E.
  simpl in H1, H3.
  destruct H1 as [H1|[H1|[]]]; inversion H1; subst r1 ps1; clear H1;
  destruct H3 as [H3|[H3|[]]]; inversion H3; subst r2 ps2; clear H3;
  destruct H2 as [H2|[]]; inversion H2; subst p1 c1; clear H2;
  destruct H4 as [H4|[]]; inversion H4; subst p2 c2; clear H4;
  first [reflexivity | vm_compute in E; discriminate E].
Defined.

Lemma ex_apart_at_precision : inputs_at_precision ex_pins_apart ex_wires_apart.
Proof.
  split.
  - intros r ps p c H1 H2. simpl in H1.
    destruct H1 as [H1|[H1|[]]]; inversion H1; subst r ps; clear H1;
    destruct H2 as [H2|[]]; inversion H2; subst p c; clear H2;
    split; vm_compute; reflexivity.
  - intros u w H. simpl in H.
    destruct H as [H|[H|[]]]; inversion H; subst u w; clear H;
    repeat split; vm_compute; reflexivity.
Defined.

Lemma build_graph_shared_nodes_witness :
  let g := build_graph ex_pins_apart ex_wires_apart in
  NoDup (dict_keys ex_wires_apart) /\
  (exists n, node_of_end g "w1" end_b = Some n /\ node_of_end g "w2" end_a = Some n /\
             smem (nodes g) n = true) /\
  node_of_end g "w1" end_a = Some (pin_node_uuid "R1" "1") /\
  (forall n1 nd1 n2 nd2,
     sget (nodes g) n1 = Some nd1 -> sget (nodes g) n2 = Some nd2 ->
     key_eqb (node_key nd1) (node_key nd2) = true -> n1 = n2).
Proof.
  intros g.
  destruct (build_graph_shared_nodes ex_pins_apart ex_wires_apart ex_wires_apart_nodup)
    as [Hww Hpins].
  destruct (Hpins ex_pins_apart_ok) as [Hpw Huniq].
  split; [exact ex_wires_apart_nodup|]. split; [|split].
  - apply (Hww "w1"%string {| a_x := 0; a_y := 0; b_x := 1 # 2; b_y := 0 |} end_b
               "w2"%string {| a_x := 1 # 2; a_y := 0; b_x := 1; b_y := 0 |} end_a).
    + simpl. left. reflexivity.
    + simpl. right. left. reflexivity.
    + vm_compute. reflexivity.
  - apply (Hpw "R1"%string [("1"%string, {| x_loc := 0; y_loc := 0 |})] "1"%string
               {| x_loc := 0; y_loc := 0 |}
               "w1"%string {| a_x := 0; a_y := 0; b_x := 1 # 2; b_y := 0 |} end_a).
    + simpl. left. reflexivity.
    + simpl. left. reflexivity.
    + simpl. left. reflexivity.
    + vm_compute. reflexivity.
  - exact (Huniq ex_apart_at_precision).
Defined.


(** ** The path resolution loop *)

(** On every graph that the builder produces the resolver finds a
    shortest path between two connected nodes. *)
Lemma find_path_on_built_graph pins wires from_node_id to_node_id :
  let g := build_graph pins wires in
  (exists q, walk (segments g) from_node_id q to_node_id) ->
  exists p,
    find_path g from_node_id to_node_id = Found p /\
    walk (segments g) from_node_id p to_node_id /\
    forall q, walk (segments g) from_node_id q to_node_id ->
              List.length p <= List.length q.
Proof.
  intros g [q0 Hq0].
  pose proof (build_graph_ids_nonempty pins wires) as Hne. fold g in Hne.
  pose proof (find_path_spec g from_node_id to_node_id) as H.
  destruct (find_path g from_node_id to_node_id) as [p| |].
  - exists p. destruct H as [Hw Hmin]. split; [reflexivity|]. split; [assumption|].
    now apply Hmin.
  - exfalso. exact (H Hne q0 Hq0).
  - contradiction.
Qed.

Lemma append_assoc (a b c : string) : ((a ++ b) ++ c = a ++ (b ++ c))%string.
Proof. induction a as [|ch a IH]; simpl; [reflexivity|now rewrite IH]. Qed.

Lemma append_nil_r (a : string) : (a ++ EmptyString = a)%string.
Proof. induction a as [|ch a IH]; simpl; [reflexivity|now rewrite IH]. Qed.

Lemma msg_from_not_found_mentions i : mentions (msg_from_not_found i) (instance_name i).
Proof.
  exists ("From node '" ++ from_node_id_of i ++ "' not found in graph for ")%string, EmptyString.
  unfold msg_from_not_found. now rewrite append_nil_r, !append_assoc.
Qed.

Lemma msg_to_not_found_mentions i : mentions (msg_to_not_found i) (instance_name i).
Proof.
  exists ("To node '" ++ to_node_id_of i ++ "' not found in graph for ")%string, EmptyString.
  unfold msg_to_not_found. now rewrite append_nil_r, !append_assoc.
Qed.

Lemma msg_no_path_mentions i : mentions (msg_no_path i) (instance_name i).
Proof.
  exists "No path found for "%string,
         (": " ++ from_node_id_of i ++ " → " ++ to_node_id_of i)%string.
  reflexivity.
Qed.

Lemma resolve_instance_unresolvable g i :
  unresolvable g i ->
  exists msg, resolve_instance g i = Err (ValueError msg) /\ mentions msg (instance_name i).
Proof.
  intros H. unfold resolve_instance.
  destruct (smem (nodes g) (from_node_id_of i)) eqn:Ef; simpl.
  2:{ eexists. split; [reflexivity|apply msg_from_not_found_mentions]. }
  destruct (smem (nodes g) (to_node_id_of i)) eqn:Et; simpl.
  2:{ eexists. split; [reflexivity|apply msg_to_not_found_mentions]. }
  destruct H as [H|[H|H]]; try congruence.
  pose proof (find_path_spec g (from_node_id_of i) (to_node_id_of i)) as Hs.
  destruct (find_path g (from_node_id_of i) (to_node_id_of i)) as [p| |].
  - exfalso. apply H. exists p. apply Hs.
  - eexists. split; [reflexivity|apply msg_no_path_mentions].
  - contradiction.
Qed.

Lemma resolve_paths_app g pre :
  forall rest n,
    Forall (fun i => exists i', resolve_instance g i = Ok i') pre ->
    exists pre',
      resolve_paths g (pre ++ rest) n =
      (r <- resolve_paths g rest (List.length pre + n) ;; Ok (pre' ++ fst r, snd r)).
Proof.
  induction pre as [|i pre IH]; intros rest n Hall.
  - exists []. simpl. destruct (resolve_paths g rest n) as [[l c]|e]; reflexivity.
  - inversion Hall as [|? ? [i' Hi] Hall']; subst.
    destruct (IH rest (S n) Hall') as [pre' Hpre].
    exists (i' :: pre'). simpl. rewrite Hi. simpl. rewrite Hpre.
    replace (List.length pre + S n) with (S (List.length pre + n)) by lia.
    destruct (resolve_paths g rest (S (List.length pre + n))) as [[l c]|e]; reflexivity.
Qed.

Example resolve_paths_line :
  resolve_paths ex_line [ex_good] 0 =
  Ok ([store_path ex_good [("W1"%string, a_to_b)]], 1).
Proof. vm_compute. reflexivity. Qed.

(** C1, as stated, fails: the connection after an unknown endpoint would
    resolve on its own, but the loop is left at the first error and the
    run ends with it. *)
Lemma resolve_paths_bad_connection_is_fatal :
  (exists i', resolve_instance ex_line ex_good = Ok i') /\
  ~ (exists out, resolve_paths ex_line [ex_bad; ex_good] 0 = Ok out) /\
  resolve_paths ex_line [ex_bad; ex_good] 0 =
  Err (ValueError "To node 'C.in9' not found in graph for cable-0").
Proof.
  split; [|split].
  - eexists. vm_compute. reflexivity.
  - intros [out H]. vm_compute in H. discriminate H.
  - vm_compute. reflexivity.
Qed.

(** C1 (amended).  For the first requested connection whose endpoint node
    id is absent from the graph, or for which no segment path exists, the
    condition is reported with that connection's name, as a [ValueError]
    that ends the run: the connections after it are not processed. *)
Theorem resolve_paths_first_error g pre bad post n :
  Forall (fun i => exists i', resolve_instance g i = Ok i') pre ->
  unresolvable g bad ->
  exists msg,
    resolve_paths g (pre ++ bad :: post) n = Err (ValueError msg) /\
    mentions msg (instance_name bad).
Proof.
  intros Hpre Hbad.
  destruct (resolve_instance_unresolvable g bad Hbad) as [msg [Hm Hn]].
  exists msg. split; [|assumption].
  destruct (resolve_paths_app g pre (bad :: post) n Hpre) as [pre' ->].
  simpl. rewrite Hm. reflexivity.
Qed.

Lemma ex_bad_unresolvable : unresolvable ex_line ex_bad.
Proof. right. left. vm_compute. reflexivity. Defined.

Lemma ex_good_resolves :
  Forall (fun i => exists i', resolve_instance ex_line i = Ok i') [ex_good].
Proof.
  constructor; [|constructor].
  exists (store_path ex_good [("W1"%string, a_to_b)]). vm_compute. reflexivity.
Defined.

Lemma resolve_paths_first_error_witness :
  exists msg,
    resolve_paths ex_line ([ex_good] ++ ex_bad :: [ex_good]) 0 = Err (ValueError msg) /\
    mentions msg (instance_name ex_bad).
Proof.
  apply (resolve_paths_first_error ex_line [ex_good] ex_bad [ex_good] 0).
  - exact ex_good_resolves.
  - exact ex_bad_unresolvable.
Defined.


Section CompilerFacts.
Local Open Scope R_scope.

Lemma rotate_point_eq (x y angle : R) :
  rotate_point x y angle =
  (x * cos (angle * (PI / 180)) - y * sin (angle * (PI / 180)),
   x * sin (angle * (PI / 180)) + y * cos (angle * (PI / 180))).
Proof. reflexivity. Qed.

Lemma compile_pin_eq ix iy rot pins name pin :
  compile_pin ix iy rot pins (name, pin) =
  sset pins name
    (spec_absolute_pin
       {| inst_x := ix; inst_y := iy; inst_rotate := rot; inst_lib_id := EmptyString |} pin).
Proof. reflexivity. Qed.

Lemma compile_pins_other ix iy rot lib_pins :
  forall acc name,
    ~ In name (dict_keys lib_pins) ->
    sget (fold_left (compile_pin ix iy rot) lib_pins acc) name = sget acc name.
Proof.
  induction lib_pins as [|[k v] lib_pins IH]; intros acc name Hn; simpl; [reflexivity|].
  rewrite IH by (intro; apply Hn; now right).
  rewrite compile_pin_eq, sget_sset.
  destruct (String.eqb_spec k name); [|reflexivity].
  exfalso. apply Hn. now left.
Qed.

Lemma compile_pins_get ix iy rot lib_pins :
  forall acc name pin,
    NoDup (dict_keys lib_pins) -> In (name, pin) lib_pins ->
    sget (fold_left (compile_pin ix iy rot) lib_pins acc) name =
    Some (spec_absolute_pin
            {| inst_x := ix; inst_y := iy; inst_rotate := rot; inst_lib_id := EmptyString |}
            pin).
Proof.
  induction lib_pins as [|[k v] lib_pins IH]; intros acc name pin Hnd Hin; simpl.
  - contradiction.
  - simpl in Hnd. inversion Hnd as [|? ? Hk Hnd']; subst.
    destruct Hin as [Heq|Hin].
    + inversion Heq; subst k v. rewrite compile_pins_other by assumption.
      rewrite compile_pin_eq, sget_sset, String.eqb_refl. reflexivity.
    + now apply IH.
Qed.

Lemma compile_instances_other libs insts :
  forall acc refdes,
    ~ In refdes (dict_keys insts) ->
    sget (fold_left (compile_instance libs) insts acc) refdes = sget acc refdes.
Proof.
  induction insts as [|[k v] insts IH]; intros acc refdes Hn; simpl; [reflexivity|].
  rewrite IH by (intro; apply Hn; now right).
  unfold compile_instance. simpl.
  destruct (sget libs (inst_lib_id v)); [|reflexivity].
  rewrite sget_sset. destruct (String.eqb_spec k refdes); [|reflexivity].
  exfalso. apply Hn. now left.
Qed.

Lemma compile_instances_get libs insts :
  forall acc refdes inst lib_pins,
    NoDup (dict_keys insts) -> In (refdes, inst) insts ->
    sget libs (inst_lib_id inst) = Some lib_pins ->
    sget (fold_left (compile_instance libs) insts acc) refdes =
    Some (fold_left (compile_pin (inst_x inst) (inst_y inst) (inst_rotate inst)) lib_pins []).
Proof.
  induction insts as [|[k v] insts IH]; intros acc refdes inst lib_pins Hnd Hin Hlib; simpl.
  - contradiction.
  - simpl in Hnd. inversion Hnd as [|? ? Hk Hnd']; subst.
    destruct Hin as [Heq|Hin].
    + inversion Heq; subst k v. rewrite compile_instances_other by assumption.
      unfold compile_instance. simpl. rewrite Hlib.
      rewrite sget_sset, String.eqb_refl. reflexivity.
    + now apply (IH _ _ _ _ Hnd' Hin Hlib).
Qed.

(** C6.  For every placed instance and every pin of its symbol, the
    compiled location is the pin's offset rotated by the instance's
    rotation (counter-clockwise for a positive angle, in degrees), then
    translated by the instance origin, the rotated vertical offset being
    subtracted: [absolute_y = instance_y - rotated_y]. *)
Theorem compile_pin_locations_absolute libs insts refdes inst lib_pins pin_name pin :
  NoDup (dict_keys insts) -> In (refdes, inst) insts ->
  sget libs (inst_lib_id inst) = Some lib_pins ->
  NoDup (dict_keys lib_pins) -> In (pin_name, pin) lib_pins ->
  exists compiled,
    sget (compile_pin_locations libs insts) refdes = Some compiled /\
    sget compiled pin_name = Some (spec_absolute_pin inst pin) /\
    raw_x_loc (spec_absolute_pin inst pin) =
      inst_x inst + fst (rotate_point (raw_x_loc pin) (raw_y_loc pin) (inst_rotate inst)) /\
    raw_y_loc (spec_absolute_pin inst pin) =
      inst_y inst - snd (rotate_point (raw_x_loc pin) (raw_y_loc pin) (inst_rotate inst)).
Proof.
  intros Hnd Hin Hlib Hndp Hinp.
  eexists. split; [|split; [|split]].
  - unfold compile_pin_locations.
    exact (compile_instances_get libs insts [] refdes inst lib_pins Hnd Hin Hlib).
  - rewrite (compile_pins_get _ _ _ _ _ _ _ Hndp Hinp). reflexivity.
  - reflexivity.
  - reflexivity.
Qed.

Lemma quarter_turn : 90 * (PI / 180) = PI / 2.
Proof. field. Qed.

(** A pin one unit to the right of a symbol turned by 90 degrees lies one
    unit above the origin on the sheet, where [y] grows downward. *)
Example spec_absolute_pin_quarter_turn :
  spec_absolute_pin ex_quarter_turn {| raw_x_loc := 1; raw_y_loc := 0 |} =
  {| raw_x_loc := 10; raw_y_loc := 19 |}.
Proof.
  unfold spec_absolute_pin, ex_quarter_turn. simpl.
  rewrite quarter_turn, cos_PI2, sin_PI2. f_equal; lra.
Qed.

(** The order matters: flipping the vertical axis before the rotation
    puts the same pin below the origin. *)
Example flipped_before_rotation_differs :
  flipped_before_rotation ex_quarter_turn {| raw_x_loc := 1; raw_y_loc := 0 |} =
  {| raw_x_loc := 10; raw_y_loc := 21 |} /\
  flipped_before_rotation ex_quarter_turn {| raw_x_loc := 1; raw_y_loc := 0 |} <>
  spec_absolute_pin ex_quarter_turn {| raw_x_loc := 1; raw_y_loc := 0 |}.
Proof.
  assert (E : flipped_before_rotation ex_quarter_turn {| raw_x_loc := 1; raw_y_loc := 0 |} =
              {| raw_x_loc := 10; raw_y_loc := 21 |}).
  { unfold flipped_before_rotation, rotate_point, math_radians, ex_quarter_turn. simpl.
    rewrite quarter_turn, cos_PI2, sin_PI2. f_equal; lra. }
  split; [exact E|].
  rewrite E, spec_absolute_pin_quarter_turn. intros H.
  apply (f_equal raw_y_loc) in H. simpl in H. lra.
Qed.

Lemma ex_instances_nodup : NoDup (dict_keys ex_instances).
Proof. simpl. constructor; [intros []|constructor]. Defined.

Lemma ex_lib_pins_nodup :
  NoDup (dict_keys [("out"%string, {| raw_x_loc := 1; raw_y_loc := 0 |})]).
Proof. simpl. constructor; [intros []|constructor]. Defined.

Lemma compile_pin_locations_absolute_witness :
  exists compiled,
    sget (compile_pin_locations ex_libs ex_instances) "MIC1" = Some compiled /\
    sget compiled "out" =
      Some (spec_absolute_pin ex_quarter_turn {| raw_x_loc := 1; raw_y_loc := 0 |}) /\
    raw_x_loc (spec_absolute_pin ex_quarter_turn {| raw_x_loc := 1; raw_y_loc := 0 |}) =
      inst_x ex_quarter_turn + fst (rotate_point 1 0 (inst_rotate ex_quarter_turn)) /\
    raw_y_loc (spec_absolute_pin ex_quarter_turn {| raw_x_loc := 1; raw_y_loc := 0 |}) =
      inst_y ex_quarter_turn - snd (rotate_point 1 0 (inst_rotate ex_quarter_turn)).
Proof.
  apply (compile_pin_locations_absolute ex_libs ex_instances "MIC1" ex_quarter_turn
           [("out"%string, {| raw_x_loc := 1; raw_y_loc := 0 |})] "out"
           {| raw_x_loc := 1; raw_y_loc := 0 |}).
  - exact ex_instances_nodup.
  - simpl. left. reflexivity.
  - reflexivity.
  - exact ex_lib_pins_nodup.
  - simpl. left. reflexivity.
Defined.
End CompilerFacts.


Section AngularOffset.
Local Open Scope R_scope.


(** The value of the [try] block in each case. *)
Lemma delta_angle_cases (off radius : R) :
  (radius = 0 /\ delta_angle_from_count off radius = Ok 0) \/
  (radius <> 0 /\ (off / radius < -1 \/ 1 < off / radius) /\
   delta_angle_from_count off radius = Ok 0) \/
  (radius <> 0 /\ -1 <= off / radius <= 1 /\
   delta_angle_from_count off radius = Ok (math_degrees (asin (off / radius)))).
Proof.
  unfold delta_angle_from_count, py_div, math_asin.
  destruct (Req_dec_T radius 0) as [Hz|Hnz]; simpl.
  - left. now split.
  - right. destruct (Rlt_dec (off / radius) (-1)) as [Hlo|Hlo]; simpl.
    + left. split; [assumption|]. split; [now left|reflexivity].
    + destruct (Rlt_dec 1 (off / radius)) as [Hhi|Hhi]; simpl.
      * left. split; [assumption|]. split; [now right|reflexivity].
      * right. split; [assumption|]. split; [lra|reflexivity].
Qed.

(** C8.  The angular offset is always a value, for every radius and
    every linear offset: zero when the radius is zero or the offset
    exceeds the radius, the arcsine in degrees otherwise; so a bundle
    point is computed for every component count and every index. *)
Theorem delta_angle_from_count_total (off radius : R) :
  (exists d, delta_angle_from_count off radius = Ok d) /\
  (radius = 0 \/ off / radius < -1 \/ 1 < off / radius ->
   delta_angle_from_count off radius = Ok 0) /\
  (radius <> 0 -> -1 <= off / radius <= 1 ->
   delta_angle_from_count off radius = Ok (math_degrees (asin (off / radius)))) /\
  (forall x_node_mm y_node_mm seg_angle components num idx,
     off = center_offset_from_count_inches idx num * 25.4 ->
     radius = node_radius_inches components * 25.4 ->
     exists p, bundle_point x_node_mm y_node_mm radius seg_angle num idx = Ok p).
Proof.
  pose proof (delta_angle_cases off radius) as H.
  split; [|split; [|split]].
  - destruct H as [[_ H]|[[_ [_ H]]|[_ [_ H]]]]; eexists; exact H.
  - intros Hd. destruct H as [[_ H]|[[_ [_ H]]|[Hnz [Hr H]]]]; try assumption.
    destruct Hd as [Hd|[Hd|Hd]]; [contradiction|lra|lra].
  - intros Hnz Hr. destruct H as [[Hz _]|[[_ [Hd _]]|[_ [_ H]]]];
      [contradiction|lra|assumption].
  - intros x y a c num idx Hoff Hrad. unfold bundle_point.
    rewrite <- Hoff.
    destruct H as [[_ H]|[[_ [_ H]]|[_ [_ H]]]]; rewrite H; simpl; eexists; reflexivity.
Qed.

Lemma delta_angle_from_count_total_witness :
  delta_angle_from_count (center_offset_from_count_inches 1 1 * 25.4) 0 = Ok 0.
Proof.
  apply (proj1 (proj2 (delta_angle_from_count_total
                         (center_offset_from_count_inches 1 1 * 25.4) 0))).
  left. reflexivity.
Defined.
End AngularOffset.


Section Tangents.
Local Open Scope R_scope.





Lemma chain_at_tangent points node_id seg_uuid inst_name t p :
  In p (chain_at points node_id seg_uuid inst_name t) -> cp_tangent p = t.
Proof.
  unfold chain_at. destruct (lookup_point points node_id seg_uuid inst_name).
  - intros [<-|[]]. reflexivity.
  - intros [].
Qed.

(** The tangents stored for one segment, in either direction. *)
Lemma chain_segment_tangent g points inst_name seg_uuid d l :
  chain_segment g points inst_name (seg_uuid, d) = Ok l ->
  exists a b,
    forall p, In p l ->
      cp_tangent p = match d with
                     | a_to_b => tangent_ab a b
                     | b_to_a => tangent_ba (tangent_ab a b)
                     end.
Proof.
  unfold chain_segment. simpl.
  destruct (sget (segments g) seg_uuid) as [sg|]; [|discriminate].
  destruct (sget (nodes g) (node_at_end_a sg)) as [a|]; [|discriminate].
  destruct (sget (nodes g) (node_at_end_b sg)) as [b|]; [|discriminate].
  intros H. exists a, b. intros p Hp.
  destruct d; inversion H; subst l; clear H;
    apply in_app_or in Hp; destruct Hp as [Hp|Hp];
    now apply chain_at_tangent in Hp.
Qed.







End Tangents.


(** ** Sorting names *)

Lemma ascii_compare_N (a b : ascii) :
  Ascii.compare a b = N.compare (N_of_ascii a) (N_of_ascii b).
Proof. reflexivity. Qed.

Lemma str_le_trans a : forall b c, str_le a b -> str_le b c -> str_le a c.
Proof.
  unfold str_le, String.leb.
  induction a as [|x a IH]; intros [|y b] [|z c]; simpl; try easy.
  rewrite !ascii_compare_N.
  destruct (N.compare_spec (N_of_ascii x) (N_of_ascii y)) as [Exy|Lxy|Gxy];
    destruct (N.compare_spec (N_of_ascii y) (N_of_ascii z)) as [Eyz|Lyz|Gyz];
    try easy; intros Hab Hbc.
  - rewrite Exy, Eyz, N.compare_refl. now apply (IH b c).
  - rewrite Exy. now rewrite (proj2 (N.compare_lt_iff _ _) Lyz).
  - rewrite <- Eyz. now rewrite (proj2 (N.compare_lt_iff _ _) Lxy).
  - now rewrite (proj2 (N.compare_lt_iff _ _) (N.lt_trans _ _ _ Lxy Lyz)).
Qed.

Lemma sort_insert_perm s l : Permutation (sort_insert s l) (s :: l).
Proof.
  induction l as [|h t IH]; simpl; [reflexivity|].
  destruct (String.leb s h); [reflexivity|].
  rewrite IH. apply perm_swap.
Qed.

Lemma py_sort_perm l : Permutation (py_sort l) l.
Proof.
  induction l as [|h t IH]; simpl; [reflexivity|].
  rewrite sort_insert_perm. now constructor.
Qed.

Lemma sort_insert_sorted s l :
  StronglySorted str_le l -> StronglySorted str_le (sort_insert s l).
Proof.
  induction l as [|h t IH]; intros Hs; simpl.
  - constructor; constructor.
  - inversion Hs as [|? ? Ht Hh]; subst.
    destruct (String.leb s h) eqn:E.
    + constructor; [assumption|]. constructor; [exact E|].
      apply Forall_forall. intros x Hx. rewrite Forall_forall in Hh.
      apply str_le_trans with (b := h); [exact E|now apply Hh].
    + constructor; [now apply IH|].
      apply Forall_forall. intros x Hx.
      apply (Permutation_in _ (sort_insert_perm s t)) in Hx.
      destruct Hx as [<-|Hx].
      * destruct (String.leb_total s h) as [H|H]; [congruence|exact H].
      * rewrite Forall_forall in Hh. now apply Hh.
Qed.

Lemma py_sort_sorted l : StronglySorted str_le (py_sort l).
Proof.
  induction l as [|h t IH]; simpl; [constructor|]. now apply sort_insert_sorted.
Qed.

(** Two sorted lists with the same elements are the same list. *)
Lemma sorted_perm_eq l : forall l',
  StronglySorted str_le l -> StronglySorted str_le l' -> Permutation l l' -> l = l'.
Proof.
  induction l as [|a l IH]; intros [|a' l'] Hs Hs' Hp.
  - reflexivity.
  - apply Permutation_nil in Hp. discriminate.
  - apply Permutation_sym, Permutation_nil in Hp. discriminate.
  - inversion Hs as [|? ? Hl Ha]; subst. inversion Hs' as [|? ? Hl' Ha']; subst.
    rewrite Forall_forall in Ha, Ha'.
    assert (E : a = a').
    { assert (H1 : In a' (a :: l)) by (apply (Permutation_in _ (Permutation_sym Hp)); now left).
      assert (H2 : In a (a' :: l')) by (apply (Permutation_in _ Hp); now left).
      destruct H1 as [H1|H1]; [assumption|].
      destruct H2 as [H2|H2]; [now symmetry|].
      apply String.leb_antisym; [now apply Ha|now apply Ha']. }
    subst a'. f_equal. apply IH; try assumption.
    now apply Permutation_cons_inv with (a := a).
Qed.

Lemma py_sort_permutation l l' : Permutation l l' -> py_sort l = py_sort l'.
Proof.
  intros Hp. apply sorted_perm_eq; try apply py_sort_sorted.
  rewrite !py_sort_perm. exact Hp.
Qed.

(** ** Components of a node *)

Lemma count_component_spec segs insts :
  forall n0 seen0,
    n0 = List.length seen0 -> NoDup seen0 ->
    let r := fold_left (count_component segs) insts (n0, seen0) in
    fst r = List.length (snd r) /\ NoDup (snd r) /\
    forall p, In p (snd r) <->
              In p seen0 \/
              exists i, In i insts /\ passes_through segs i = true /\ parent_name i = p.
Proof.
  induction insts as [|i insts IH]; intros n0 seen0 Hn Hnd; simpl.
  - split; [assumption|]. split; [assumption|].
    intros p. split; [now left|]. intros [H|[i [[] _]]]. assumption.
  - unfold count_component at 2.
    destruct (str_in (parent_name i) seen0) eqn:Eseen.
    + destruct (IH n0 seen0 Hn Hnd) as [H1 [H2 H3]].
      split; [assumption|]. split; [assumption|].
      intros p. rewrite H3. apply str_in_iff in Eseen. split.
      * intros [H|[j [Hj Hp]]]; [now left|right; exists j; split; [now right|assumption]].
      * intros [H|[j [[<-|Hj] [Hp Hq]]]]; [now left| |right; exists j; now split].
        left. now rewrite <- Hq.
    + apply str_in_false_iff in Eseen.
      destruct (passes_through segs i) eqn:Epass.
      * assert (Hnd' : NoDup (seen0 ++ [parent_name i])).
        { apply (Permutation_NoDup (Permutation_cons_append seen0 (parent_name i))).
          now constructor. }
        assert (Hn' : S n0 = List.length (seen0 ++ [parent_name i])).
        { rewrite length_app. simpl. lia. }
        destruct (IH (S n0) (seen0 ++ [parent_name i]) Hn' Hnd') as [H1 [H2 H3]].
        split; [assumption|]. split; [assumption|].
        intros p. rewrite H3. rewrite in_app_iff. simpl. split.
        -- intros [[H|[H|[]]]|[j [Hj Hp]]].
           ++ now left.
           ++ right. exists i. split; [now left|]. now split.
           ++ right. exists j. split; [now right|assumption].
        -- intros [H|[j [[<-|Hj] [Hp Hq]]]].
           ++ left. now left.
           ++ left. right. now left.
           ++ right. exists j. now split.
      * destruct (IH n0 seen0 Hn Hnd) as [H1 [H2 H3]].
        split; [assumption|]. split; [assumption|].
        intros p. rewrite H3. split.
        -- intros [H|[j [Hj Hp]]]; [now left|right; exists j; split; [now right|assumption]].
        -- intros [H|[j [[<-|Hj] [Hp Hq]]]]; [now left|congruence|right; exists j; now split].
Qed.

(** [components_in_node] is the number of distinct parent names among the
    instances whose path uses a segment of the node. *)
Lemma components_in_node_distinct insts segs :
  exists seen,
    NoDup seen /\ List.length seen = components_in_node insts segs /\
    forall p, In p seen <->
              exists i, In i insts /\ passes_through segs i = true /\ parent_name i = p.
Proof.
  unfold components_in_node.
  destruct (count_component_spec segs insts 0 [] eq_refl (NoDup_nil _)) as [H1 [H2 H3]].
  exists (snd (fold_left (count_component segs) insts (0, []))).
  split; [assumption|]. split; [now symmetry|].
  intros p. rewrite H3. split; [intros [[]|H]; assumption|now right].
Qed.

Lemma components_in_node_permutation insts insts' segs :
  Permutation insts insts' ->
  components_in_node insts segs = components_in_node insts' segs.
Proof.
  intros Hp.
  destruct (components_in_node_distinct insts segs) as [l [Hl [<- Hin]]].
  destruct (components_in_node_distinct insts' segs) as [l' [Hl' [<- Hin']]].
  apply Permutation_length, NoDup_Permutation; try assumption.
  intros p. rewrite Hin, Hin'. split; intros [i [Hi H]]; exists i; (split; [|assumption]).
  - now apply (Permutation_in _ Hp).
  - now apply (Permutation_in _ (Permutation_sym Hp)).
Qed.

Lemma instances_using_segment_permutation insts insts' seg_uuid :
  Permutation insts insts' ->
  Permutation (instances_using_segment insts seg_uuid)
              (instances_using_segment insts' seg_uuid).
Proof.
  intros Hp. unfold instances_using_segment.
  apply Permutation_map. induction Hp; simpl.
  - constructor.
  - destruct (str_in seg_uuid (path_segments_of x)); [now constructor|assumption].
  - destruct (str_in seg_uuid (path_segments_of x)), (str_in seg_uuid (path_segments_of y));
      try reflexivity. apply perm_swap.
  - etransitivity; eassumption.
Qed.

Lemma placement_order_permutation insts insts' flips seg_uuid :
  Permutation insts insts' ->
  placement_order insts flips seg_uuid = placement_order insts' flips seg_uuid.
Proof.
  intros Hp. unfold placement_order.
  now rewrite (py_sort_permutation _ _ (instances_using_segment_permutation _ _ seg_uuid Hp)).
Qed.

(** ** The loop over the segments of one node *)



Section Layout.
Local Open Scope R_scope.

Lemma node_radius_inches_pos (n : nat) :
  (1 <= n)%nat -> node_radius_inches n = Rpower (INR n) 0.7 * segment_spacing_inches.
Proof.
  intros Hn. unfold node_radius_inches, math_pow.
  destruct (Req_dec_T (INR n) 0) as [E|E]; [|reflexivity].
  exfalso. assert (0 < INR n) by (apply lt_0_INR; lia). lra.
Qed.




End Layout.

(** ** Determinism of the bundle geometry *)

Lemma fold_result_ext {A B} (f f' : A -> B -> result A) l :
  (forall a b, f a b = f' a b) ->
  forall a, fold_result f l a = fold_result f' l a.
Proof.
  intros H. induction l as [|b l IH]; intros a; simpl; [reflexivity|].
  rewrite H. destruct (f' a b); simpl; [apply IH|reflexivity].
Qed.

Lemma bundle_segment_permutation insts insts' node_id x y r flips st item :
  Permutation insts insts' ->
  bundle_segment insts node_id x y r flips st item =
  bundle_segment insts' node_id x y r flips st item.
Proof.
  intros Hp. unfold bundle_segment.
  pose proof (instances_using_segment_permutation _ _ (snd item) Hp) as Hu.
  rewrite (placement_order_permutation _ _ flips (snd item) Hp).
  destruct (instances_using_segment insts (snd item)) as [|a l];
    destruct (instances_using_segment insts' (snd item)) as [|a' l']; try reflexivity.
  - apply Permutation_nil in Hu. discriminate.
  - apply Permutation_sym, Permutation_nil in Hu. discriminate.
Qed.

Lemma bundle_node_permutation g insts insts' st item :
  Permutation insts insts' ->
  bundle_node g insts st item = bundle_node g insts' st item.
Proof.
  intros Hp. unfold bundle_node.
  destruct (fold_result (scan_segment g (fst item) (snd item)) (segments g) node_scan_init)
    as [scan|e]; simpl; [|reflexivity].
  rewrite (components_in_node_permutation _ _ (node_segments scan) Hp).
  destruct (Nat.eqb (components_in_node insts' (node_segments scan)) 0); [reflexivity|].
  apply fold_result_ext. intros a b. now apply bundle_segment_permutation.
Qed.

(** C5.  The bundle points are a function of the graph and of the set of
    resolved paths: two runs over the same graph and the same connections,
    in whatever order these are listed, yield the same points for every
    node, segment and connection, and the same point count. *)
Theorem bundle_points_deterministic g insts insts' :
  Permutation insts insts' ->
  bundle_points g insts = bundle_points g insts'.
Proof.
  intros Hp. unfold bundle_points.
  apply fold_result_ext. intros a b. now apply bundle_node_permutation.
Qed.

Example ex_three_order_at_a :
  placement_order ex_three [("W1"%string, false)] "W1" =
  ["cable-a"; "cable-b"; "cable-c"]%string.
Proof. vm_compute. reflexivity. Qed.

Example ex_three_order_at_b :
  placement_order ex_three [("W1"%string, true)] "W1" =
  ["cable-c"; "cable-b"; "cable-a"]%string.
Proof. vm_compute. reflexivity. Qed.





Lemma bundle_points_deterministic_witness :
  bundle_points ex_line ex_three = bundle_points ex_line (rev ex_three).
Proof.
  apply (bundle_points_deterministic ex_line ex_three (rev ex_three)).
  apply Permutation_rev.
Defined.


(** ** Label text *)











(** ** Blank strings *)











Example text_escaped_markup :
  text_escaped (Some "R&D <x> 'a'"%string) = "R&amp;D &lt;x&gt; &apos;a&apos;"%string.
Proof. reflexivity. Qed.

Example text_escaped_blank :
  text_escaped (Some "   "%string) = "?"%string /\ text_escaped None = "?"%string.
Proof. split; reflexivity. Qed.



(** ** Document parser *)

Example search_lib_symbols_found :
  search_lib_symbols
    ("(kicad_sch (lib_symbols (symbol x)" ++ lib_symbols_close ++ " (wire))")%string
  = Some " (symbol x)"%string.
Proof. vm_compute. reflexivity. Qed.

Example search_lib_symbols_absent :
  search_lib_symbols "(kicad_sch (version 20231120) (paper A4))" = None.
Proof. vm_compute. reflexivity. Qed.

Section ParserFacts.
Variable finditer_symbols : string -> list (string * string).
Variable finditer_pins : string -> list (string * string * string * string * string).
Variable finditer_instances :
  string -> list (string * string * string * string * string * string).
Variable finditer_wires : string -> list (string * string * string * string * string).
Variable py_float : string -> result R.

(** C9.  When the schematic file does not exist the run ends with a
    [FileNotFoundError] naming the path, whatever the scanners would do:
    nothing is read or parsed.  When the document exists, a document
    without a pin-library section gives an empty pin library and one
    without placed instances an empty instance collection, and neither is
    an error. *)
Theorem load_schematic_missing_or_empty (files : sdict string)
    (schematic_path content : string) :
  (sget files schematic_path = None ->
   load_schematic finditer_symbols finditer_pins finditer_instances finditer_wires
     py_float files schematic_path =
   Err (FileNotFoundError (msg_schematic_not_found schematic_path))) /\
  (search_lib_symbols content = None ->
   _parse_lib_symbols finditer_symbols finditer_pins py_float content = Ok []) /\
  (finditer_instances content = [] ->
   _parse_lib_instances finditer_instances py_float content = Ok []) /\
  (sget files schematic_path = Some content ->
   search_lib_symbols content = None ->
   finditer_instances content = [] ->
   forall wires,
     _parse_wires finditer_wires py_float content = Ok wires ->
     load_schematic finditer_symbols finditer_pins finditer_instances finditer_wires
       py_float files schematic_path = Ok (([], [], wires), [])).
Proof.
  split; [|split; [|split]].
  - intros H. unfold load_schematic. now rewrite H.
  - intros H. unfold _parse_lib_symbols. now rewrite H.
  - intros H. unfold _parse_lib_instances. now rewrite H.
  - intros Hf Hs Hi wires Hw. unfold load_schematic, parse, _parse_lib_symbols,
      _parse_lib_instances.
    rewrite Hf, Hs, Hi. simpl. rewrite Hw. reflexivity.
Qed.
End ParserFacts.

Lemma load_schematic_missing_or_empty_witness :
  load_schematic (fun _ => []) (fun _ => []) (fun _ => []) (fun _ => [])
    (fun _ => Err (ValueError "could not convert string to float"))
    ex_files "kicad/S02-rev1.kicad_sch" =
  Err (FileNotFoundError (msg_schematic_not_found "kicad/S02-rev1.kicad_sch")) /\
  load_schematic (fun _ => []) (fun _ => []) (fun _ => []) (fun _ => [])
    (fun _ => Err (ValueError "could not convert string to float"))
    ex_files "kicad/S01-rev1.kicad_sch" = Ok (([], [], []), []).
Proof.
  split.
  - apply (proj1 (load_schematic_missing_or_empty
                    (fun _ => []) (fun _ => []) (fun _ => []) (fun _ => [])
                    (fun _ => Err (ValueError "could not convert string to float"))
                    ex_files "kicad/S02-rev1.kicad_sch" EmptyString)).
    reflexivity.
  - apply (proj2 (proj2 (proj2 (load_schematic_missing_or_empty
                    (fun _ => []) (fun _ => []) (fun _ => []) (fun _ => [])
                    (fun _ => Err (ValueError "could not convert string to float"))
                    ex_files "kicad/S01-rev1.kicad_sch"
                    "(kicad_sch (version 20231120) (paper A4))")))).
    + reflexivity.
    + vm_compute. reflexivity.
    + reflexivity.
    + reflexivity.
Defined.

(* ================================================================== *)
(** * Part III: further properties of the script                       *)
(* ================================================================== *)


(** ** Rounding to the nearest integer and to the tolerance *)

Lemma py_round_near (v : Q) :
  (inject_Z (py_round v) - (1 # 2) <= v <= inject_Z (py_round v) + (1 # 2))%Q.
Proof.
  pose proof (Qfloor_le v) as Hlo. pose proof (Qlt_floor v) as Hhi.
  rewrite inject_Z_plus in Hhi. change (inject_Z 1) with 1%Q in Hhi.
  unfold py_round. cbv zeta.
  set (f := Qfloor v) in *. set (c := inject_Z f) in *.
  destruct (v - c ?= 1 # 2)%Q eqn:E.
  - apply Qeq_alt in E.
    destruct (Z.even f); [fold c|rewrite inject_Z_plus; fold c; change (inject_Z 1) with 1%Q];
      split; Lqa.lra.
  - apply Qlt_alt in E. fold c. split; Lqa.lra.
  - apply Qgt_alt in E. rewrite inject_Z_plus. fold c. change (inject_Z 1) with 1%Q.
    split; Lqa.lra.
Qed.

Lemma py_round_of_int (z : Z) : py_round (inject_Z z) = z.
Proof.
  unfold py_round. rewrite Qfloor_Z.
  assert (E : (inject_Z z - inject_Z z ?= 1 # 2)%Q = Lt).
  { apply (proj1 (Qlt_alt _ _)). Lqa.lra. }
  now rewrite E.
Qed.

Lemma py_round_digits_idem (v : Q) (n : nat) :
  py_round_digits (py_round_digits v n) n = py_round_digits v n.
Proof.
  unfold py_round_digits.
  set (p := inject_Z (10 ^ Z.of_nat n)).
  set (z := py_round (v * p)).
  assert (Hp : ~ (p == 0)%Q).
  { unfold p. intros H. unfold Qeq in H. simpl in H.
    assert (0 < 10 ^ Z.of_nat n)%Z by (apply Z.pow_pos_nonneg; lia). lia. }
  assert (E : (inject_Z z / p * p == inject_Z z)%Q) by (field; exact Hp).
  now rewrite (py_round_comp _ _ E), py_round_of_int.
Qed.

Lemma py_round_digits_at_precision (v : Q) : at_precision (py_round_digits v OUTPUT_PRECISION).
Proof. unfold at_precision. rewrite py_round_digits_idem. reflexivity. Qed.

Lemma round_coord_near (v : Q) :
  (round_coord v - (1 # 200) <= v <= round_coord v + (1 # 200))%Q.
Proof.
  unfold round_coord, TOLERANCE.
  pose proof (py_round_near (v / (1 # 100))) as H.
  set (r := inject_Z (py_round (v / (1 # 100)))) in *.
  assert (E : (v / (1 # 100) == v * 100)%Q) by (field).
  destruct H as [H1 H2]. rewrite E in H1, H2.
  split; Lqa.lra.
Qed.

(** X1.  Two coordinates that fall on the same node are never further apart
    than the tolerance, in either direction; the converse does not hold,
    two coordinates a ten-thousandth apart can fall on different nodes. *)
Theorem location_key_tolerance (x y x' y' : Q) :
  key_eqb (location_key x y) (location_key x' y') = true ->
  (- TOLERANCE <= x - x' <= TOLERANCE)%Q /\ (- TOLERANCE <= y - y' <= TOLERANCE)%Q.
Proof.
  unfold key_eqb, location_key, TOLERANCE. simpl. intros H.
  apply andb_prop in H. destruct H as [Hx Hy]. apply Qeq_bool_iff in Hx, Hy.
  pose proof (round_coord_near x). pose proof (round_coord_near x').
  pose proof (round_coord_near y). pose proof (round_coord_near y').
  split; split; Lqa.lra.
Qed.

Example location_key_boundary :
  key_eqb (location_key (1499 # 100000) 0) (location_key (1501 # 100000) 0) = false.
Proof. vm_compute. reflexivity. Qed.

Lemma location_key_tolerance_witness :
  (- TOLERANCE <= (1234 # 1000) - (1230 # 1000) <= TOLERANCE)%Q /\
  (- TOLERANCE <= (500 # 1000) - (504 # 1000) <= TOLERANCE)%Q.
Proof.
  apply (location_key_tolerance (1234 # 1000) (500 # 1000) (1230 # 1000) (504 # 1000)).
  vm_compute. reflexivity.
Defined.

Lemma py_round_digits_near (v : Q) :
  (py_round_digits v OUTPUT_PRECISION - (1 # 200000) <= v
   <= py_round_digits v OUTPUT_PRECISION + (1 # 200000))%Q.
Proof.
  unfold py_round_digits.
  change (inject_Z (10 ^ Z.of_nat OUTPUT_PRECISION)) with (100000 # 1)%Q.
  pose proof (py_round_near (v * (100000 # 1))) as [H1 H2].
  set (r := inject_Z (py_round (v * (100000 # 1)))) in *.
  assert (E : (r / (100000 # 1) == r * (1 # 100000))%Q) by (field).
  rewrite E. split; Lqa.lra.
Qed.

(** X2.  The three steps applied to one coordinate, with a scale that is not
    negative, change the scaled value by no more than a twentieth of the
    scale (the rounding to a tenth of a unit) and half a unit of the last
    digit kept (the rounding of the output). *)
Theorem scale_coordinate_error (value scale_factor : Q) :
  (0 <= scale_factor)%Q ->
  (value * scale_factor - scale_factor * (1 # 20) - (1 # 200000)
   <= scale_coordinate value scale_factor
   <= value * scale_factor + scale_factor * (1 # 20) + (1 # 200000))%Q.
Proof.
  intros Hs. unfold scale_coordinate. cbv zeta.
  pose proof (py_round_near (value * 10)) as [H1 H2].
  set (r := inject_Z (py_round (value * 10))) in *.
  pose proof (py_round_digits_near (r / 10 * scale_factor)) as [H3 H4].
  set (out := py_round_digits (r / 10 * scale_factor) OUTPUT_PRECISION) in *.
  assert (E : (r / 10 * scale_factor == r * scale_factor * (1 # 10))%Q) by (field).
  rewrite E in H3, H4.
  assert (Hlo : ((r - (1 # 2)) * scale_factor <= value * 10 * scale_factor)%Q)
    by (apply Qmult_le_compat_r; assumption).
  assert (Hhi : (value * 10 * scale_factor <= (r + (1 # 2)) * scale_factor)%Q)
    by (apply Qmult_le_compat_r; assumption).
  split; Lqa.lra.
Qed.

Example scale_coordinate_inch :
  (scale_coordinate (254 # 10) KICAD_UNIT_SCALE == 1)%Q /\
  (scale_coordinate (12704 # 1000) KICAD_UNIT_SCALE == 1 # 2)%Q.
Proof. split; vm_compute; reflexivity. Qed.

Lemma scale_coordinate_error_witness :
  ((254 # 10) * KICAD_UNIT_SCALE - KICAD_UNIT_SCALE * (1 # 20) - (1 # 200000)
   <= scale_coordinate (254 # 10) KICAD_UNIT_SCALE
   <= (254 # 10) * KICAD_UNIT_SCALE + KICAD_UNIT_SCALE * (1 # 20) + (1 # 200000))%Q.
Proof.
  apply (scale_coordinate_error (254 # 10) KICAD_UNIT_SCALE).
  vm_compute. discriminate.
Defined.


(** ** Rounding and scaling of nested coordinates *)

(** Induction on the values, with the items of a dictionary. *)
Lemma py_data_induction (P : py_data -> Prop) :
  (forall v, P (PyNum v)) ->
  (forall s, P (PyStr s)) ->
  (forall items, Forall (fun it => P (snd it)) items -> P (PyDict items)) ->
  forall data, P data.
Proof.
  intros Hn Hs Hd. fix IH 1. intros [v|s|items].
  - apply Hn.
  - apply Hs.
  - apply Hd. induction items as [|[k d] items IHitems]; constructor.
    + simpl. apply IH.
    + exact IHitems.
Qed.

Lemma items_ok_sset (P : Q -> Prop) (rec : py_data -> Prop) processed key value :
  items_ok P rec processed ->
  (if str_in key coordinate_keys
   then match value with PyNum v => P v | _ => False end
   else rec value) ->
  items_ok P rec (sset processed key value).
Proof.
  intros Hp Hv. induction processed as [|[k0 v0] processed IH]; simpl.
  - split; [exact Hv | exact I].
  - destruct Hp as [H0 Hp]. destruct (String.eqb_spec k0 key) as [->|Hne]; simpl.
    + split; assumption.
    + split; [assumption | now apply IH].
Qed.

Lemma items_ok_sget (P : Q -> Prop) (rec : py_data -> Prop) items key value :
  items_ok P rec items -> sget items key = Some value ->
  if str_in key coordinate_keys
  then match value with PyNum v => P v | _ => False end
  else rec value.
Proof.
  induction items as [|[k0 v0] items IH]; simpl; [discriminate|].
  intros [H0 Hp]. unfold sget. simpl. destruct (String.eqb_spec k0 key) as [->|Hne].
  - intros E. inversion E; subst. exact H0.
  - now apply IH.
Qed.

Lemma process_items_ok (P : Q -> Prop) recurse scale_factor items :
  (forall v, P (scale_coordinate v scale_factor)) ->
  Forall (fun it => forall out, recurse (snd it) = Some out -> coords_ok P out) items ->
  forall processed out,
    items_ok P (coords_ok P) processed ->
    process_items recurse scale_factor items processed = Some out ->
    items_ok P (coords_ok P) out.
Proof.
  intros HP Hrec. induction Hrec as [|[key value] items Hv Hrec IH];
    cbn [process_items]; intros processed out Hp E.
  - inversion E; subst. exact Hp.
  - cbn [snd] in Hv. destruct (str_in key coordinate_keys) eqn:Hk.
    + destruct value as [v|s|its]; try discriminate.
      refine (IH _ _ (items_ok_sset P _ processed key _ Hp _) E).
      rewrite Hk. apply HP.
    + destruct (recurse value) as [value'|] eqn:Er; [|discriminate].
      refine (IH _ _ (items_ok_sset P _ processed key _ Hp _) E).
      rewrite Hk. now apply Hv.
Qed.

Lemma round_and_scale_coordinates_ok (P : Q -> Prop) scale_factor :
  (forall v, P (scale_coordinate v scale_factor)) ->
  forall data out,
    round_and_scale_coordinates data scale_factor = Some out -> coords_ok P out.
Proof.
  intros HP data. induction data as [v|s|items IH] using py_data_induction; intros out E.
  - inversion E; subst. exact I.
  - inversion E; subst. exact I.
  - simpl in E.
    destruct (process_items _ scale_factor items []) as [processed|] eqn:Ep; [|discriminate].
    inversion E; subst. simpl.
    apply (process_items_ok P _ scale_factor items HP IH [] processed I Ep).
Qed.

Lemma scale_coordinate_at_precision v scale_factor :
  at_precision (scale_coordinate v scale_factor).
Proof. unfold scale_coordinate. apply py_round_digits_at_precision. Qed.

(** X3.  Every coordinate that [round_and_scale_coordinates] returns, at any
    depth, is a value that rounding to the output precision leaves
    unchanged. *)
Theorem round_and_scale_coordinates_precision data scale_factor out :
  round_and_scale_coordinates data scale_factor = Some out ->
  coords_ok at_precision out.
Proof.
  apply round_and_scale_coordinates_ok. intros v. apply scale_coordinate_at_precision.
Qed.

Example round_and_scale_coordinates_wire :
  exists out, round_and_scale_coordinates ex_wire_data KICAD_UNIT_SCALE = Some out /\
    wire_of_data out = None /\
    option_map wire_of_data
      (match out with PyDict items => sget items "w1" | _ => None end) =
    Some (Some {| a_x := 100000 # 100000; a_y := 200000 # 100000;
                  b_x := 300000 # 100000; b_y := 200000 # 100000 |}).
Proof. eexists. split; [vm_compute; reflexivity|]. split; vm_compute; reflexivity. Qed.

Lemma round_and_scale_coordinates_precision_witness :
  exists out, round_and_scale_coordinates ex_wire_data KICAD_UNIT_SCALE = Some out /\
              coords_ok at_precision out.
Proof.
  eexists. split; [vm_compute; reflexivity|].
  apply (round_and_scale_coordinates_precision ex_wire_data KICAD_UNIT_SCALE).
  vm_compute. reflexivity.
Defined.

(** X4.  A wire read from the scaled wire locations, as [build_graph] reads
    it, has its four coordinates at the output precision: the scaled
    document meets what the graph builder's node lookup relies on. *)
Theorem scaled_wire_at_precision data scale_factor items wire_uuid wire_coords w :
  round_and_scale_coordinates data scale_factor = Some (PyDict items) ->
  sget items wire_uuid = Some wire_coords ->
  wire_of_data wire_coords = Some w ->
  at_precision (a_x w) /\ at_precision (a_y w) /\
  at_precision (b_x w) /\ at_precision (b_y w).
Proof.
  intros E Hget Hw.
  pose proof (round_and_scale_coordinates_ok at_precision scale_factor
                (fun v => scale_coordinate_at_precision v scale_factor) _ _ E) as Hok.
  cbn [coords_ok] in Hok.
  pose proof (items_ok_sget _ _ _ _ _ Hok Hget) as Hd.
  destruct wire_coords as [v|s|fields]; try discriminate.
  destruct (str_in wire_uuid coordinate_keys); [contradiction|].
  cbn [coords_ok] in Hd. unfold wire_of_data in Hw.
  destruct (sget fields "a_x") as [[ax| |]|] eqn:Eax; try discriminate.
  destruct (sget fields "a_y") as [[ay| |]|] eqn:Eay; try discriminate.
  destruct (sget fields "b_x") as [[bx| |]|] eqn:Ebx; try discriminate.
  destruct (sget fields "b_y") as [[by_| |]|] eqn:Eby; try discriminate.
  inversion Hw; subst w. cbn [a_x a_y b_x b_y].
  pose proof (items_ok_sget _ _ _ _ _ Hd Eax) as H1.
  pose proof (items_ok_sget _ _ _ _ _ Hd Eay) as H2.
  pose proof (items_ok_sget _ _ _ _ _ Hd Ebx) as H3.
  pose proof (items_ok_sget _ _ _ _ _ Hd Eby) as H4.
  repeat split; assumption.
Qed.

Lemma scaled_wire_at_precision_witness :
  at_precision (100000 # 100000) /\ at_precision (200000 # 100000) /\
  at_precision (300000 # 100000) /\ at_precision (200000 # 100000).
Proof.
  refine (scaled_wire_at_precision ex_wire_data KICAD_UNIT_SCALE _ "w1" _
            {| a_x := 100000 # 100000; a_y := 200000 # 100000;
               b_x := 300000 # 100000; b_y := 200000 # 100000 |} _ _ _);
    vm_compute; reflexivity.
Defined.

(** *** When the function raises *)



Example round_and_scale_coordinates_string_coordinate :
  round_and_scale_coordinates
    (PyDict [("R1", PyDict [("x", PyStr "12.7")])])%string KICAD_UNIT_SCALE = None.
Proof. vm_compute. reflexivity. Qed.


(** ** The graph builder: what the graph contains *)

Lemma smem_sset_iff {V} (d : sdict V) k k' v :
  smem (sset d k v) k' = true <-> k = k' \/ smem d k' = true.
Proof.
  unfold smem, dict_mem. fold (sget d k'). fold (sget (sset d k v) k').
  rewrite sget_sset. destruct (String.eqb_spec k k') as [->|Hne].
  - split; [now left | reflexivity].
  - split; [now right | intros [H|H]; [contradiction | exact H]].
Qed.

Lemma smem_false_length {V} (d : sdict V) k v :
  smem d k = false -> List.length (sset d k v) = S (List.length d).
Proof.
  unfold smem, dict_mem, sset. induction d as [|[k0 v0] d IH]; simpl; [reflexivity|].
  destruct (String.eqb k0 k); [discriminate|]. intros H. simpl. now rewrite IH.
Qed.

Lemma smem_In {V} (d : sdict V) k :
  smem d k = true <-> In k (dict_keys d).
Proof.
  unfold smem, dict_mem, dict_keys. induction d as [|[k0 v0] d IH]; simpl.
  - split; [discriminate | contradiction].
  - destruct (String.eqb_spec k0 k) as [->|Hne].
    + split; [now left | reflexivity].
    + rewrite IH. split; [now right | intros [H|H]; [contradiction | exact H]].
Qed.

Lemma nodes_grow_refl st : nodes_grow st st.
Proof. intros n H. exact H. Qed.

Lemma nodes_grow_trans st1 st2 st3 : nodes_grow st1 st2 -> nodes_grow st2 st3 -> nodes_grow st1 st3.
Proof. intros H1 H2 n H. apply H2, H1, H. Qed.

Lemma node_for_end_nodes st x y st' n :
  node_for_end st x y = (st', n) -> nodes_grow st st'.
Proof.
  unfold node_for_end.
  destruct (dict_get key_eqb (location_to_node st) (location_key x y));
    intros H; inversion H; subst; clear H.
  - apply nodes_grow_refl.
  - intros m Hm. simpl. now apply smem_sset.
Qed.

Lemma add_wire_segments st u w :
  exists sg, b_segments (add_wire st (u, w)) = sset (b_segments st) u sg.
Proof.
  unfold add_wire. simpl.
  destruct (node_for_end st (a_x w) (a_y w)) as [st1 na] eqn:Ea.
  destruct (node_for_end st1 (b_x w) (b_y w)) as [st2 nb] eqn:Eb.
  destruct (node_for_end_spec _ _ _ _ _ Ea) as [_ [_ [Sa _]]].
  destruct (node_for_end_spec _ _ _ _ _ Eb) as [_ [_ [Sb _]]].
  simpl. rewrite Sb, Sa. now eexists.
Qed.

Lemma add_wire_closed st u w :
  l2n_in_nodes st -> segs_in_nodes st ->
  segs_in_nodes (add_wire st (u, w)) /\ nodes_grow st (add_wire st (u, w)).
Proof.
  intros Hin Hcl. unfold add_wire. simpl.
  destruct (node_for_end st (a_x w) (a_y w)) as [st1 na] eqn:Ea.
  destruct (node_for_end st1 (b_x w) (b_y w)) as [st2 nb] eqn:Eb.
  destruct (node_for_end_spec _ _ _ _ _ Ea) as [Ga [Xa [Sa [Ia _]]]].
  destruct (node_for_end_spec _ _ _ _ _ Eb) as [Gb [Xb [Sb [Ib _]]]].
  pose proof (node_for_end_nodes _ _ _ _ _ Ea) as Na.
  pose proof (node_for_end_nodes _ _ _ _ _ Eb) as Nb.
  split.
  - intros u' sg H. simpl in *. apply dict_set_In in H. destruct H as [H|H].
    + rewrite Sb, Sa in H. destruct (Hcl _ _ H) as [H1 H2].
      split; apply Nb, Na; assumption.
    + subst sg. simpl. split.
      * exact (proj1 (Ib (Ia Hin) _ _ (Xb _ _ Ga))).
      * exact (proj1 (Ib (Ia Hin) _ _ Gb)).
  - intros n H. simpl. apply Nb, Na, H.
Qed.

Lemma add_wires_closed wires :
  forall st, l2n_in_nodes st -> segs_in_nodes st ->
    segs_in_nodes (fold_left add_wire wires st) /\ nodes_grow st (fold_left add_wire wires st).
Proof.
  induction wires as [|[u w] wires IH]; intros st Hin Hcl; simpl.
  - split; [assumption | apply nodes_grow_refl].
  - destruct (add_wire_closed st u w Hin Hcl) as [Hcl' Hg].
    destruct (add_wire_spec st u w) as [_ [_ [_ [Hi _]]]].
    destruct (IH _ (Hi Hin) Hcl') as [H1 H2].
    split; [assumption | eapply nodes_grow_trans; eassumption].
Qed.

Lemma build_state_closed pins wires :
  segs_in_nodes (build_state pins wires) /\
  nodes_grow (fold_left add_pins pins builder_init) (build_state pins wires).
Proof.
  unfold build_state. destruct (pins_state_ok pins) as [H1 H2].
  apply add_wires_closed; [assumption|].
  rewrite fold_add_pins.
  destruct (pins_l2n_in_nodes (flat_pins pins) builder_init) as [_ Hs].
  - intros k n H. discriminate H.
  - reflexivity.
  - intros u sg H. rewrite Hs in H. contradiction.
Qed.

(** X6.  In every graph that the builder returns, both ends of every
    segment are nodes of the graph: looking up the node at an end of a
    segment never fails. *)
Theorem build_graph_closed pins wires : graph_closed (build_graph pins wires).
Proof.
  intros u sg H. exact (proj1 (build_state_closed pins wires) u sg H).
Qed.

Lemma build_graph_closed_witness :
  smem (nodes (build_graph ex_pins_apart ex_wires_apart)) "R1.1"%string = true /\
  smem (nodes (build_graph ex_pins_apart ex_wires_apart)) "wirejunction-0"%string = true.
Proof.
  apply (build_graph_closed ex_pins_apart ex_wires_apart "w1"%string
           {| node_at_end_a := "R1.1"%string; node_at_end_b := "wirejunction-0"%string |}).
  vm_compute. left. reflexivity.
Defined.

(** *** Pins and wires *)

Lemma add_flat_pins_nodes l :
  forall st n,
    smem (b_nodes (fold_left add_flat_pin l st)) n = true <->
    smem (b_nodes st) n = true \/ exists r p c, In (r, (p, c)) l /\ n = pin_node_uuid r p.
Proof.
  induction l as [|[r [p c]] l IH]; intros st n; simpl.
  - split; [now left | intros [H|[r [p [c [[] _]]]]]; exact H].
  - rewrite IH. unfold add_flat_pin at 1. unfold add_pin. simpl.
    rewrite smem_sset_iff. split.
    + intros [[H|H]|[r' [p' [c' [Hin E]]]]].
      * right. exists r, p, c. split; [now left | now symmetry].
      * now left.
      * right. exists r', p', c'. split; [now right | assumption].
    + intros [H|[r' [p' [c' [[Heq|Hin] E]]]]].
      * left. now right.
      * inversion Heq; subst. left. now left.
      * right. exists r', p', c'. now split.
Qed.

Lemma add_flat_pins_counter l :
  forall st, junction_counter (fold_left add_flat_pin l st) = junction_counter st.
Proof.
  induction l as [|[r [p c]] l IH]; intros st; simpl; [reflexivity|]. now rewrite IH.
Qed.

Lemma pins_state_nodes pins n :
  smem (b_nodes (fold_left add_pins pins builder_init)) n = true <-> is_pin_id pins n.
Proof.
  rewrite fold_add_pins, add_flat_pins_nodes. unfold is_pin_id. split.
  - intros [H|[r [p [c [Hin E]]]]]; [discriminate H|].
    apply in_flat_pins in Hin. destruct Hin as [ps [H1 H2]]. now exists r, ps, p, c.
  - intros [r [ps [p [c [H1 [H2 E]]]]]]. right. exists r, p, c. split; [|assumption].
    apply in_flat_pins. now exists ps.
Qed.

Lemma add_wires_segments wires :
  forall st u,
    smem (b_segments (fold_left add_wire wires st)) u = true <->
    smem (b_segments st) u = true \/ In u (dict_keys wires).
Proof.
  induction wires as [|[u0 w] wires IH]; intros st u; simpl.
  - tauto.
  - rewrite IH. destruct (add_wire_segments st u0 w) as [sg E]. rewrite E.
    rewrite smem_sset_iff. tauto.
Qed.

(** X7.  The graph has a node for every pin, and its segment ids are
    the wire ids. *)
Theorem build_graph_covers pins wires :
  (forall r ps p c, In (r, ps) pins -> In (p, c) ps ->
     smem (nodes (build_graph pins wires)) (pin_node_uuid r p) = true) /\
  (forall u, smem (segments (build_graph pins wires)) u = true <-> In u (dict_keys wires)).
Proof.
  split.
  - intros r ps p c H1 H2. simpl.
    apply (proj2 (build_state_closed pins wires)).
    apply pins_state_nodes. now exists r, ps, p, c.
  - intros u. simpl. unfold build_state. rewrite add_wires_segments.
    destruct (pins_l2n_in_nodes (flat_pins pins) builder_init) as [_ Hs].
    + intros k n H. discriminate H.
    + reflexivity.
    + rewrite fold_add_pins, Hs. split; [intros [H|H]; [discriminate H | exact H] | now right].
Qed.

(** *** The ids of the nodes *)

Lemma no_dot_app a b : no_dot (a ++ b) = no_dot a && no_dot b.
Proof.
  unfold no_dot. induction a as [|c a IH]; simpl; [reflexivity|].
  now rewrite IH, andb_assoc.
Qed.

Lemma no_dot_digits d : no_dot (NilEmpty.string_of_uint d) = true.
Proof. induction d; simpl; try assumption; reflexivity. Qed.

Lemma no_dot_junction k : no_dot (junction_uuid k) = true.
Proof.
  unfold junction_uuid. rewrite no_dot_app. unfold str_of_nat.
  now rewrite no_dot_digits.
Qed.

Lemma no_dot_pin r p : no_dot (pin_node_uuid r p) = false.
Proof.
  unfold pin_node_uuid. rewrite no_dot_app. simpl. apply andb_false_r.
Qed.

Lemma str_of_nat_inj n m : str_of_nat n = str_of_nat m -> n = m.
Proof.
  unfold str_of_nat. intros H. apply Unsigned.to_uint_inj.
  pose proof (NilEmpty.usu (Nat.to_uint n)) as Hn. rewrite H, NilEmpty.usu in Hn.
  now inversion Hn.
Qed.

Lemma junction_uuid_inj n m : junction_uuid n = junction_uuid m -> n = m.
Proof.
  unfold junction_uuid. simpl. intros H. inversion H. now apply str_of_nat_inj.
Qed.

Lemma node_for_end_ids pin_ids st x y st' n :
  node_ids pin_ids st -> node_for_end st x y = (st', n) ->
  node_ids pin_ids st' /\ junction_counter st <= junction_counter st'.
Proof.
  intros Hids. unfold node_for_end.
  destruct (dict_get key_eqb (location_to_node st) (location_key x y));
    intros H; inversion H; subst; clear H.
  - split; [assumption | lia].
  - split; [|simpl; lia]. intros m. simpl. rewrite smem_sset_iff, (Hids m). split.
    + intros [<-|[H|[k [Hk E]]]].
      * right. exists (junction_counter st). split; [lia | reflexivity].
      * now left.
      * right. exists k. split; [lia | assumption].
    + intros [H|[k [Hk E]]].
      * right. now left.
      * destruct (Nat.eq_dec k (junction_counter st)) as [->|Hne].
        -- left. now symmetry.
        -- right. right. exists k. split; [lia | assumption].
Qed.

Lemma add_wires_ids pin_ids wires :
  forall st, node_ids pin_ids st -> node_ids pin_ids (fold_left add_wire wires st).
Proof.
  induction wires as [|[u w] wires IH]; intros st Hids; simpl; [assumption|].
  apply IH. unfold add_wire. simpl.
  destruct (node_for_end st (a_x w) (a_y w)) as [st1 na] eqn:Ea.
  destruct (node_for_end st1 (b_x w) (b_y w)) as [st2 nb] eqn:Eb.
  destruct (node_for_end_ids _ _ _ _ _ _ Hids Ea) as [H1 _].
  destruct (node_for_end_ids _ _ _ _ _ _ H1 Eb) as [H2 _].
  exact H2.
Qed.

Lemma pins_state_ids pins :
  node_ids (is_pin_id pins) (fold_left add_pins pins builder_init).
Proof.
  intros n. rewrite pins_state_nodes. split; [now left|].
  intros [H|[k [Hk _]]]; [assumption|].
  rewrite fold_add_pins, add_flat_pins_counter in Hk. simpl in Hk. lia.
Qed.

(** X8.  The nodes of the graph are the pins, under the id made of the
    reference designator and the pin name, and the junctions, numbered from
    zero without a gap in the order of their creation. *)
Theorem build_graph_node_ids pins wires n :
  smem (nodes (build_graph pins wires)) n = true <->
  is_pin_id pins n \/
  exists k, k < junction_counter (build_state pins wires) /\ n = junction_uuid k.
Proof.
  exact (add_wires_ids _ wires _ (pins_state_ids pins) n).
Qed.

(** *** Junctions are new nodes *)

Lemma node_for_end_length pin_ids st x y st' n :
  (forall m, pin_ids m -> no_dot m = false) ->
  node_ids pin_ids st -> node_for_end st x y = (st', n) ->
  List.length (b_nodes st') + junction_counter st =
  List.length (b_nodes st) + junction_counter st'.
Proof.
  intros Hdot Hids. unfold node_for_end.
  destruct (dict_get key_eqb (location_to_node st) (location_key x y));
    intros H; inversion H; subst; clear H; [reflexivity|].
  simpl. rewrite smem_false_length; [lia|].
  destruct (smem (b_nodes st) (junction_uuid (junction_counter st))) eqn:E; [|reflexivity].
  apply Hids in E. destruct E as [E|[k [Hk E]]].
  - apply Hdot in E. rewrite no_dot_junction in E. discriminate.
  - apply junction_uuid_inj in E. lia.
Qed.

Lemma add_wires_length pin_ids wires :
  (forall m, pin_ids m -> no_dot m = false) ->
  forall st, node_ids pin_ids st ->
    List.length (b_nodes (fold_left add_wire wires st)) + junction_counter st =
    List.length (b_nodes st) + junction_counter (fold_left add_wire wires st).
Proof.
  intros Hdot. induction wires as [|[u w] wires IH]; intros st Hids; simpl; [reflexivity|].
  assert (Hstep : node_ids pin_ids (add_wire st (u, w)) /\
                  List.length (b_nodes (add_wire st (u, w))) + junction_counter st =
                  List.length (b_nodes st) + junction_counter (add_wire st (u, w))).
  { unfold add_wire. simpl.
    destruct (node_for_end st (a_x w) (a_y w)) as [st1 na] eqn:Ea.
    destruct (node_for_end st1 (b_x w) (b_y w)) as [st2 nb] eqn:Eb.
    destruct (node_for_end_ids _ _ _ _ _ _ Hids Ea) as [H1 _].
    destruct (node_for_end_ids _ _ _ _ _ _ H1 Eb) as [H2 _].
    pose proof (node_for_end_length _ _ _ _ _ _ Hdot Hids Ea).
    pose proof (node_for_end_length _ _ _ _ _ _ Hdot H1 Eb).
    simpl. split; [exact H2 | lia]. }
  destruct Hstep as [Hids' Hlen]. pose proof (IH _ Hids'). lia.
Qed.

(** X9.  A junction never takes the place of a node that exists: the
    graph has as many nodes as the graph of the pins alone, and one more
    for every junction created. *)
Theorem build_graph_junctions_fresh pins wires :
  List.length (nodes (build_graph pins wires)) =
  List.length (nodes (build_graph pins [])) + junction_counter (build_state pins wires).
Proof.
  simpl. unfold build_state at 1 2.
  pose proof (add_wires_length (is_pin_id pins) wires) as H.
  specialize (H ltac:(intros m [r [ps [p [c [_ [_ ->]]]]]]; apply no_dot_pin) _ (pins_state_ids pins)).
  rewrite fold_add_pins, add_flat_pins_counter in H. simpl in H.
  rewrite fold_add_pins. unfold build_state. rewrite fold_add_pins. simpl. lia.
Qed.

Example build_graph_junction_count :
  junction_counter (build_state ex_pins_apart ex_wires_apart) = 1 /\
  List.length (nodes (build_graph ex_pins_apart ex_wires_apart)) = 3.
Proof. split; vm_compute; reflexivity. Qed.


(** ** The path resolution loop: the run that succeeds *)

Lemma resolve_instance_ok g i i' :
  resolve_instance g i = Ok i' ->
  resolvable g i /\ resolved_from g i i'.
Proof.
  unfold resolve_instance.
  destruct (smem (nodes g) (from_node_id_of i)) eqn:Ef; simpl; [|discriminate].
  destruct (smem (nodes g) (to_node_id_of i)) eqn:Et; simpl; [|discriminate].
  pose proof (find_path_spec g (from_node_id_of i) (to_node_id_of i)) as Hs.
  destruct (find_path g (from_node_id_of i) (to_node_id_of i)) as [p| |];
    intros H; inversion H; subst; clear H.
  destruct Hs as [Hw Hmin].
  split.
  - split; [exact Ef|]. split; [exact Et|]. now exists p.
  - exists p. split; [reflexivity|]. split; assumption.
Qed.

Lemma resolve_instance_resolvable g i :
  ids_nonempty (segments g) -> resolvable g i -> exists i', resolve_instance g i = Ok i'.
Proof.
  intros Hne [Hf [Ht [q Hq]]]. unfold resolve_instance. rewrite Hf, Ht. simpl.
  pose proof (find_path_spec g (from_node_id_of i) (to_node_id_of i)) as Hs.
  destruct (find_path g (from_node_id_of i) (to_node_id_of i)) as [p| |].
  - now eexists.
  - exfalso. exact (Hs Hne q Hq).
  - contradiction.
Qed.

Lemma resolve_instance_errors g i e :
  resolve_instance g i = Err e -> exists msg, e = ValueError msg.
Proof.
  unfold resolve_instance.
  destruct (smem (nodes g) (from_node_id_of i)); simpl.
  2:{ intros H. inversion H. now eexists. }
  destruct (smem (nodes g) (to_node_id_of i)); simpl.
  2:{ intros H. inversion H. now eexists. }
  pose proof (find_path_spec g (from_node_id_of i) (to_node_id_of i)) as Hs.
  destruct (find_path g (from_node_id_of i) (to_node_id_of i)) as [p| |];
    intros H; inversion H; subst; [now eexists | contradiction].
Qed.

Lemma resolve_paths_inv g instances :
  forall n out count,
    resolve_paths g instances n = Ok (out, count) ->
    count = n + List.length instances /\
    Forall2 (fun i i' => resolvable g i /\ resolved_from g i i') instances out.
Proof.
  induction instances as [|i rest IH]; intros n out count; simpl.
  - intros H. inversion H; subst. split; [lia | constructor].
  - destruct (resolve_instance g i) as [i'|e] eqn:Ei; simpl; [|discriminate].
    destruct (resolve_paths g rest (S n)) as [[out' c']|e] eqn:Er; simpl; [|discriminate].
    intros H. inversion H; subst. destruct (IH _ _ _ Er) as [Hc Hall].
    split; [lia|]. constructor; [|assumption]. now apply resolve_instance_ok.
Qed.

Lemma walk_segments segs n p m :
  walk segs n p m -> forall e, In e p -> smem segs (fst e) = true.
Proof.
  revert n. induction p as [|e0 p IH]; intros n Hw e Hin; [contradiction|].
  destruct Hw as [k [[sg [Hsg _]] Hw]]. destruct Hin as [<-|Hin].
  - unfold smem, dict_mem. fold (sget segs (fst e0)).
    clear - Hsg. induction segs as [|[k0 v0] segs IH]; [contradiction|].
    unfold sget. simpl. destruct (String.eqb_spec k0 (fst e0)) as [E|E]; [reflexivity|].
    destruct Hsg as [H|H]; [inversion H; subst; contradiction | now apply IH].
  - exact (IH k Hw e Hin).
Qed.

Lemma combine_fst_snd {A B} (p : list (A * B)) : combine (map fst p) (map snd p) = p.
Proof. induction p as [|[a b] p IH]; simpl; [reflexivity | now rewrite IH]. Qed.

(** What the loop stores in a connection: the segments and the
    directions of one path, of the same length, which is
    [total_segments]; the segments are segments of the graph. *)
Lemma resolved_paths_in_graph g instances out :
  Forall2 (fun i i' => resolvable g i /\ resolved_from g i i') instances out ->
  forall i', In i' out ->
    exists segs dirs,
      graph_path_segments i' = Some segs /\ graph_path_directions i' = Some dirs /\
      total_segments i' = Some (List.length segs) /\
      List.length dirs = List.length segs /\
      combine segs dirs = combine (path_segments_of i') (path_directions_of i') /\
      List.length (combine segs dirs) = List.length segs /\
      forall s, In s segs -> smem (segments g) s = true.
Proof.
  induction 1 as [|i i0 l l' [_ [p [-> [Hw _]]]] _ IH]; intros i' Hin; [contradiction|].
  destruct Hin as [<-|Hin]; [|now apply IH].
  exists (map fst p), (map snd p).
  unfold path_segments_of, path_directions_of.
  cbn [store_path graph_path_segments graph_path_directions total_segments].
  repeat split.
  - now rewrite !length_map.
  - now rewrite combine_fst_snd, length_map.
  - intros s Hs. apply in_map_iff in Hs. destruct Hs as [e [<- He]].
    exact (walk_segments _ _ _ _ Hw e He).
Qed.

(** X10.  When the loop completes, every connection was counted, and
    every connection carries, in the order of the input, a path of the
    graph from its from-node to its to-node, with both nodes in the graph:
    a list of segments of the graph and a list of directions of the same
    length, which is its [total_segments]. *)
Theorem resolve_paths_postcondition g instances n out count :
  resolve_paths g instances n = Ok (out, count) ->
  count = n + List.length instances /\
  Forall2 (fun i i' => resolvable g i /\ resolved_from g i i') instances out /\
  Forall (fun i' =>
            exists segs dirs,
              graph_path_segments i' = Some segs /\ graph_path_directions i' = Some dirs /\
              total_segments i' = Some (List.length segs) /\
              List.length dirs = List.length segs /\
              forall s, In s segs -> smem (segments g) s = true) out.
Proof.
  intros H. destruct (resolve_paths_inv g instances n out count H) as [Hc Hall].
  split; [exact Hc|]. split; [exact Hall|].
  apply Forall_forall. intros i' Hin.
  destruct (resolved_paths_in_graph g instances out Hall i' Hin)
    as [segs [dirs [H1 [H2 [H3 [H4 [_ [_ H5]]]]]]]].
  exists segs, dirs. repeat split; assumption.
Qed.

Lemma resolve_paths_postcondition_witness :
  1 = 0 + List.length [ex_good] /\
  Forall2 (fun i i' => resolvable ex_line i /\ resolved_from ex_line i i')
    [ex_good] [store_path ex_good [("W1"%string, a_to_b)]] /\
  Forall (fun i' =>
            exists segs dirs,
              graph_path_segments i' = Some segs /\ graph_path_directions i' = Some dirs /\
              total_segments i' = Some (List.length segs) /\
              List.length dirs = List.length segs /\
              forall s, In s segs -> smem (segments ex_line) s = true)
    [store_path ex_good [("W1"%string, a_to_b)]].
Proof.
  apply (resolve_paths_postcondition ex_line [ex_good] 0).
  vm_compute. reflexivity.
Defined.

(** X11.  On a graph whose segment ends are named, the loop completes
    exactly when every connection has both of its nodes in the graph and a
    path between them. *)
Theorem resolve_paths_succeeds_iff g instances n :
  ids_nonempty (segments g) ->
  (exists out, resolve_paths g instances n = Ok (out, n + List.length instances))
  <-> Forall (resolvable g) instances.
Proof.
  intros Hne. split.
  - intros [out H]. apply resolve_paths_inv in H. destruct H as [_ H].
    induction H as [|i i' l l' [Hr _] _ IH]; constructor; assumption.
  - revert n. induction instances as [|i rest IH]; intros n Hall; simpl.
    + exists []. f_equal. f_equal. lia.
    + inversion Hall as [|? ? Hi Hrest]; subst.
      destruct (resolve_instance_resolvable g i Hne Hi) as [i' ->]. simpl.
      destruct (IH (S n) Hrest) as [out ->]. simpl.
      exists (i' :: out). f_equal. f_equal. lia.
Qed.

Lemma ex_line_ids : ids_nonempty (segments ex_line).
Proof.
  intros u sg H. simpl in H. destruct H as [H|[]]. inversion H; subst. simpl.
  split; discriminate.
Defined.

Lemma resolve_paths_succeeds_iff_witness :
  (exists out, resolve_paths ex_line [ex_good] 0 = Ok (out, 0 + List.length [ex_good]))
  <-> Forall (resolvable ex_line) [ex_good].
Proof.
  apply (resolve_paths_succeeds_iff ex_line [ex_good] 0). exact ex_line_ids.
Defined.

(** X12.  The search of one connection always ends within its budget of
    iterations, so the only exception that leaves the loop is a
    [ValueError]. *)
Theorem resolve_paths_errors g instances n e :
  resolve_paths g instances n = Err e -> exists msg, e = ValueError msg.
Proof.
  revert n. induction instances as [|i rest IH]; intros n; simpl; [discriminate|].
  destruct (resolve_instance g i) as [i'|e'] eqn:Ei; simpl.
  - destruct (resolve_paths g rest (S n)) as [[out' c']|e'] eqn:Er; simpl; [discriminate|].
    intros H. inversion H; subst. now apply (IH (S n)).
  - intros H. inversion H; subst. now apply (resolve_instance_errors g i).
Qed.

Lemma resolve_paths_errors_witness :
  exists msg, ValueError "To node 'C.in9' not found in graph for cable-0" = ValueError msg.
Proof.
  apply (resolve_paths_errors ex_line [ex_bad; ex_good] 0).
  vm_compute. reflexivity.
Defined.

(** *** The shape of a resolved path *)

Lemma walk_app segs n p q m :
  walk segs n (p ++ q) m <-> exists k, walk segs n p k /\ walk segs k q m.
Proof.
  revert n. induction p as [|e p IH]; intros n; simpl.
  - split.
    + intros H. now exists n.
    + intros [k [-> H]]. exact H.
  - split.
    + intros [k0 [Hh Hw]]. apply IH in Hw. destruct Hw as [k [H1 H2]].
      exists k. split; [now exists k0 | exact H2].
    + intros [k [[k0 [Hh H1]] H2]]. exists k0. split; [exact Hh|].
      apply IH. now exists k.
Qed.

(** X13.  On a graph whose segment ends are named, the path that the
    search returns has no loop: no part of it leaves a node and comes back
    to it. *)
Theorem find_path_no_loop g from_node_id to_node_id p before loop after k :
  ids_nonempty (segments g) ->
  find_path g from_node_id to_node_id = Found p ->
  p = before ++ loop ++ after ->
  walk (segments g) from_node_id before k ->
  walk (segments g) k loop k ->
  walk (segments g) k after to_node_id ->
  loop = [].
Proof.
  intros Hne Hf Hp Hb Hl Ha.
  pose proof (find_path_spec g from_node_id to_node_id) as Hs. rewrite Hf in Hs.
  destruct Hs as [_ Hmin].
  assert (Hshort : walk (segments g) from_node_id (before ++ after) to_node_id).
  { apply walk_app. now exists k. }
  pose proof (Hmin Hne _ Hshort) as Hlen. subst p.
  rewrite !length_app in Hlen.
  destruct loop as [|e loop]; [reflexivity | simpl in Hlen; lia].
Qed.

Lemma find_path_no_loop_witness :
  @nil (string * direction) = [].
Proof.
  apply (find_path_no_loop ex_line "A.out1" "B.in1" [("W1"%string, a_to_b)]
           [("W1"%string, a_to_b)] [] [] "B.in1").
  - exact ex_line_ids.
  - reflexivity.
  - reflexivity.
  - exists "B.in1"%string. split; [|reflexivity].
    exists {| node_at_end_a := "A.out1"; node_at_end_b := "B.in1" |}.
    split; [now left | split; reflexivity].
  - reflexivity.
  - reflexivity.
Defined.


(** ** The bundle points of a run *)

Lemma sget_In {V} (d : sdict V) k v : sget d k = Some v -> In (k, v) d.
Proof.
  unfold sget. induction d as [|[k0 v0] d IH]; simpl; [discriminate|].
  destruct (String.eqb_spec k0 k) as [->|Hne].
  - intros H. inversion H. now left.
  - intros H. right. now apply IH.
Qed.

Lemma smem_sget {V} (d : sdict V) k : smem d k = true -> exists v, sget d k = Some v.
Proof.
  unfold smem, dict_mem. fold (sget d k). destruct (sget d k) as [v|]; [now eexists | discriminate].
Qed.

Lemma In_smem {V} (d : sdict V) k v : In (k, v) d -> smem d k = true.
Proof.
  intros H. apply smem_In. unfold dict_keys. apply in_map_iff. now exists (k, v).
Qed.

Lemma lookup_store_point points node_id seg_uuid inst_name p n s i :
  lookup_point (store_point points node_id seg_uuid inst_name p) n s i =
  if String.eqb node_id n && String.eqb seg_uuid s && String.eqb inst_name i
  then Some p else lookup_point points n s i.
Proof.
  unfold lookup_point, store_point. rewrite sget_sset.
  destruct (String.eqb_spec node_id n) as [->|Hn]; simpl; [|reflexivity].
  rewrite sget_sset.
  destruct (String.eqb_spec seg_uuid s) as [->|Hs]; simpl.
  - rewrite sget_sset. destruct (String.eqb_spec inst_name i) as [->|Hi]; [reflexivity|].
    destruct (sget points n) as [by_segment|]; [|reflexivity].
    destruct (sget by_segment s); reflexivity.
  - destruct (sget points n) as [by_segment|]; reflexivity.
Qed.

Lemma points_grow_refl points : points_grow points points.
Proof. intros n s i H. exact H. Qed.

Lemma points_grow_trans p1 p2 p3 : points_grow p1 p2 -> points_grow p2 p3 -> points_grow p1 p3.
Proof. intros H1 H2 n s i H. apply H2, H1, H. Qed.

Lemma store_point_grow points node_id seg_uuid inst_name p :
  points_grow points (store_point points node_id seg_uuid inst_name p) /\
  has_point (store_point points node_id seg_uuid inst_name p) node_id seg_uuid inst_name.
Proof.
  split.
  - intros n s i [q Hq]. unfold has_point. rewrite lookup_store_point.
    destruct (_ && _); eexists; [reflexivity | exact Hq].
  - unfold has_point. rewrite lookup_store_point, !String.eqb_refl. simpl. now eexists.
Qed.

Section BundlePoints.
Local Open Scope R_scope.

Lemma bundle_point_total x y radius seg_angle (num idx : nat) :
  exists p, bundle_point x y radius seg_angle num idx = Ok p.
Proof.
  unfold bundle_point.
  destruct (delta_angle_cases (center_offset_from_count_inches idx num * 25.4) radius)
    as [[_ H]|[[_ [_ H]]|[_ [_ H]]]]; rewrite H; simpl; eexists; reflexivity.
Qed.

Lemma place_instances_spec node_id seg_uuid x y radius seg_angle (num : nat) names :
  forall (idx : nat) st,
  exists st',
    place_instances node_id seg_uuid x y radius seg_angle num idx names st = Ok st' /\
    points_grow (fst st) (fst st') /\
    (forall name, In name names -> has_point (fst st') node_id seg_uuid name) /\
    snd st' = (snd st + List.length names)%nat.
Proof.
  induction names as [|name names IH]; intros idx st; simpl.
  - exists st. split; [reflexivity|]. split; [apply points_grow_refl|].
    split; [intros ? []|lia].
  - destruct (bundle_point_total x y radius seg_angle num idx) as [p ->]. simpl.
    destruct (IH (S idx) (store_point (fst st) node_id seg_uuid name p, S (snd st)))
      as [st' [E [Hg [Hn Hc]]]].
    exists st'. split; [exact E|]. simpl in Hg, Hc.
    destruct (store_point_grow (fst st) node_id seg_uuid name p) as [Hg0 Hh0].
    split; [eapply points_grow_trans; eassumption|].
    split; [|lia].
    intros name' [<-|Hin]; [now apply Hg | now apply Hn].
Qed.

Lemma in_placement_order insts flips seg_uuid name :
  In name (placement_order insts flips seg_uuid) <->
  In name (instances_using_segment insts seg_uuid).
Proof.
  unfold placement_order.
  assert (Hs : In name (py_sort (instances_using_segment insts seg_uuid)) <->
               In name (instances_using_segment insts seg_uuid)).
  { split; apply Permutation_in; [|apply Permutation_sym]; apply py_sort_perm. }
  destruct (sget flips seg_uuid) as [[|]|]; [|exact Hs|exact Hs].
  rewrite <- in_rev. exact Hs.
Qed.

Lemma in_instances_using_segment insts seg_uuid i :
  In i insts -> In seg_uuid (path_segments_of i) ->
  In (instance_name i) (instances_using_segment insts seg_uuid).
Proof.
  intros Hi Hs. unfold instances_using_segment. apply in_map. apply filter_In.
  split; [assumption|]. now apply str_in_iff.
Qed.

Lemma bundle_segment_spec insts node_id x y radius flips st item :
  exists st',
    bundle_segment insts node_id x y radius flips st item = Ok st' /\
    points_grow (fst st) (fst st') /\
    (forall name, In name (instances_using_segment insts (snd item)) ->
                  has_point (fst st') node_id (snd item) name).
Proof.
  unfold bundle_segment.
  destruct (instances_using_segment insts (snd item)) as [|n0 l] eqn:E.
  - exists st. split; [reflexivity|]. split; [apply points_grow_refl | intros ? []].
  - destruct (place_instances_spec node_id (snd item) x y radius (fst item)
                (List.length (placement_order insts flips (snd item)))
                (placement_order insts flips (snd item)) 1%nat st)
      as [st' [E' [Hg [Hn _]]]].
    exists st'. split; [exact E'|]. split; [exact Hg|].
    intros name Hin. apply Hn. apply in_placement_order. now rewrite E.
Qed.

Lemma bundle_segments_spec insts node_id x y radius flips items :
  forall st,
  exists st',
    fold_result (bundle_segment insts node_id x y radius flips) items st = Ok st' /\
    points_grow (fst st) (fst st') /\
    (forall item name, In item items ->
       In name (instances_using_segment insts (snd item)) ->
       has_point (fst st') node_id (snd item) name).
Proof.
  induction items as [|item items IH]; intros st; simpl.
  - exists st. split; [reflexivity|]. split; [apply points_grow_refl | intros ? ? []].
  - destruct (bundle_segment_spec insts node_id x y radius flips st item)
      as [st1 [E1 [Hg1 Hn1]]].
    rewrite E1. simpl. destruct (IH st1) as [st' [E' [Hg' Hn']]].
    exists st'. split; [exact E'|]. split; [eapply points_grow_trans; eassumption|].
    intros item' name [<-|Hin] Hname; [apply Hg'; now apply Hn1 | now apply Hn'].
Qed.

(** The loop over the segments, at one node of a graph whose segment
    ends are nodes. *)
Lemma scan_segments_spec g node_id node_coords segs :
  (forall u sg, In (u, sg) segs ->
     smem (nodes g) (node_at_end_a sg) = true /\ smem (nodes g) (node_at_end_b sg) = true) ->
  forall acc,
    List.length (node_segment_angles acc) = List.length (node_segments acc) ->
    exists scan,
      fold_result (scan_segment g node_id node_coords) segs acc = Ok scan /\
      List.length (node_segment_angles scan) = List.length (node_segments scan) /\
      (forall u, In u (node_segments acc) -> In u (node_segments scan)) /\
      (forall u sg, In (u, sg) segs ->
         node_at_end_a sg = node_id \/ node_at_end_b sg = node_id ->
         In u (node_segments scan)).
Proof.
  induction segs as [|[u0 sg0] segs IH]; intros Hcl acc Hlen; simpl.
  - exists acc. split; [reflexivity|]. split; [assumption|]. split; [auto | intros ? ? []].
  - destruct (Hcl u0 sg0 (or_introl eq_refl)) as [Ha Hb].
    apply smem_sget in Ha, Hb. destruct Ha as [ca Ha], Hb as [cb Hb].
    assert (Hcl' : forall u sg, In (u, sg) segs ->
              smem (nodes g) (node_at_end_a sg) = true /\
              smem (nodes g) (node_at_end_b sg) = true).
    { intros u sg H. apply (Hcl u sg). now right. }
    unfold scan_segment at 1. cbn [fst snd].
    destruct (String.eqb_spec (node_at_end_a sg0) node_id) as [Ea|Ea].
    + rewrite Hb. cbn [bind].
      match goal with |- context [fold_result _ segs ?a] => destruct (IH Hcl' a) as [scan [E [Hl [Hm Hs]]]] end.
      { cbn. rewrite !length_app. simpl. lia. }
      exists scan. split; [exact E|]. split; [exact Hl|]. split.
      * intros u Hu. apply Hm. cbn. apply in_or_app. now left.
      * intros u sg [Heq|Hin] Hends; [|now apply (Hs u sg)].
        inversion Heq; subst. apply Hm. cbn. apply in_or_app. right. now left.
    + destruct (String.eqb_spec (node_at_end_b sg0) node_id) as [Eb|Eb].
      * rewrite Ha. cbn [bind].
        match goal with |- context [fold_result _ segs ?a] => destruct (IH Hcl' a) as [scan [E [Hl [Hm Hs]]]] end.
        { cbn. rewrite !length_app. simpl. lia. }
        exists scan. split; [exact E|]. split; [exact Hl|]. split.
        -- intros u Hu. apply Hm. cbn. apply in_or_app. now left.
        -- intros u sg [Heq|Hin] Hends; [|now apply (Hs u sg)].
           inversion Heq; subst. apply Hm. cbn. apply in_or_app. right. now left.
      * cbn [bind]. destruct (IH Hcl' acc Hlen) as [scan [E [Hl [Hm Hs]]]].
        exists scan. split; [exact E|]. split; [exact Hl|]. split; [exact Hm|].
        intros u sg [Heq|Hin] Hends; [|now apply (Hs u sg)].
        inversion Heq; subst. destruct Hends; contradiction.
Qed.

Lemma in_combine_snd {A B} (l : list A) (l' : list B) b :
  List.length l = List.length l' -> In b l' -> exists a, In (a, b) (combine l l').
Proof.
  revert l'. induction l as [|a l IH]; intros [|b' l'] Hlen Hin; simpl in *;
    try contradiction; try discriminate.
  destruct Hin as [<-|Hin].
  - exists a. now left.
  - destruct (IH l' ltac:(lia) Hin) as [a' Ha']. exists a'. now right.
Qed.

Lemma components_in_node_pos insts segs i seg_uuid :
  In i insts -> In seg_uuid (path_segments_of i) -> In seg_uuid segs ->
  components_in_node insts segs <> 0%nat.
Proof.
  intros Hi Hp Hs.
  destruct (components_in_node_distinct insts segs) as [seen [_ [Hlen Hseen]]].
  assert (Hin : In (parent_name i) seen).
  { apply Hseen. exists i. split; [assumption|]. split; [|reflexivity].
    unfold passes_through. apply existsb_exists. exists seg_uuid.
    split; [assumption | now apply str_in_iff]. }
  rewrite <- Hlen. destruct seen; [contradiction | discriminate].
Qed.

Lemma bundle_node_spec g insts st node_id node_coords :
  graph_closed g ->
  exists st',
    bundle_node g insts st (node_id, node_coords) = Ok st' /\
    points_grow (fst st) (fst st') /\
    (forall seg_uuid sg i,
       In (seg_uuid, sg) (segments g) ->
       node_at_end_a sg = node_id \/ node_at_end_b sg = node_id ->
       In i insts -> In seg_uuid (path_segments_of i) ->
       has_point (fst st') node_id seg_uuid (instance_name i)).
Proof.
  intros Hcl. unfold bundle_node. cbn [fst snd].
  destruct (scan_segments_spec g node_id node_coords (segments g) Hcl node_scan_init eq_refl)
    as [scan [E [Hlen [_ Hs]]]].
  rewrite E. cbn [bind].
  destruct (Nat.eqb_spec (components_in_node insts (node_segments scan)) 0) as [E0|E0].
  - exists st. split; [reflexivity|]. split; [apply points_grow_refl|].
    intros seg_uuid sg i Hin Hends Hi Hp. exfalso.
    exact (components_in_node_pos insts _ i seg_uuid Hi Hp (Hs _ _ Hin Hends) E0).
  - match goal with |- context [fold_result ?f ?l st] =>
      destruct (bundle_segments_spec insts node_id
                  (Q2R (node_x node_coords) * 25.4) (Q2R (node_y node_coords) * 25.4)
                  (node_radius_inches (components_in_node insts (node_segments scan)) * 25.4)
                  (flip_sort scan) l st) as [st' [E' [Hg Hn]]] end.
    exists st'. split; [exact E'|]. split; [exact Hg|].
    intros seg_uuid sg i Hin Hends Hi Hp.
    destruct (in_combine_snd _ _ seg_uuid Hlen (Hs _ _ Hin Hends)) as [a Ha].
    apply (Hn (a, seg_uuid) (instance_name i) Ha).
    now apply in_instances_using_segment.
Qed.

Lemma bundle_nodes_spec g insts items :
  graph_closed g ->
  forall st,
  exists st',
    fold_result (bundle_node g insts) items st = Ok st' /\
    points_grow (fst st) (fst st') /\
    (forall node_id node_coords seg_uuid sg i,
       In (node_id, node_coords) items ->
       In (seg_uuid, sg) (segments g) ->
       node_at_end_a sg = node_id \/ node_at_end_b sg = node_id ->
       In i insts -> In seg_uuid (path_segments_of i) ->
       has_point (fst st') node_id seg_uuid (instance_name i)).
Proof.
  intros Hcl. induction items as [|[n c] items IH]; intros st; simpl.
  - exists st. split; [reflexivity|]. split; [apply points_grow_refl|].
    intros ? ? ? ? ? [].
  - destruct (bundle_node_spec g insts st n c Hcl) as [st1 [E1 [Hg1 Hn1]]].
    rewrite E1. cbn [bind]. destruct (IH st1) as [st' [E' [Hg' Hn']]].
    exists st'. split; [exact E'|]. split; [eapply points_grow_trans; eassumption|].
    intros node_id node_coords seg_uuid sg i [Heq|Hin] Hseg Hends Hi Hp.
    + inversion Heq; subst. apply Hg'. now apply (Hn1 seg_uuid sg i).
    + now apply (Hn' node_id node_coords seg_uuid sg i).
Qed.

(** On a graph whose segment ends are nodes, the bundle points are
    computed without an exception, for any list of connections, and a
    point is stored at both ends of every segment of the graph that the
    path of a connection names. *)
Lemma bundle_points_spec g insts :
  graph_closed g ->
  exists points count,
    bundle_points g insts = Ok (points, count) /\
    forall seg_uuid sg i,
      In (seg_uuid, sg) (segments g) ->
      In i insts -> In seg_uuid (path_segments_of i) ->
      has_point points (node_at_end_a sg) seg_uuid (instance_name i) /\
      has_point points (node_at_end_b sg) seg_uuid (instance_name i).
Proof.
  intros Hcl. unfold bundle_points.
  destruct (bundle_nodes_spec g insts (nodes g) Hcl ([], 0%nat)) as [[points count] [E [_ Hn]]].
  exists points, count. split; [exact E|].
  intros seg_uuid sg i Hseg Hi Hp. destruct (Hcl _ _ Hseg) as [Ha Hb].
  apply smem_sget in Ha, Hb. destruct Ha as [ca Ha], Hb as [cb Hb].
  apply sget_In in Ha, Hb. cbn [fst] in Hn. split.
  - apply (Hn _ ca seg_uuid sg i Ha Hseg (or_introl eq_refl) Hi Hp).
  - apply (Hn _ cb seg_uuid sg i Hb Hseg (or_intror eq_refl) Hi Hp).
Qed.


Lemma ex_line_closed : graph_closed ex_line.
Proof.
  intros u sg H. simpl in H. destruct H as [H|[]]. inversion H; subst.
  split; reflexivity.
Defined.


(** A segment whose end is not a node stops the computation. *)
Example bundle_points_dangling_segment :
  bundle_points
    {| nodes := [("A.out1"%string, ex_line_a)];
       segments := [("W1", {| node_at_end_a := "A.out1"; node_at_end_b := "B.in1" |})]%string |}
    [] = Err (KeyError "B.in1").
Proof. reflexivity. Qed.

(** *** The chain of a connection *)

Lemma chain_at_has_point points node_id seg_uuid inst_name tangent :
  has_point points node_id seg_uuid inst_name ->
  List.length (chain_at points node_id seg_uuid inst_name tangent) = 1%nat.
Proof. intros [p Hp]. unfold chain_at. now rewrite Hp. Qed.

Lemma chain_segment_complete g points i step :
  graph_closed g ->
  (forall seg_uuid sg,
     In (seg_uuid, sg) (segments g) -> In seg_uuid (path_segments_of i) ->
     has_point points (node_at_end_a sg) seg_uuid (instance_name i) /\
     has_point points (node_at_end_b sg) seg_uuid (instance_name i)) ->
  In (fst step) (path_segments_of i) ->
  smem (segments g) (fst step) = true ->
  exists l, chain_segment g points (instance_name i) step = Ok l /\ List.length l = 2%nat.
Proof.
  intros Hcl Hpts Hp Hs. unfold chain_segment.
  apply smem_sget in Hs. destruct Hs as [sg Hs]. rewrite Hs.
  apply sget_In in Hs. destruct (Hcl _ _ Hs) as [Ha Hb].
  apply smem_sget in Ha, Hb. destruct Ha as [ca Ha], Hb as [cb Hb]. rewrite Ha, Hb.
  destruct (Hpts _ _ Hs Hp) as [Pa Pb].
  destruct (snd step); eexists; (split; [reflexivity|]);
    rewrite length_app, !chain_at_has_point by assumption; reflexivity.
Qed.

Lemma chain_steps_complete g points i steps :
  graph_closed g ->
  (forall seg_uuid sg,
     In (seg_uuid, sg) (segments g) -> In seg_uuid (path_segments_of i) ->
     has_point points (node_at_end_a sg) seg_uuid (instance_name i) /\
     has_point points (node_at_end_b sg) seg_uuid (instance_name i)) ->
  (forall step, In step steps ->
     In (fst step) (path_segments_of i) /\ smem (segments g) (fst step) = true) ->
  exists chain,
    chain_steps g points (instance_name i) steps = Ok chain /\
    List.length chain = (2 * List.length steps)%nat.
Proof.
  intros Hcl Hpts. induction steps as [|step steps IH]; intros Hsteps; simpl.
  - now exists [].
  - destruct (Hsteps step (or_introl eq_refl)) as [Hp Hs].
    destruct (chain_segment_complete g points i step Hcl Hpts Hp Hs) as [l [-> Hl]].
    destruct IH as [chain [-> Hc]]; [intros s Hin; apply Hsteps; now right|].
    cbn [bind]. eexists. split; [reflexivity|]. rewrite length_app. lia.
Qed.

(** X15.  With the bundle points of the run, on a graph whose segment
    ends are nodes, the chain of a connection whose path lies in the
    graph is assembled without an exception and has exactly two points
    for every segment of the path: no bundle point is ever missing. *)
Theorem point_chain_complete g insts points count i :
  graph_closed g ->
  bundle_points g insts = Ok (points, count) ->
  In i insts ->
  (forall s, In s (path_segments_of i) -> smem (segments g) s = true) ->
  exists chain,
    point_chain g points i = Ok chain /\
    List.length chain =
    (2 * List.length (combine (path_segments_of i) (path_directions_of i)))%nat.
Proof.
  intros Hcl Hb Hi Hpath.
  destruct (bundle_points_spec g insts Hcl) as [points' [count' [E Hpts]]].
  rewrite Hb in E. inversion E; subst points' count'.
  unfold point_chain. apply chain_steps_complete.
  - exact Hcl.
  - intros seg_uuid sg Hseg Hp. now apply Hpts.
  - intros [s d] Hin. apply in_combine_l in Hin. cbn [fst]. split; [assumption | now apply Hpath].
Qed.

Lemma point_chain_complete_witness :
  exists points count chain,
    bundle_points ex_line ex_three = Ok (points, count) /\
    point_chain ex_line points
      (store_path (ex_connection "cable-b" "A" "out1" "B" "in1") [("W1"%string, a_to_b)])
      = Ok chain /\
    List.length chain = 2%nat.
Proof.
  destruct (bundle_points_spec ex_line ex_three ex_line_closed) as [points [count [E _]]].
  exists points, count.
  destruct (point_chain_complete ex_line ex_three points count
              (store_path (ex_connection "cable-b" "A" "out1" "B" "in1")
                 [("W1"%string, a_to_b)])
              ex_line_closed E (or_introl eq_refl)) as [chain [H1 H2]].
  - intros s [<-|[]]. reflexivity.
  - exists chain. split; [exact E|]. split; [exact H1 | exact H2].
Defined.
End BundlePoints.


(** ** From the schematic to the chains *)

(** X16.  Once the paths of all connections are resolved on the graph
    built from the schematic, the rest of the geometry never raises: the
    bundle points are computed, and the chain of every connection has
    exactly two points for each of its [total_segments] segments. *)
Theorem overlay_chains_complete pins wires instances out count :
  resolve_paths (build_graph pins wires) instances 0 = Ok (out, count) ->
  exists points point_count,
    bundle_points (build_graph pins wires) out = Ok (points, point_count) /\
    Forall (fun i' =>
              exists chain n,
                point_chain (build_graph pins wires) points i' = Ok chain /\
                total_segments i' = Some n /\
                List.length chain = 2 * n) out.
Proof.
  intros Hr. apply resolve_paths_inv in Hr. destruct Hr as [_ Hall].
  assert (Hcl : graph_closed (build_graph pins wires)).
  { intros u sg H. exact (proj1 (build_state_closed pins wires) u sg H). }
  destruct (bundle_points_spec _ out Hcl) as [points [point_count [E Hpts]]].
  exists points, point_count. split; [exact E|].
  apply Forall_forall. intros i' Hin.
  destruct (resolved_paths_in_graph _ _ _ Hall i' Hin)
    as [segs [dirs [H1 [H2 [H3 [H4 [H5 [H6 H7]]]]]]]].
  assert (Hsegs : path_segments_of i' = segs) by (unfold path_segments_of; now rewrite H1).
  destruct (chain_steps_complete _ points i'
              (combine (path_segments_of i') (path_directions_of i')) Hcl) as [chain [Hc Hl]].
  - intros seg_uuid sg Hseg Hp. now apply Hpts.
  - intros [s d] Hs. apply in_combine_l in Hs. cbn [fst]. split; [assumption|].
    apply H7. now rewrite <- Hsegs.
  - exists chain, (List.length segs). split; [exact Hc|]. split; [exact H3|].
    now rewrite Hl, <- H5, H6.
Qed.

Lemma overlay_chains_complete_witness :
  exists points point_count,
    bundle_points (build_graph ex_pins_apart ex_wires_apart)
      [store_path (ex_connection "cable-1" "R1" "1" "R2" "1")
         [("w1"%string, a_to_b); ("w2"%string, a_to_b)]] = Ok (points, point_count) /\
    Forall (fun i' =>
              exists chain n,
                point_chain (build_graph ex_pins_apart ex_wires_apart) points i' = Ok chain /\
                total_segments i' = Some n /\
                List.length chain = 2 * n)
      [store_path (ex_connection "cable-1" "R1" "1" "R2" "1")
         [("w1"%string, a_to_b); ("w2"%string, a_to_b)]].
Proof.
  apply (overlay_chains_complete ex_pins_apart ex_wires_apart
           [ex_connection "cable-1" "R1" "1" "R2" "1"] _ 1).
  vm_compute. reflexivity.
Defined.


(** ** The angle of a label *)

Section LabelAngleFacts.
Local Open Scope R_scope.

Lemma py_fmod_360 (a : R) :
  0 <= py_fmod a 360 < 360 /\ exists k : Z, py_fmod a 360 = a - 360 * IZR k.
Proof.
  unfold py_fmod. destruct (base_Int_part (a / 360)) as [H1 H2].
  assert (E : a = 360 * (a / 360)) by (field).
  split; [|now eexists].
  set (q := a / 360) in *. set (n := IZR (Int_part q)) in *. lra.
Qed.

(** X17.  The angle of a label lies in the right half of the circle,
    between 270 and 90 degrees through zero, so that the text is never
    upside down, and it differs from the tangent of the wire by a whole
    number of half turns, so that the text stays parallel to the wire. *)
Theorem label_angle_upright (angle : R) :
  (0 <= label_angle angle <= 90 \/ 270 <= label_angle angle < 360) /\
  exists k : Z, label_angle angle = angle + 180 * IZR k.
Proof.
  unfold label_angle.
  destruct (py_fmod_360 angle) as [[Hlo Hhi] [k0 Hk0]].
  set (a1 := py_fmod angle 360) in *.
  destruct (Rlt_dec a1 0) as [Hneg|_]; [lra|].
  destruct (Rlt_dec 90 a1) as [H90|H90].
  - destruct (Rlt_dec a1 270) as [H270|H270].
    + destruct (py_fmod_360 (a1 + 180)) as [[Hlo' Hhi'] [k Hk]].
      set (r := py_fmod (a1 + 180) 360) in *.
      assert (Hk2 : (k < 2)%Z) by (apply lt_IZR; lra).
      assert (Hk1 : (-1 < k)%Z) by (apply lt_IZR; lra).
      assert (Hc : k = 0%Z \/ k = 1%Z) by lia.
      split.
      * destruct Hc as [-> | ->]; simpl in Hk; lra.
      * exists (1 - 2 * k0 - 2 * k)%Z.
        rewrite !minus_IZR, !mult_IZR. simpl. lra.
    + split; [lra|]. exists (- 2 * k0)%Z. rewrite mult_IZR. simpl. lra.
  - split; [lra|]. exists (- 2 * k0)%Z. rewrite mult_IZR. simpl. lra.
Qed.
End LabelAngleFacts.


(** ** The coordinate compiler: which instances, which pins *)

Section CompilerKeys.
Local Open Scope R_scope.

Lemma compile_instances_keys libs insts :
  forall acc refdes,
    smem (fold_left (compile_instance libs) insts acc) refdes = true <->
    smem acc refdes = true \/
    exists inst, In (refdes, inst) insts /\ smem libs (inst_lib_id inst) = true.
Proof.
  induction insts as [|[k v] insts IH]; intros acc refdes; simpl.
  - split; [now left | intros [H|[inst [[] _]]]; exact H].
  - rewrite IH. unfold compile_instance at 1. cbn [fst snd].
    unfold smem at 3, dict_mem. fold (sget libs (inst_lib_id v)).
    destruct (sget libs (inst_lib_id v)) as [lib_pins|] eqn:E.
    + rewrite smem_sset_iff. split.
      * intros [[<-|H]|[inst [Hin Hl]]].
        -- right. exists v. split; [now left|].
           unfold smem, dict_mem. fold (sget libs (inst_lib_id v)). now rewrite E.
        -- now left.
        -- right. exists inst. split; [now right | assumption].
      * intros [H|[inst [[Heq|Hin] Hl]]].
        -- left. now right.
        -- inversion Heq; subst. left. now left.
        -- right. now exists inst.
    + split.
      * intros [H|[inst [Hin Hl]]]; [now left|].
        right. exists inst. split; [now right | assumption].
      * intros [H|[inst [[Heq|Hin] Hl]]]; [now left| |].
        -- inversion Heq; subst. unfold smem, dict_mem in Hl.
           fold (sget libs (inst_lib_id inst)) in Hl. rewrite E in Hl. discriminate.
        -- right. now exists inst.
Qed.

(** X18.  The compiled locations have an entry for a reference
    designator exactly when an instance with this designator has a symbol
    with pin data: the instances of unknown symbols are left out, and
    nothing else is. *)
Theorem compile_pin_locations_keys libs insts refdes :
  smem (compile_pin_locations libs insts) refdes = true <->
  exists inst, In (refdes, inst) insts /\ smem libs (inst_lib_id inst) = true.
Proof.
  unfold compile_pin_locations. rewrite compile_instances_keys. split.
  - intros [H|H]; [discriminate H | exact H].
  - intros H. now right.
Qed.

Lemma rotate_point_norm (x y angle : R) :
  fst (rotate_point x y angle) * fst (rotate_point x y angle) +
  snd (rotate_point x y angle) * snd (rotate_point x y angle) = x * x + y * y.
Proof.
  unfold rotate_point. cbn [fst snd].
  pose proof (sin2_cos2 (math_radians angle)) as H. unfold Rsqr in H.
  set (c := cos (math_radians angle)) in *. set (s := sin (math_radians angle)) in *.
  replace ((x * c - y * s) * (x * c - y * s) + (x * s + y * c) * (x * s + y * c))
    with ((x * x + y * y) * (s * s + c * c)) by ring.
  rewrite H. ring.
Qed.

(** X19.  Whatever the rotation of the instance, a compiled pin is as
    far from the origin of its instance as the pin is from the origin of
    its symbol. *)
Theorem compile_pin_locations_distance libs insts refdes inst lib_pins pin_name pin :
  NoDup (dict_keys insts) -> In (refdes, inst) insts ->
  sget libs (inst_lib_id inst) = Some lib_pins ->
  NoDup (dict_keys lib_pins) -> In (pin_name, pin) lib_pins ->
  exists compiled p,
    sget (compile_pin_locations libs insts) refdes = Some compiled /\
    sget compiled pin_name = Some p /\
    (raw_x_loc p - inst_x inst) * (raw_x_loc p - inst_x inst) +
    (raw_y_loc p - inst_y inst) * (raw_y_loc p - inst_y inst) =
    raw_x_loc pin * raw_x_loc pin + raw_y_loc pin * raw_y_loc pin.
Proof.
  intros Hnd Hin Hlib Hndp Hpin.
  exists (fold_left (compile_pin (inst_x inst) (inst_y inst) (inst_rotate inst)) lib_pins []).
  exists (spec_absolute_pin
            {| inst_x := inst_x inst; inst_y := inst_y inst; inst_rotate := inst_rotate inst;
               inst_lib_id := EmptyString |} pin).
  split; [|split].
  - unfold compile_pin_locations.
    exact (compile_instances_get libs insts [] refdes inst lib_pins Hnd Hin Hlib).
  - exact (compile_pins_get _ _ _ lib_pins [] pin_name pin Hndp Hpin).
  - unfold spec_absolute_pin. cbn [raw_x_loc raw_y_loc inst_x inst_y inst_rotate].
    pose proof (rotate_point_norm (raw_x_loc pin) (raw_y_loc pin) (inst_rotate inst)) as H.
    unfold rotate_point, math_radians in H. cbn [fst snd] in H.
    rewrite <- H. ring.
Qed.

Lemma compile_pin_locations_distance_witness :
  exists compiled p,
    sget (compile_pin_locations ex_libs ex_instances) "MIC1" = Some compiled /\
    sget compiled "out" = Some p /\
    (raw_x_loc p - 10) * (raw_x_loc p - 10) + (raw_y_loc p - 20) * (raw_y_loc p - 20) =
    1 * 1 + 0 * 0.
Proof.
  apply (compile_pin_locations_distance ex_libs ex_instances "MIC1" ex_quarter_turn
           [("out"%string, {| raw_x_loc := 1; raw_y_loc := 0 |})] "out"
           {| raw_x_loc := 1; raw_y_loc := 0 |}).
  - simpl. constructor; [intros [] | constructor].
  - now left.
  - reflexivity.
  - simpl. constructor; [intros [] | constructor].
  - now left.
Defined.
End CompilerKeys.


(** ** Document parser: the matches of a pattern *)

Lemma fold_result_app {A B} (f : A -> B -> result A) l1 l2 a :
  fold_result f (l1 ++ l2) a = (a' <- fold_result f l1 a ;; fold_result f l2 a').
Proof.
  revert a. induction l1 as [|b l1 IH]; intros a; simpl; [reflexivity|].
  destruct (f a b) as [a1|e]; simpl; [apply IH | reflexivity].
Qed.

Section ParserMatches.
Variable finditer_symbols : string -> list (string * string).
Variable finditer_pins : string -> list (string * string * string * string * string).
Variable finditer_instances :
  string -> list (string * string * string * string * string * string).
Variable finditer_wires : string -> list (string * string * string * string * string).
Variable py_float : string -> result R.

Lemma parse_wire_ok acc m :
  (exists acc', parse_wire py_float acc m = Ok acc') <-> floats_ok py_float (wire_texts m).
Proof.
  destruct m as [[[[x1 y1] x2] y2] uuid]. unfold parse_wire, floats_ok. cbn [wire_texts].
  split.
  - intros [acc' H].
    destruct (py_float x1) as [v1|] eqn:E1; [|discriminate].
    destruct (py_float y1) as [v2|] eqn:E2; [|discriminate].
    destruct (py_float x2) as [v3|] eqn:E3; [|discriminate].
    destruct (py_float y2) as [v4|] eqn:E4; [|discriminate].
    repeat constructor; eexists; eassumption.
  - intros H. inversion H as [|? ? [v1 E1] H1]; subst.
    inversion H1 as [|? ? [v2 E2] H2]; subst.
    inversion H2 as [|? ? [v3 E3] H3]; subst.
    inversion H3 as [|? ? [v4 E4] H4]; subst.
    rewrite E1, E2, E3, E4. simpl. now eexists.
Qed.

Lemma parse_wires_ok matches :
  forall acc,
    (exists wires, fold_result (parse_wire py_float) matches acc = Ok wires) <->
    Forall (fun m => floats_ok py_float (wire_texts m)) matches.
Proof.
  induction matches as [|m matches IH]; intros acc; simpl.
  - split; [constructor | now eexists].
  - split.
    + intros [wires H].
      destruct (parse_wire py_float acc m) as [acc'|e] eqn:E; [|discriminate].
      constructor.
      * apply (parse_wire_ok acc m). now exists acc'.
      * apply (IH acc'). now exists wires.
    + intros H. inversion H as [|? ? Hm Hrest]; subst.
      apply (parse_wire_ok acc m) in Hm. destruct Hm as [acc' ->]. simpl.
      now apply IH.
Qed.

Lemma parse_wire_keys acc m acc' :
  parse_wire py_float acc m = Ok acc' ->
  forall u, smem acc' u = true <-> wire_match_uuid m = u \/ smem acc u = true.
Proof.
  destruct m as [[[[x1 y1] x2] y2] uuid]. unfold parse_wire. cbn [wire_match_uuid].
  destruct (py_float x1) as [v1|]; [|discriminate].
  destruct (py_float y1) as [v2|]; [|discriminate].
  destruct (py_float x2) as [v3|]; [|discriminate].
  destruct (py_float y2) as [v4|]; [|discriminate].
  simpl. intros H. inversion H; subst. intros u. apply smem_sset_iff.
Qed.

Lemma parse_wires_keys matches :
  forall acc wires,
    fold_result (parse_wire py_float) matches acc = Ok wires ->
    forall u, smem wires u = true <->
              smem acc u = true \/ In u (map wire_match_uuid matches).
Proof.
  induction matches as [|m matches IH]; intros acc wires; simpl.
  - intros H. inversion H; subst. intros u. tauto.
  - destruct (parse_wire py_float acc m) as [acc'|e] eqn:E; [|discriminate]. simpl.
    intros H u. rewrite (IH _ _ H), (parse_wire_keys _ _ _ E). tauto.
Qed.

(** X20.  The wires are parsed without an exception exactly when every
    coordinate of every match of the wire pattern is accepted by
    [float]; the result then has one entry for each id among the
    matches, and no other. *)
Theorem parse_wires_defined_iff (content : string) :
  ((exists wires, _parse_wires finditer_wires py_float content = Ok wires) <->
   Forall (fun m => floats_ok py_float (wire_texts m)) (finditer_wires content)) /\
  (forall wires, _parse_wires finditer_wires py_float content = Ok wires ->
     forall u, smem wires u = true <->
               In u (map wire_match_uuid (finditer_wires content))).
Proof.
  unfold _parse_wires. split.
  - apply parse_wires_ok.
  - intros wires H u. rewrite (parse_wires_keys _ _ _ H).
    split; [intros [H0|H0]; [discriminate H0 | exact H0] | now right].
Qed.

Lemma parse_instance_other acc m acc' refdes :
  parse_instance py_float acc m = Ok acc' ->
  instance_match_refdes m <> refdes ->
  sget acc' refdes = sget acc refdes.
Proof.
  destruct m as [[[[[lib_id x] y] rotate] body] r]. unfold parse_instance.
  cbn [instance_match_refdes].
  destruct (py_float x) as [vx|]; [|discriminate].
  destruct (py_float y) as [vy|]; [|discriminate].
  destruct (py_float rotate) as [vr|]; [|discriminate].
  simpl. intros H Hne. inversion H; subst. rewrite sget_sset.
  now destruct (String.eqb_spec r refdes).
Qed.

Lemma parse_instances_other matches :
  forall acc insts refdes,
    fold_result (parse_instance py_float) matches acc = Ok insts ->
    ~ In refdes (map instance_match_refdes matches) ->
    sget insts refdes = sget acc refdes.
Proof.
  induction matches as [|m matches IH]; intros acc insts refdes; simpl.
  - intros H _. now inversion H.
  - destruct (parse_instance py_float acc m) as [acc'|e] eqn:E; [|discriminate]. simpl.
    intros H Hn. rewrite (IH _ _ _ H) by (intro; apply Hn; now right).
    apply (parse_instance_other _ _ _ _ E). intro. apply Hn. now left.
Qed.

(** X21.  When several placed symbols carry the same reference
    designator, the instance kept under it is the last one of the
    document: its own symbol, position and rotation. *)
Theorem parse_lib_instances_last_wins (content : string) before after
    lib_id x y rotate body refdes insts :
  finditer_instances content = before ++ (lib_id, x, y, rotate, body, refdes) :: after ->
  ~ In refdes (map instance_match_refdes after) ->
  _parse_lib_instances finditer_instances py_float content = Ok insts ->
  exists vx vy vr,
    py_float x = Ok vx /\ py_float y = Ok vy /\ py_float rotate = Ok vr /\
    sget insts refdes =
      Some {| inst_x := vx; inst_y := vy; inst_rotate := vr; inst_lib_id := lib_id |}.
Proof.
  intros Hm Hafter. unfold _parse_lib_instances. rewrite Hm, fold_result_app.
  destruct (fold_result (parse_instance py_float) before []) as [acc|e]; [|discriminate].
  cbn [bind fold_result].
  destruct (parse_instance py_float acc (lib_id, x, y, rotate, body, refdes))
    as [acc'|e] eqn:E; [|discriminate].
  cbn [bind]. intros H. unfold parse_instance in E.
  destruct (py_float x) as [vx|]; [|discriminate].
  destruct (py_float y) as [vy|]; [|discriminate].
  destruct (py_float rotate) as [vr|]; [|discriminate].
  cbn [bind] in E. inversion E; subst acc'.
  exists vx, vy, vr. repeat split.
  rewrite (parse_instances_other _ _ _ _ H Hafter), sget_sset, String.eqb_refl.
  reflexivity.
Qed.

(** *** The pins of the library symbols *)





End ParserMatches.


Lemma parse_lib_instances_last_wins_witness :
  exists vx vy vr,
    ex_float "90" = Ok vx /\ ex_float "0" = Ok vy /\ ex_float "90" = Ok vr /\
    sget [("MIC1"%string,
           {| inst_x := 90; inst_y := 0; inst_rotate := 90; inst_lib_id := "Device:Amp" |})]
         "MIC1" =
      Some {| inst_x := vx; inst_y := vy; inst_rotate := vr; inst_lib_id := "Device:Amp" |}.
Proof.
  apply (parse_lib_instances_last_wins (fun _ => ex_instance_matches) ex_float
           EmptyString [("Device:Mic", "0", "0", "0", "", "MIC1")]%string []
           "Device:Amp" "90" "0" "90" "" "MIC1").
  - reflexivity.
  - intros [].
  - reflexivity.
Defined.


(** ** Angles and directions *)

Section Directions.
Local Open Scope R_scope.

Lemma sqrt_one_plus_sqr_pos (t : R) : 0 < sqrt (1 + t²).
Proof. apply sqrt_lt_R0. pose proof (Rle_0_sqr t). lra. Qed.

Lemma norm_factor (x y : R) :
  x <> 0 -> sqrt (x * x + y * y) = Rabs x * sqrt (1 + (y / x)²).
Proof.
  intros Hx. rewrite <- sqrt_Rsqr_abs, <- sqrt_mult.
  - f_equal. unfold Rsqr. field. exact Hx.
  - apply Rle_0_sqr.
  - pose proof (Rle_0_sqr (y / x)). lra.
Qed.

(** The angle of a vector gives back its direction: the vector is its
    length times the cosine and the sine of its angle. *)
Lemma math_atan2_polar (y x : R) :
  sqrt (x * x + y * y) * cos (math_atan2 y x) = x /\
  sqrt (x * x + y * y) * sin (math_atan2 y x) = y.
Proof.
  unfold math_atan2.
  destruct (Rlt_dec 0 x) as [Hpos|Hpos].
  - assert (Hx : x <> 0) by lra.
    rewrite (norm_factor x y Hx), (Rabs_right x) by lra.
    rewrite cos_atan, sin_atan. pose proof (sqrt_one_plus_sqr_pos (y / x)) as Hs.
    split; field; lra.
  - destruct (Rlt_dec x 0) as [Hneg|Hneg].
    + assert (Hx : x <> 0) by lra.
      rewrite (norm_factor x y Hx), (Rabs_left x) by lra.
      pose proof (sqrt_one_plus_sqr_pos (y / x)) as Hs.
      destruct (Rle_dec 0 y) as [Hy|Hy].
      * rewrite neg_cos, neg_sin, cos_atan, sin_atan. split; field; lra.
      * replace (atan (y / x) - PI) with (- (PI - atan (y / x))) by ring.
        rewrite cos_neg, sin_neg.
        replace (PI - atan (y / x)) with (- atan (y / x) + PI) by ring.
        rewrite neg_cos, neg_sin, cos_neg, sin_neg, cos_atan, sin_atan.
        split; field; lra.
    + assert (Hx : x = 0) by lra. subst x.
      replace (0 * 0 + y * y) with (y * y) by ring.
      destruct (Rlt_dec 0 y) as [Hy|Hy].
      * rewrite sqrt_square by lra. rewrite cos_PI2, sin_PI2. split; ring.
      * destruct (Rlt_dec y 0) as [Hy'|Hy'].
        -- replace (y * y) with ((- y) * (- y)) by ring. rewrite sqrt_square by lra.
           rewrite cos_neg, sin_neg, cos_PI2, sin_PI2. split; ring.
        -- assert (Hy0 : y = 0) by lra. subst y.
           rewrite Rmult_0_l, sqrt_0. split; ring.
Qed.

Lemma math_radians_degrees (r : R) : math_radians (math_degrees r) = r.
Proof.
  unfold math_radians, math_degrees. pose proof PI_RGT_0. field. lra.
Qed.

Lemma node_radius_pos (components : nat) :
  (1 <= components)%nat -> 0 < node_radius_inches components * 25.4.
Proof.
  intros H. rewrite (node_radius_inches_pos components H).
  unfold segment_spacing_inches, Rpower. pose proof (exp_pos (0.7 * ln (INR components))).
  nra.
Qed.

Lemma center_offset_middle (k : nat) :
  center_offset_from_count_inches (k + 1) (2 * k + 1) = 0.
Proof.
  unfold center_offset_from_count_inches.
  rewrite !plus_INR, mult_INR. change (INR 2) with 2. change (INR 1) with 1.
  unfold segment_spacing_inches. lra.
Qed.

(** X23.  The connection in the middle of an odd number of connections
    on a segment, and so a connection alone on its segment, leaves the
    node exactly toward the other end of the segment: its bundle point
    lies on the perimeter, on the ray from the node to the other node. *)
Theorem middle_bundle_point_toward (k components : nat) (node_coords other_coords : node) :
  (1 <= components)%nat ->
  let x_node_mm := Q2R (node_x node_coords) * 25.4 in
  let y_node_mm := Q2R (node_y node_coords) * 25.4 in
  let node_radius_mm := node_radius_inches components * 25.4 in
  let dx := (Q2R (node_x other_coords) - Q2R (node_x node_coords)) * 25.4 in
  let dy := (Q2R (node_y other_coords) - Q2R (node_y node_coords)) * 25.4 in
  exists p,
    bundle_point x_node_mm y_node_mm node_radius_mm
      (outward_angle node_coords other_coords) (2 * k + 1) (k + 1) = Ok p /\
    sqrt (dx * dx + dy * dy) * (pt_x p - x_node_mm) = node_radius_mm * dx /\
    sqrt (dx * dx + dy * dy) * (- pt_y p - y_node_mm) = node_radius_mm * dy.
Proof.
  intros Hc x_node_mm y_node_mm node_radius_mm dx dy.
  pose proof (node_radius_pos components Hc) as Hr. fold node_radius_mm in Hr.
  unfold bundle_point. rewrite center_offset_middle, Rmult_0_l.
  destruct (delta_angle_cases 0 node_radius_mm) as [[Hz _]|[[_ [Hd _]]|[_ [_ H]]]].
  - lra.
  - unfold Rdiv in Hd. rewrite Rmult_0_l in Hd. lra.
  - rewrite H. cbn [bind]. eexists. split; [reflexivity|]. cbn [pt_x pt_y].
    unfold Rdiv at 1 2. rewrite Rmult_0_l, asin_0.
    replace (math_degrees 0) with 0 by (unfold math_degrees; ring).
    rewrite Rplus_0_r. unfold outward_angle. fold dx dy.
    rewrite math_radians_degrees.
    destruct (math_atan2_polar dy dx) as [Hx Hy].
    set (d := sqrt (dx * dx + dy * dy)) in *.
    set (c := cos (math_atan2 dy dx)) in *. set (s := sin (math_atan2 dy dx)) in *.
    split.
    + transitivity (node_radius_mm * (d * c)); [ring | now rewrite Hx].
    + transitivity (node_radius_mm * (d * s)); [ring | now rewrite Hy].
Qed.

Lemma middle_bundle_point_toward_witness :
  exists p,
    bundle_point (Q2R 0 * 25.4) (Q2R 0 * 25.4) (node_radius_inches 1 * 25.4)
      (outward_angle ex_line_a ex_line_b) (2 * 0 + 1) (0 + 1) = Ok p /\
    sqrt ((Q2R 1 - Q2R 0) * 25.4 * ((Q2R 1 - Q2R 0) * 25.4) +
          (Q2R 0 - Q2R 0) * 25.4 * ((Q2R 0 - Q2R 0) * 25.4)) * (pt_x p - Q2R 0 * 25.4) =
      node_radius_inches 1 * 25.4 * ((Q2R 1 - Q2R 0) * 25.4) /\
    sqrt ((Q2R 1 - Q2R 0) * 25.4 * ((Q2R 1 - Q2R 0) * 25.4) +
          (Q2R 0 - Q2R 0) * 25.4 * ((Q2R 0 - Q2R 0) * 25.4)) * (- pt_y p - Q2R 0 * 25.4) =
      node_radius_inches 1 * 25.4 * ((Q2R 0 - Q2R 0) * 25.4).
Proof.
  apply (middle_bundle_point_toward 0 1 ex_line_a ex_line_b). apply le_n.
Defined.
End Directions.


(** ** Wire masks *)

Section WireMaskFacts.
Local Open Scope R_scope.

(** X24.  The polygon that masks a wire is the rectangle around the
    wire, one millimetre wide, that reaches half a millimetre beyond each
    end of the wire: with [u] the unit vector along the wire (any unit
    vector is one along a wire of length zero), its corners are the two
    ends moved outward by [u / 2], and then sideways by half a millimetre
    to either side. *)
Theorem wire_mask_covers_wire (wire_coords : wire_loc) :
  let ax := Q2R (a_x wire_coords) * 25.4 in
  let ay := Q2R (a_y wire_coords) * 25.4 in
  let bx := Q2R (b_x wire_coords) * 25.4 in
  let byy := Q2R (b_y wire_coords) * 25.4 in
  exists ux uy,
    ux * ux + uy * uy = 1 /\
    sqrt ((bx - ax) * (bx - ax) + (byy - ay) * (byy - ay)) * ux = bx - ax /\
    sqrt ((bx - ax) * (bx - ax) + (byy - ay) * (byy - ay)) * uy = byy - ay /\
    wire_mask_corners wire_coords =
    [(ax - ux / 2 + uy / 2, ay - uy / 2 - ux / 2);
     (bx + ux / 2 + uy / 2, byy + uy / 2 - ux / 2);
     (bx + ux / 2 - uy / 2, byy + uy / 2 + ux / 2);
     (ax - ux / 2 - uy / 2, ay - uy / 2 + ux / 2)].
Proof.
  intros ax ay bx byy.
  exists (cos (math_atan2 (byy - ay) (bx - ax))), (sin (math_atan2 (byy - ay) (bx - ax))).
  destruct (math_atan2_polar (byy - ay) (bx - ax)) as [Hx Hy].
  pose proof (sin2_cos2 (math_atan2 (byy - ay) (bx - ax))) as H1. unfold Rsqr in H1.
  split; [lra|]. split; [exact Hx|]. split; [exact Hy|].
  unfold wire_mask_corners, wire_mask_width_mm. cbv zeta. fold ax ay bx byy.
  set (len := sqrt ((bx - ax) * (bx - ax) + (byy - ay) * (byy - ay))) in *.
  set (c := cos (math_atan2 (byy - ay) (bx - ax))) in *.
  set (s := sin (math_atan2 (byy - ay) (bx - ax))) in *.
  cbn [map fst snd].
  repeat (f_equal; try (f_equal; lra)).
Qed.
End WireMaskFacts.
